(** * HTL2026 timeline: the position/offset engine

    A shallow embedding of the scrolling-timeline engine of the repository:

    - [TrackDuplicator]   js/timeline/TrackDuplicator.js
    - [TimelineCore]      js/timeline/TimelineCore.js
    - [Controls]          js/timeline/Controls.js (the press-and-hold tick)
    - [SliderController]  js/timeline/SliderController.js (the input handler)
    - [Master]            js/master.js (the single-closure variant)

    JavaScript numbers are kept abstract behind the class [JsNumber], so that
    every function of the engine is written once and can be run on three
    carriers: IEEE binary64 ([float], the kernel's primitive floats), on
    which concrete runs are replayed with the rounding JavaScript performs;
    exact rationals [Q]; and rationals with a rounding after every
    arithmetic operation ([Rounded_JsNumber]), of which exact arithmetic and
    binary64 are instances.  The theorems on exact rationals are about
    values that binary64 computes without rounding (layout offsets and the
    period are integers, the speeds 0.75 and 25 are dyadic) or about the
    order of values, which rounding keeps.  Where a rounded value decides
    the matter, as for a position the slider writes, the theorem is stated
    for every rounding with the properties it names, or on binary64
    itself. *)

From Stdlib Require Import ZArith QArith Qabs Qround Lqa Lia Bool String List.
From Stdlib Require Import Floats.PrimFloat Floats.SpecFloat Floats.FloatOps.
Import ListNotations.

Set Implicit Arguments.

(* ================================================================= *)
(** ** JavaScript numbers *)

(** The operations the engine performs on numbers.  Comparisons are the
    boolean JavaScript ones; [x > y] is written [y <? x] and [x >= y] is
    [y <=? x] (this is also how IEEE comparisons behave on NaN). *)
Class JsNumber (num : Type) : Type := {
  num_of_Z : Z -> num;            (* an integer-valued number *)
  nadd : num -> num -> num;       (* x + y *)
  nsub : num -> num -> num;       (* x - y *)
  nmul : num -> num -> num;       (* x * y *)
  ndiv : num -> num -> num;       (* x / y *)
  nopp : num -> num;              (* -x *)
  nabs : num -> num;              (* Math.abs(x) *)
  nltb : num -> num -> bool;      (* x < y *)
  nleb : num -> num -> bool;      (* x <= y *)
  neqb : num -> num -> bool;      (* x === y *)
  nlt_infinity : num -> bool;     (* x < Infinity *)
  nfloor : num -> option Z        (* Math.floor(x), read as an array index;
                                     None when it is NaN or an infinity *)
}.

Declare Scope js_scope.
Delimit Scope js_scope with js.
Notation "x + y" := (nadd x y) : js_scope.
Notation "x - y" := (nsub x y) : js_scope.
Notation "x * y" := (nmul x y) : js_scope.
Notation "x / y" := (ndiv x y) : js_scope.
Notation "- x" := (nopp x) : js_scope.
Notation "x <? y" := (nltb x y) : js_scope.
Notation "x <=? y" := (nleb x y) : js_scope.
Notation "x =? y" := (neqb x y) : js_scope.
Abbreviation lit := num_of_Z (only parsing).

(** Exact rationals.  There is no NaN and no Infinity in this carrier, and
    [x / 0] is [0] (JavaScript yields NaN or an infinity): statements about
    a division carry the hypothesis that makes the divisor non-zero. *)
#[export] Instance Q_JsNumber : JsNumber Q := {|
  num_of_Z := inject_Z;
  nadd := Qplus;
  nsub := Qminus;
  nmul := Qmult;
  ndiv := Qdiv;
  nopp := Qopp;
  nabs := Qabs;
  nltb := fun x y => negb (Qle_bool y x);
  nleb := Qle_bool;
  neqb := Qeq_bool;
  nlt_infinity := fun _ => true;
  nfloor := fun x => Some (Qfloor x)
|}.

(** IEEE binary64.  [float_of_Z] is exact below 2^53, which covers every
    integer a layout reports. *)
Fixpoint float_of_positive (p : positive) : float :=
  match p with
  | xH => 1%float
  | xO q => (2 * float_of_positive q)%float
  | xI q => (2 * float_of_positive q + 1)%float
  end.

Definition float_of_Z (z : Z) : float :=
  match z with
  | Z0 => 0%float
  | Zpos p => float_of_positive p
  | Zneg p => (- float_of_positive p)%float
  end.

(** [Math.floor]: the integer below a finite float; [Math.floor] of NaN and
    of the infinities is that same value, which is no array index
    ([None]). *)
Definition float_floor (x : float) : option Z :=
  match Prim2SF x with
  | S754_finite s m e =>
      let v := if s then Z.neg m else Z.pos m in
      Some (if (0 <=? e)%Z then (v * 2 ^ e)%Z else (v / 2 ^ (- e))%Z)
  | S754_zero _ => Some 0%Z
  | _ => None
  end.

#[export] Instance float_JsNumber : JsNumber float := {|
  num_of_Z := float_of_Z;
  nadd := PrimFloat.add;
  nsub := PrimFloat.sub;
  nmul := PrimFloat.mul;
  ndiv := PrimFloat.div;
  nopp := PrimFloat.opp;
  nabs := PrimFloat.abs;
  nltb := PrimFloat.ltb;
  nleb := PrimFloat.leb;
  neqb := PrimFloat.eqb;
  nlt_infinity := fun x => PrimFloat.ltb x infinity;
  nfloor := float_floor
|}.

(** Rationals on which every sum, difference, product and quotient is
    followed by a rounding [rnd], the way binary64 rounds the result of each
    operation.  Negation, [Math.abs], the comparisons and [Math.floor] are
    exact, as they are in IEEE arithmetic, and so are the integer literals
    of the source.  Exact arithmetic is the case [rnd x = x]; binary64 is a
    rounding that is monotone, leaves the numbers it represents as they
    are, and changes any other by at most 2^-53 of its magnitude (as long
    as no operation overflows or underflows).  The statements about this
    carrier name the properties of [rnd] they rest on. *)
Definition Rounded_JsNumber (rnd : Q -> Q) : JsNumber Q := {|
  num_of_Z := inject_Z;
  nadd := fun x y => rnd (x + y);
  nsub := fun x y => rnd (x - y);
  nmul := fun x y => rnd (x * y);
  ndiv := fun x y => rnd (x / y);
  nopp := Qopp;
  nabs := Qabs;
  nltb := fun x y => negb (Qle_bool y x);
  nleb := Qle_bool;
  neqb := Qeq_bool;
  nlt_infinity := fun _ => true;
  nfloor := fun x => Some (Qfloor x)
|}.

(** A rounding to the nearest multiple of a quarter (a tie goes upwards);
    it stands for a coarse floating-point format in the examples. *)
Definition round_to_quarter (x : Q) : Q :=
  inject_Z (Qfloor (x * 4 + (1 # 2))) / 4.

(** A toy floating-point format: numbers below 1 in magnitude are kept,
    the others are rounded to the nearest quarter, so that no number
    changes by more than an eighth of its magnitude. *)
Definition round_above_one (x : Q) : Q :=
  if Qle_bool 1 (Qabs x) then round_to_quarter x else x.

(** [Math.round(h / 2)] for an integer [h] (a DOM [scrollHeight]): [h / 2]
    has at most one fractional bit and [Math.round] rounds a half upwards. *)
Definition Math_round_half (h : Z) : Z := ((h + 1) / 2)%Z.

(** [Math.max(0, Math.min(len - 1, idx))] on an integer index. *)
Definition clamp_index (len : nat) (idx : Z) : Z :=
  Z.max 0 (Z.min (Z.of_nat len - 1) idx).

(** [xs[i]]: [None] stands for [undefined] (index out of range). *)
Definition array_get {A : Type} (xs : list A) (i : Z) : option A :=
  if (i <? 0)%Z then None else nth_error xs (Z.to_nat i).

(* ================================================================= *)
(** ** The DOM as the engine sees it *)

(** A [.card] element: its [id] attribute and its content. *)
Record Card : Type := {
  id : string;
  innerHTML : string
}.

(** [c.cloneNode(true)]: a deep copy, attributes (the [id]) included. *)
Definition cloneNode (c : Card) : Card :=
  {| id := id c; innerHTML := innerHTML c |}.

(** A card together with the layout box the browser reports for it. *)
Record CardElement : Type := {
  card : Card;
  offsetTop : Z
}.

(** The track element: [querySelectorAll(".card")] in document order,
    [scrollHeight], and the [translateY] last written to [style.transform]
    ([None] before the first write). *)
Record TrackElement (num : Type) : Type := {
  cardElements : list CardElement;
  scrollHeight : Z;
  style_transform : option num
}.

(* ================================================================= *)
(** ** TrackDuplicator.js *)

Module TrackDuplicator.

(** [this.track]; [None] is a missing element. *)
Record t : Type := { track : option (list Card) }.

Definition same_id (a b : option Card) : bool :=
  match a, b with
  | Some x, Some y => String.eqb (id x) (id y)
  | _, _ => false
  end.

(** [isAlreadyDuplicated], on [all = querySelectorAll(".card")]. *)
Definition isAlreadyDuplicated (all : list Card) : bool :=
  if (length all <? 2)%nat then false
  else if negb (length all mod 2 =? 0)%nat then false
  else
    let half := (length all / 2)%nat in
    forallb (fun i => same_id (nth_error all i) (nth_error all (i + half)))
            (seq 0 half).

(** [duplicate]: appends one clone per card, unless there is no track, no
    card, or the track is already doubled. *)
Definition duplicate (d : t) : t :=
  match track d with
  | None => d
  | Some all =>
      if (length all =? 0)%nat then d
      else if isAlreadyDuplicated all then d
      else {| track := Some (all ++ map cloneNode all) |}
  end.

(** [originalCount], on [all = querySelectorAll(".card")]. *)
Definition originalCount (all : list Card) : nat :=
  if isAlreadyDuplicated all then (length all / 2)%nat else length all.

End TrackDuplicator.

(* ================================================================= *)
(** ** TimelineCore.js *)

Module TimelineCore.
Section WithNumbers.
Context {num : Type} {JN : JsNumber num}.
Local Open Scope js_scope.

(** The fields of a [TimelineCore] object.  [raf_pending] counts the
    [requestAnimationFrame(this._boundAnimate)] requests issued so far. *)
Record t : Type := {
  track : TrackElement num;
  posY : num;
  autoScroll : bool;
  BASE_SPEED : num;
  cards : list CardElement;
  offsets : list num;
  originalCount : nat;
  halfTrackHeight : num;
  _running : bool;
  raf_pending : nat
}.

(** [new TimelineCore({ wrap, track })]. *)
Definition constructor (tr : TrackElement num) : t := {|
  track := tr;
  posY := lit 0;
  autoScroll := true;
  BASE_SPEED := lit 3 / lit 4;     (* 0.75 *)
  cards := [];
  offsets := [];
  originalCount := 0;
  halfTrackHeight := lit 0;
  _running := false;
  raf_pending := 0
|}.

Definition set_posY (y : num) (c : t) : t := {|
  track := track c; posY := y; autoScroll := autoScroll c;
  BASE_SPEED := BASE_SPEED c; cards := cards c; offsets := offsets c;
  originalCount := originalCount c; halfTrackHeight := halfTrackHeight c;
  _running := _running c; raf_pending := raf_pending c
|}.

Definition set_track (tr : TrackElement num) (c : t) : t := {|
  track := tr; posY := posY c; autoScroll := autoScroll c;
  BASE_SPEED := BASE_SPEED c; cards := cards c; offsets := offsets c;
  originalCount := originalCount c; halfTrackHeight := halfTrackHeight c;
  _running := _running c; raf_pending := raf_pending c
|}.

Definition set_running (b : bool) (c : t) : t := {|
  track := track c; posY := posY c; autoScroll := autoScroll c;
  BASE_SPEED := BASE_SPEED c; cards := cards c; offsets := offsets c;
  originalCount := originalCount c; halfTrackHeight := halfTrackHeight c;
  _running := b; raf_pending := raf_pending c
|}.

(** [requestAnimationFrame(this._boundAnimate)]. *)
Definition requestAnimationFrame (c : t) : t := {|
  track := track c; posY := posY c; autoScroll := autoScroll c;
  BASE_SPEED := BASE_SPEED c; cards := cards c; offsets := offsets c;
  originalCount := originalCount c; halfTrackHeight := halfTrackHeight c;
  _running := _running c; raf_pending := S (raf_pending c)
|}.

(** [computeOffsetsNow]. *)
Definition computeOffsetsNow (c : t) : t :=
  let all := cardElements (track c) in
  let half := lit (Math_round_half (scrollHeight (track c))) in
  if (length all =? 0)%nat then
    {| track := track c; posY := posY c; autoScroll := autoScroll c;
       BASE_SPEED := BASE_SPEED c;
       cards := []; offsets := []; originalCount := 0;
       halfTrackHeight := half;
       _running := _running c; raf_pending := raf_pending c |}
  else
    (* originalCount || all.length *)
    let firstCount :=
      if (originalCount c =? 0)%nat then length all else originalCount c in
    let cs := firstn firstCount all in
    (* this.cards[0]?.offsetTop || 0 *)
    let firstTop := match cs with [] => 0%Z | c0 :: _ => offsetTop c0 end in
    {| track := track c; posY := posY c; autoScroll := autoScroll c;
       BASE_SPEED := BASE_SPEED c;
       cards := cs;
       offsets := map (fun e => lit (offsetTop e) - lit firstTop) cs;
       originalCount := originalCount c;
       halfTrackHeight := half;
       _running := _running c; raf_pending := raf_pending c |}.

(** The scan of [nearestCardIndex]: [i] is the loop index, [best] the
    best distance so far ([None] is the initial [Infinity]), [nearest]
    the index that achieved it. *)
Fixpoint nearest_scan (dist : num) (offs : list num)
         (i : nat) (best : option num) (nearest : nat) : nat :=
  match offs with
  | [] => nearest
  | o :: rest =>
      let d := nabs (dist - o) in
      let better :=
        match best with
        | None => nlt_infinity d
        | Some b => d <? b
        end in
      if better then nearest_scan dist rest (S i) (Some d) i
      else nearest_scan dist rest (S i) best nearest
  end.

(** [nearestCardIndex]. *)
Definition nearestCardIndex (c : t) : nat :=
  if (length (offsets c) =? 0)%nat then 0%nat
  else nearest_scan (nabs (posY c)) (offsets c) 0 None 0.

(** [_applyTransform]: writes [translateY(posY px)] on the track. *)
Definition _applyTransform (c : t) : t :=
  set_track {| cardElements := cardElements (track c);
               scrollHeight := scrollHeight (track c);
               style_transform := Some (posY c) |} c.

(** [while (half > 0 && val < -half) val += half], with a bound on the
    number of iterations: [None] when [fuel] iterations do not end it. *)
Fixpoint normalize_up (fuel : nat) (half val : num) : option num :=
  if (lit 0 <? half) && (val <? - half) then
    match fuel with
    | O => None
    | S fuel' => normalize_up fuel' half (val + half)
    end
  else Some val.

(** [while (half > 0 && val > 0) val -= half], likewise. *)
Fixpoint normalize_down (fuel : nat) (half val : num) : option num :=
  if (lit 0 <? half) && (lit 0 <? val) then
    match fuel with
    | O => None
    | S fuel' => normalize_down fuel' half (val - half)
    end
  else Some val.

(** [jumpToIndex(idx)]; [fuel] bounds each of the two loops. *)
Definition jumpToIndex (fuel : nat) (idx : Z) (c : t) : option t :=
  if (length (offsets c) =? 0)%nat then Some c
  else
    match array_get (offsets c) (clamp_index (length (offsets c)) idx) with
    | None => None
    | Some o =>
        let desired := - o in
        match normalize_up fuel (halfTrackHeight c) desired with
        | None => None
        | Some v1 =>
            match normalize_down fuel (halfTrackHeight c) v1 with
            | None => None
            | Some v2 => Some (_applyTransform (set_posY v2 c))
            end
        end
    end.

(** [posYForIndex(i)]. *)
Definition posYForIndex (i : Z) (c : t) : option num :=
  if (length (offsets c) =? 0)%nat then Some (lit 0)
  else
    match array_get (offsets c) (clamp_index (length (offsets c)) i) with
    | None => None
    | Some o => Some (- o)
    end.

(** [setAutoScroll(enabled)]. *)
Definition setAutoScroll (enabled : bool) (c : t) : t := {|
  track := track c; posY := posY c; autoScroll := enabled;
  BASE_SPEED := BASE_SPEED c; cards := cards c; offsets := offsets c;
  originalCount := originalCount c; halfTrackHeight := halfTrackHeight c;
  _running := _running c; raf_pending := raf_pending c
|}.

(** The wrap of [_animate]: two single tests, in this order. *)
Definition wrap_once (half y : num) : num :=
  if lit 0 <? half then
    let y1 := if y <=? - half then y + half else y in
    if lit 0 <? y1 then y1 - half else y1
  else y.

(** [_animate], the animation-frame callback. *)
Definition _animate (c : t) : t :=
  if _running c then
    let y := if autoScroll c then posY c - BASE_SPEED c else posY c in
    let c1 := set_posY (wrap_once (halfTrackHeight c) y) c in
    requestAnimationFrame (_applyTransform c1)
  else c.

(** [start]. *)
Definition start (c : t) : t :=
  if _running c then c
  else
    requestAnimationFrame
      (_applyTransform (computeOffsetsNow (set_running true c))).

(** [stop]. *)
Definition stop (c : t) : t := set_running false c.

End WithNumbers.
Arguments t num : clear implicits.
End TimelineCore.

(* ================================================================= *)
(** ** Controls.js: the press-and-hold arrows *)

Module Controls.
Section WithNumbers.
Context {num : Type} {JN : JsNumber num}.
Local Open Scope js_scope.

Record t : Type := {
  arrowSpeed : num;
  FAST_SPEED : num
}.

Definition constructor : t :=
  {| arrowSpeed := lit 0; FAST_SPEED := lit 25 |}.

(** [mousedown]/[touchstart] on the up and on the down button, and
    [mouseup]/[touchend] anywhere in the document. *)
Definition press_up (k : t) : t :=
  {| arrowSpeed := FAST_SPEED k; FAST_SPEED := FAST_SPEED k |}.
Definition press_down (k : t) : t :=
  {| arrowSpeed := - FAST_SPEED k; FAST_SPEED := FAST_SPEED k |}.
Definition release (k : t) : t :=
  {| arrowSpeed := lit 0; FAST_SPEED := FAST_SPEED k |}.

(** The body of [tick], the animation-frame callback installed by
    [bind]: it moves the timeline it shares with the engine. *)
Definition tick (k : t) (c : TimelineCore.t num) : TimelineCore.t num :=
  if negb (arrowSpeed k =? lit 0) then
    TimelineCore.setAutoScroll false
      (TimelineCore.set_posY (TimelineCore.posY c + arrowSpeed k) c)
  else c.

End WithNumbers.
Arguments t num : clear implicits.
End Controls.

(* ================================================================= *)
(** ** The slider interpolation (SliderController.js and master.js) *)

Section Interpolation.
Context {num : Type} {JN : JsNumber num}.
Local Open Scope js_scope.

(** The lines both input handlers share:
    [iL = Math.floor(frac); iU = Math.min(n - 1, iL + 1); t = frac - iL;
     interp = offsets[iL] + (offsets[iU] - offsets[iL]) * t].
    [None] is the NaN an [undefined] array element produces, which is
    also what a NaN or infinite [iL] leads to. *)
Definition interpolate (offsets : list num) (frac : num) : option num :=
  match nfloor frac with
  | None => None
  | Some iL =>
      let iU := Z.min (Z.of_nat (length offsets) - 1) (iL + 1) in
      let t := frac - lit iL in
      match array_get offsets iL, array_get offsets iU with
      | Some oL, Some oU => Some (oL + (oU - oL) * t)
      | _, _ => None
      end
  end.

(** [frac = (1 - val / 100) * (offsets.length - 1)]. *)
Definition slider_fraction (offsets : list num) (val : num) : num :=
  (lit 1 - val / lit 100) * lit (Z.of_nat (length offsets) - 1).

(** What the handlers assign to [posY] for a fractional index:
    [posY = -interp]. *)
Definition fractionToPosition (offsets : list num) (frac : num)
  : option num :=
  match interpolate offsets frac with
  | Some interp => Some (- interp)
  | None => None
  end.

End Interpolation.

Module SliderController.
Section WithNumbers.
Context {num : Type} {JN : JsNumber num}.
Local Open Scope js_scope.

(** [_onInput], with [val = Number(this.slider.value)]; [None] when the
    position written would be NaN. *)
Definition _onInput (val : num) (c : TimelineCore.t num)
  : option (TimelineCore.t num) :=
  if (length (TimelineCore.offsets c) =? 0)%nat then Some c
  else
    match fractionToPosition (TimelineCore.offsets c)
                             (slider_fraction (TimelineCore.offsets c) val)
    with
    | Some y =>
        Some (TimelineCore.setAutoScroll false
                (TimelineCore._applyTransform (TimelineCore.set_posY y c)))
    | None => None
    end.

(** [_onChange]: snap to the nearest card. *)
Definition _onChange (fuel : nat) (c : TimelineCore.t num)
  : option (TimelineCore.t num) :=
  if (length (TimelineCore.offsets c) =? 0)%nat then Some c
  else
    TimelineCore.jumpToIndex fuel
      (Z.of_nat (TimelineCore.nearestCardIndex c)) c.

End WithNumbers.
End SliderController.

(* ================================================================= *)
(** ** master.js: the single-closure variant *)

Module Master.
Section WithNumbers.
Context {num : Type} {JN : JsNumber num}.
Local Open Scope js_scope.

(** The closure variables the engine part of master.js reads and writes,
    and the [translateY] written on the track. *)
Record t : Type := {
  posY : num;
  autoScroll : bool;
  userPaused : bool;
  arrowSpeed : num;
  offsets : list num;
  halfTrackHeight : num;
  style_transform : option num
}.

Definition BASE_SPEED : num := lit 3 / lit 4.   (* 0.75 *)
Definition FAST_SPEED : num := lit 25.

(** The loop of [fractionalIndexForPosY]: [i] is the loop index, the
    list is [offsets] from position [i] on. *)
Fixpoint bracket_scan (dist : num) (offs : list num) (i : Z) : num :=
  match offs with
  | a :: ((b :: _) as rest) =>
      if (a <=? dist) && (dist <=? b) then lit i + (dist - a) / (b - a)
      else bracket_scan dist rest (i + 1)
  | _ => lit 0
  end.

(** [fractionalIndexForPosY(y)]. *)
Definition fractionalIndexForPosY (offs : list num) (y : num) : num :=
  match offs with
  | [] => lit 0
  | o0 :: _ =>
      let dist := nabs y in
      if dist <=? o0 then lit 0
      else if last offs o0 <=? dist then lit (Z.of_nat (length offs) - 1)
      else bracket_scan dist offs 0
  end.

(** [nearestCardIndexForPosY(y)]. *)
Definition nearestCardIndexForPosY (offs : list num) (y : num) : nat :=
  if (length offs =? 0)%nat then 0%nat
  else TimelineCore.nearest_scan (nabs y) offs 0 None 0.

(** [posYForCardIndex(i)]. *)
Definition posYForCardIndex (offs : list num) (i : Z) : option num :=
  if (length offs =? 0)%nat then Some (lit 0)
  else
    match array_get offs (clamp_index (length offs) i) with
    | Some o => Some (- o)
    | None => None
    end.

(** The slider's [input] listener, with [val = Number(slider.value)]. *)
Definition slider_input (val : num) (m : t) : option t :=
  if (length (offsets m) =? 0)%nat then Some m
  else
    match fractionToPosition (offsets m) (slider_fraction (offsets m) val)
    with
    | Some y =>
        Some {| posY := y; autoScroll := false; userPaused := true;
                arrowSpeed := arrowSpeed m; offsets := offsets m;
                halfTrackHeight := halfTrackHeight m;
                style_transform := Some y |}
    | None => None
    end.

(** [animate], the frame callback of master.js; its wrap block is, word for
    word, the one of [TimelineCore._animate]. *)
Definition animate (m : t) : t :=
  let y0 := posY m in
  let y1 := if autoScroll m && (arrowSpeed m =? lit 0)
            then y0 - BASE_SPEED else y0 in
  let y2 := if negb (arrowSpeed m =? lit 0)
            then y1 + arrowSpeed m else y1 in
  let y3 := TimelineCore.wrap_once (halfTrackHeight m) y2 in
  {| posY := y3; autoScroll := autoScroll m; userPaused := userPaused m;
     arrowSpeed := arrowSpeed m; offsets := offsets m;
     halfTrackHeight := halfTrackHeight m;
     style_transform := Some y3 |}.

End WithNumbers.
Arguments t num : clear implicits.
End Master.

(* ================================================================= *)
(** ** Frames, and how bootstrap.js assembles the engine *)

Module Frames.
Section WithNumbers.
Context {num : Type} {JN : JsNumber num}.
Local Open Scope js_scope.

(** What can happen to a running engine between two paints: one frame
    (bootstrap.js binds the controls before it starts the core, so the
    arrow callback runs first, then [_animate]), or a change of the
    auto-scroll flag by a click or a timer. *)
Inductive event : Type :=
| Frame (arrow : num)
| SetAutoScroll (enabled : bool).

Definition frame (arrow : num) (c : TimelineCore.t num)
  : TimelineCore.t num :=
  TimelineCore._animate
    (Controls.tick {| Controls.arrowSpeed := arrow;
                      Controls.FAST_SPEED := lit 25 |} c).

Definition step (c : TimelineCore.t num) (ev : event)
  : TimelineCore.t num :=
  match ev with
  | Frame arrow => frame arrow c
  | SetAutoScroll b => TimelineCore.setAutoScroll b c
  end.

Definition run (evs : list event) (c : TimelineCore.t num)
  : TimelineCore.t num :=
  fold_left step evs c.

(** [n] consecutive executions of [_animate]. *)
Definition ticks (n : nat) (c : TimelineCore.t num) : TimelineCore.t num :=
  Nat.iter n TimelineCore._animate c.

(** bootstrap.js, steps 2 and 7, once step 1 has doubled the track and the
    browser has laid it out: [core.originalCount =
    duplicator.originalCount()], then [core.computeOffsetsNow()], then
    [core.start()]. *)
Definition bootstrap (tr : TrackElement num) : TimelineCore.t num :=
  let c := TimelineCore.constructor tr in
  let n := TrackDuplicator.originalCount (map card (cardElements tr)) in
  let c1 := {|
    TimelineCore.track := TimelineCore.track c;
    TimelineCore.posY := TimelineCore.posY c;
    TimelineCore.autoScroll := TimelineCore.autoScroll c;
    TimelineCore.BASE_SPEED := TimelineCore.BASE_SPEED c;
    TimelineCore.cards := TimelineCore.cards c;
    TimelineCore.offsets := TimelineCore.offsets c;
    TimelineCore.originalCount := n;
    TimelineCore.halfTrackHeight := TimelineCore.halfTrackHeight c;
    TimelineCore._running := TimelineCore._running c;
    TimelineCore.raf_pending := TimelineCore.raf_pending c |} in
  TimelineCore.start (TimelineCore.computeOffsetsNow c1).

End WithNumbers.
End Frames.

(** A track of four cards, doubled by the duplicator and laid out with the
    tops 0, 100, 250, 420 (and their copies one period of 420 px lower),
    840 px high. *)
Definition demo_cards : list Card :=
  [ {| id := "1066"; innerHTML := "a" |};
    {| id := "1215"; innerHTML := "b" |};
    {| id := "1707"; innerHTML := "c" |};
    {| id := "1928"; innerHTML := "d" |} ].

Definition demo_doubled : list Card :=
  match TrackDuplicator.track
          (TrackDuplicator.duplicate
             {| TrackDuplicator.track := Some demo_cards |}) with
  | Some all => all
  | None => []
  end.

Definition demo_track (num : Type) : TrackElement num := {|
  cardElements :=
    map (fun ct => {| card := fst ct; offsetTop := snd ct |})
        (combine demo_doubled [0; 100; 250; 420; 420; 520; 670; 840]%Z);
  scrollHeight := 840;
  style_transform := None
|}.

Definition demo_core (num : Type) {JN : JsNumber num} : TimelineCore.t num :=
  Frames.bootstrap (demo_track num).
Arguments demo_core num {JN}.

(** Two cards of 100 px, doubled, and an engine used as the header of
    TimelineCore.js shows ([new TimelineCore(...)] then [start()]), so that
    [originalCount] is still 0 and all four cards count as original. *)
Definition plain_track (num : Type) : TrackElement num := {|
  cardElements :=
    [ {| card := {| id := "1066"; innerHTML := "a" |}; offsetTop := 0 |};
      {| card := {| id := "1215"; innerHTML := "b" |}; offsetTop := 100 |};
      {| card := {| id := "1066"; innerHTML := "a" |}; offsetTop := 200 |};
      {| card := {| id := "1215"; innerHTML := "b" |}; offsetTop := 300 |} ];
  scrollHeight := 400;
  style_transform := None
|}.

Definition plain_core (num : Type) {JN : JsNumber num} : TimelineCore.t num :=
  TimelineCore.start (TimelineCore.constructor (plain_track num)).
Arguments plain_core num {JN}.

(** Two cards with the tops 0 and 250, doubled by the duplicator (the
    copies one period of 420 px lower), 840 px high. *)
Definition two_card_track (num : Type) : TrackElement num := {|
  cardElements :=
    [ {| card := {| id := "1066"; innerHTML := "a" |}; offsetTop := 0 |};
      {| card := {| id := "1215"; innerHTML := "b" |}; offsetTop := 250 |};
      {| card := {| id := "1066"; innerHTML := "a" |}; offsetTop := 420 |};
      {| card := {| id := "1215"; innerHTML := "b" |}; offsetTop := 670 |} ];
  scrollHeight := 840;
  style_transform := None
|}.

Definition two_card_core (num : Type) {JN : JsNumber num}
  : TimelineCore.t num :=
  Frames.bootstrap (two_card_track num).
Arguments two_card_core num {JN}.

(* ================================================================= *)
(** ** master.js: duplication of the track *)

Module MasterSetup.

(** The track's cards and the closure variables [originalCount] and
    [cards] that [safeDuplicateTrack] assigns. *)
Record t : Type := {
  track : list Card;
  originalCount : nat;
  cards : list Card
}.

(** The [maybeDup] loop: the ids of the two halves agree. *)
Definition maybeDup (all : list Card) (half : nat) : bool :=
  forallb (fun i => TrackDuplicator.same_id (nth_error all i)
                                             (nth_error all (i + half)))
          (seq 0 half).

(** [safeDuplicateTrack]. *)
Definition safeDuplicateTrack (s : t) : t :=
  let all := track s in
  if (length all =? 0)%nat then s
  else if ((length all mod 2 =? 0)%nat
           && maybeDup all (length all / 2))%bool then
    {| track := all;
       originalCount := (length all / 2)%nat;
       cards := firstn (length all / 2) all |}
  else
    {| track := all ++ map cloneNode all;
       originalCount := length all;
       cards := firstn (length all) (all ++ map cloneNode all) |}.

End MasterSetup.

(** The offsets a jump reaches without wrapping: all of them lie in
    [0, halfTrackHeight], or wrapping is disabled and they are not
    negative. *)
Definition offsets_within_period (c : TimelineCore.t Q) : Prop :=
  forall o : Q,
    In o (TimelineCore.offsets c) ->
    0 <= o /\ (0 < TimelineCore.halfTrackHeight c ->
               o <= TimelineCore.halfTrackHeight c).

(* ================================================================= *)
(** ** The host's animation frames *)

Module Browser.
Section WithNumbers.
Context {num : Type} {JN : JsNumber num}.

(** The browser takes the frame requests issued so far off its list. *)
Definition take_frame_requests (c : TimelineCore.t num)
  : TimelineCore.t num := {|
  TimelineCore.track := TimelineCore.track c;
  TimelineCore.posY := TimelineCore.posY c;
  TimelineCore.autoScroll := TimelineCore.autoScroll c;
  TimelineCore.BASE_SPEED := TimelineCore.BASE_SPEED c;
  TimelineCore.cards := TimelineCore.cards c;
  TimelineCore.offsets := TimelineCore.offsets c;
  TimelineCore.originalCount := TimelineCore.originalCount c;
  TimelineCore.halfTrackHeight := TimelineCore.halfTrackHeight c;
  TimelineCore._running := TimelineCore._running c;
  TimelineCore.raf_pending := 0
|}.

(** One paint, as [requestAnimationFrame] specifies it: each callback
    requested since the previous paint runs once, and what a callback
    requests is for the next paint.  Every request of the engine is for
    [_boundAnimate]; neither [stop] nor anything else in TimelineCore.js
    calls [cancelAnimationFrame]. *)
Definition paint (c : TimelineCore.t num) : TimelineCore.t num :=
  Nat.iter (TimelineCore.raf_pending c) TimelineCore._animate
           (take_frame_requests c).

End WithNumbers.
End Browser.

(* ================================================================= *)
(** ** master.js: the position a sidebar link asks for *)

Module MasterNav.
Section WithNumbers.
Context {num : Type} {JN : JsNumber num}.
Local Open Scope js_scope.

(** [while (desiredPos < -halfTrackHeight) desiredPos += halfTrackHeight],
    with a bound on the iterations ([None] when they do not suffice);
    unlike in [jumpToIndex] the period is not tested. *)
Fixpoint normalize_up (fuel : nat) (half v : num) : option num :=
  if v <? - half then
    match fuel with
    | O => None
    | S fuel' => normalize_up fuel' half (v + half)
    end
  else Some v.

(** [while (desiredPos > 0) desiredPos -= halfTrackHeight], likewise. *)
Fixpoint normalize_down (fuel : nat) (half v : num) : option num :=
  if lit 0 <? v then
    match fuel with
    | O => None
    | S fuel' => normalize_down fuel' half (v - half)
    end
  else Some v.

(** The [desiredPos] of the click handler of a sidebar link, for the card
    index [idx] it has found and [visibleTopOffset =
    Math.round(wrapRect.height * 0.05)]: [-offsets[idx] +
    visibleTopOffset], then the two loops.  The outer [None] is a loop that
    has not ended; [Some None] is the NaN of an [undefined] offset, which
    both loop tests reject. *)
Definition desiredPos (fuel : nat) (offsets : list num) (half : num)
           (idx : nat) (visibleTopOffset : Z) : option (option num) :=
  match nth_error offsets idx with
  | None => Some None
  | Some o =>
      match normalize_up fuel half (- o + lit visibleTopOffset) with
      | None => None
      | Some v1 =>
          match normalize_down fuel half v1 with
          | None => None
          | Some v2 => Some (Some v2)
          end
      end
  end.

End WithNumbers.
End MasterNav.

(* ================================================================= *)
(** ** yearmaster.js: escaping text for HTML *)

From Stdlib Require Import Ascii.

Module Yearmaster.

(** The double quote character. *)
Definition dquote : Ascii.ascii := "034"%char.

(** The five characters of the class the regular expression names:
    ampersand, less-than, greater-than, double quote, single quote. *)
Definition is_special (c : Ascii.ascii) : bool :=
  Ascii.eqb c "&" || Ascii.eqb c "<" || Ascii.eqb c ">"
  || Ascii.eqb c dquote || Ascii.eqb c "'".

(** The replacement callback: the table looked up at the matched
    character; every other character is left in place by [replace]. *)
Definition escapeChar (c : Ascii.ascii) : string :=
  if Ascii.eqb c "&" then "&amp;"%string
  else if Ascii.eqb c "<" then "&lt;"%string
  else if Ascii.eqb c ">" then "&gt;"%string
  else if Ascii.eqb c dquote then "&quot;"%string
  else if Ascii.eqb c "'" then "&#39;"%string
  else String c EmptyString.

(** [escapeHtml(s)]: the global [replace] of [String(s)], character by
    character.  A string is its sequence of code units; the five special
    characters are single units below 128 in every encoding in use. *)
Fixpoint escapeHtml (s : string) : string :=
  match s with
  | EmptyString => EmptyString
  | String c rest => (escapeChar c ++ escapeHtml rest)%string
  end.

End Yearmaster.

(* ================================================================= *)
(** ** master.js: the value written to the slider *)

Module MasterSync.
Section WithNumbers.
Context {num : Type} {JN : JsNumber num}.
Local Open Scope js_scope.

(** The value [syncSliderLoop] computes for the slider from the live
    position: [100 - (frac / (offsets.length - 1)) * 100] with [frac =
    fractionalIndexForPosY(posY)]. *)
Definition sliderValue (offsets : list num) (posY : num) : num :=
  lit 100
  - (Master.fractionalIndexForPosY offsets posY
     / lit (Z.of_nat (length offsets) - 1)) * lit 100.

End WithNumbers.
End MasterSync.





(* ================================================================= *)
(** ** master.js: releasing the slider *)

Module MasterRelease.
Section WithNumbers.
Context {num : Type} {JN : JsNumber num}.
Local Open Scope js_scope.

(** [newSliderValue = 100 - (nearest / (offsets.length - 1)) * 100]. *)
Definition newSliderValue (offsets : list num) (nearest : nat) : num :=
  lit 100
  - (lit (Z.of_nat nearest) / lit (Z.of_nat (length offsets) - 1)) * lit 100.

(** The slider's [change] listener.  The second component is the number
    assigned to [slider.value]; with an empty table the listener returns
    before touching anything. *)
Definition slider_change (m : Master.t num) (value : num)
  : option (Master.t num * num) :=
  if (length (Master.offsets m) =? 0)%nat then Some (m, value)
  else
    let nearest :=
      Master.nearestCardIndexForPosY (Master.offsets m) (Master.posY m) in
    match Master.posYForCardIndex (Master.offsets m) (Z.of_nat nearest) with
    | Some y =>
        Some ({| Master.posY := y;
                 Master.autoScroll := Master.autoScroll m;
                 Master.userPaused := Master.userPaused m;
                 Master.arrowSpeed := Master.arrowSpeed m;
                 Master.offsets := Master.offsets m;
                 Master.halfTrackHeight := Master.halfTrackHeight m;
                 Master.style_transform := Some y |},
              newSliderValue (Master.offsets m) nearest)
    | None => None
    end.

End WithNumbers.
End MasterRelease.

(* ================================================================= *)
(** ** Vocabulary of the statements *)

(** The half-open interval one period long. *)
Definition in_wrap_interval (half y : Q) : Prop := - half < y /\ y <= 0.

(** The same interval with its lower end. *)
Definition in_closed_period (half y : Q) : Prop := - half <= y /\ y <= 0.

(** The test of the wrap interval as the code would make it on binary64:
    [-half < y && y <= 0]. *)
Definition binary64_in_wrap_interval (half y : float) : bool :=
  PrimFloat.ltb (- half)%float y && PrimFloat.leb y 0%float.

(** What a statement may assume of a rounding: that it keeps the order,
    that it leaves a given number as it is, and that it changes no number
    by more than the fraction [u] of its magnitude. *)
Definition monotone_rounding (rnd : Q -> Q) : Prop :=
  forall x y : Q, x <= y -> rnd x <= rnd y.

Definition exact_at (rnd : Q -> Q) (x : Q) : Prop := rnd x == x.

Definition relative_error (rnd : Q -> Q) (u : Q) : Prop :=
  forall x : Q, Qabs (rnd x - x) <= u * Qabs x.

(** Iterations that suffice for either loop, from the value to normalise. *)
Definition jump_fuel (half v : Q) : nat :=
  Z.to_nat (Qceiling (Qabs v / half)).

(** The same run on binary64: what [k] ticks leave, checked against the
    exact product [-(0.75 * k)] and against the lower end of the period. *)
Definition binary64_tick_check (c : TimelineCore.t float) (k : nat) : bool :=
  let y := TimelineCore.posY (Frames.ticks k c) in
  PrimFloat.eqb y (- (0.75 * float_of_Z (Z.of_nat k)))%float
  && PrimFloat.ltb (-420)%float y.

(** The distance [nearestCardIndex] minimises: |abs(position) - offset[j]|. *)
Definition card_distance (pos : Q) (offs : list Q) (j : nat) : Q :=
  Qabs (Qabs pos - nth j offs 0).

(** How many leading cards [computeOffsetsNow] treats as original:
    [originalCount || all.length]. *)
Definition first_count (c : TimelineCore.t Q) : nat :=
  if (TimelineCore.originalCount c =? 0)%nat
  then length (cardElements (TimelineCore.track c))
  else TimelineCore.originalCount c.

(** Each offset is strictly below the next one. *)
Fixpoint strictly_increasing (offs : list Q) : Prop :=
  match offs with
  | a :: ((b :: _) as rest) => a < b /\ strictly_increasing rest
  | _ => True
  end.

(** The tolerance of the slider round trip for a unit roundoff [u]:
    [(2 n + 8) u (|offsets[0]| + offsets[last])] for [n] offsets. *)
Definition roundtrip_tolerance (u : Q) (offs : list Q) : Q :=
  (2 * inject_Z (Z.of_nat (length offs)) + 8) * u
  * (Qabs (hd 0 offs) + last offs 0).

(* ================================================================= *)
(** * Verification *)

(* ================================================================= *)
(** ** The duplicator *)

Section DuplicatorFacts.
Import TrackDuplicator.

Lemma same_id_clone (x : Card) :
  same_id (Some x) (Some (cloneNode x)) = true.
Proof. simpl. apply String.eqb_refl. Qed.

Lemma doubled_length (all : list Card) :
  length (all ++ map cloneNode all) = (length all * 2)%nat.
Proof. rewrite length_app, length_map. lia. Qed.

(** A track followed by its clones is recognised as doubled. *)
Lemma isAlreadyDuplicated_doubled (all : list Card) :
  all <> [] -> isAlreadyDuplicated (all ++ map cloneNode all) = true.
Proof.
  intros Hne. unfold isAlreadyDuplicated.
  rewrite doubled_length.
  assert (Hlen : (1 <= length all)%nat).
  { destruct all; [congruence | simpl; lia]. }
  destruct (Nat.ltb_spec (length all * 2) 2) as [Hlt | _]; [lia |].
  rewrite Nat.Div0.mod_mul. simpl negb.
  rewrite Nat.div_mul by lia.
  apply forallb_forall. intros i Hi.
  apply in_seq in Hi.
  rewrite nth_error_app1 by lia.
  rewrite nth_error_app2 by lia.
  replace (i + length all - length all)%nat with i by lia.
  rewrite nth_error_map.
  destruct (nth_error all i) as [x |] eqn:Hx.
  - apply same_id_clone.
  - apply nth_error_None in Hx. lia.
Qed.

Lemma duplicate_fixed (all : list Card) :
  isAlreadyDuplicated all = true ->
  duplicate {| track := Some all |} = {| track := Some all |}.
Proof.
  intros Hd. unfold duplicate. simpl.
  destruct (length all =? 0)%nat; [reflexivity |].
  now rewrite Hd.
Qed.

Lemma duplicate_cases (all : list Card) :
  all <> [] ->
  (isAlreadyDuplicated all = true /\
   duplicate {| track := Some all |} = {| track := Some all |})
  \/
  (isAlreadyDuplicated all = false /\
   duplicate {| track := Some all |}
     = {| track := Some (all ++ map cloneNode all) |}).
Proof.
  intros Hne. unfold duplicate. simpl.
  destruct all as [| c rest]; [congruence |].
  simpl (length (c :: rest) =? 0)%nat.
  destruct (isAlreadyDuplicated (c :: rest)); auto.
Qed.

End DuplicatorFacts.

(** C3. For every non-empty card sequence [S], duplicating twice gives the
    same track as duplicating once, and the duplicated track is recognised
    as duplicated; a single card is not considered duplicated, is doubled
    to two cards, and the pair is then recognised. *)
Theorem duplicate_idempotent (S : list Card) :
  S <> [] ->
  let d := {| TrackDuplicator.track := Some S |} in
  TrackDuplicator.duplicate (TrackDuplicator.duplicate d)
    = TrackDuplicator.duplicate d
  /\ (exists S',
        TrackDuplicator.track (TrackDuplicator.duplicate d) = Some S'
        /\ TrackDuplicator.isAlreadyDuplicated S' = true)
  /\ (forall c : Card,
        S = [c] ->
        TrackDuplicator.isAlreadyDuplicated S = false
        /\ TrackDuplicator.duplicate d
             = {| TrackDuplicator.track := Some [c; cloneNode c] |}
        /\ TrackDuplicator.isAlreadyDuplicated [c; cloneNode c] = true).
Proof.
  intros Hne d. subst d.
  destruct (duplicate_cases Hne) as [[Hd He] | [Hd He]].
  - rewrite He. split; [| split].
    + apply duplicate_fixed, Hd.
    + exists S. auto.
    + intros c ->. cbv in Hd. discriminate Hd.
  - rewrite He.
    assert (Hdd := isAlreadyDuplicated_doubled Hne).
    split; [| split].
    + apply duplicate_fixed, Hdd.
    + eexists. split; [reflexivity | exact Hdd].
    + intros c ->. split; [exact Hd | split; [reflexivity | exact Hdd]].
Qed.

Lemma duplicate_idempotent_witness :
  let d := {| TrackDuplicator.track := Some demo_cards |} in
  TrackDuplicator.duplicate (TrackDuplicator.duplicate d)
    = TrackDuplicator.duplicate d.
Proof.
  refine (proj1 (@duplicate_idempotent demo_cards _)).
  discriminate.
Defined.

(* ================================================================= *)
(** ** Facts that hold on every carrier of numbers *)

Section EngineFacts.
Context {num : Type} {JN : JsNumber num}.
Import TimelineCore.

Lemma clamp_index_range (len : nat) (idx : Z) :
  (0 < len)%nat ->
  (0 <= clamp_index len idx <= Z.of_nat len - 1)%Z.
Proof. unfold clamp_index. lia. Qed.

Lemma clamp_index_inside (len : nat) (idx : Z) :
  (0 <= idx <= Z.of_nat len - 1)%Z -> clamp_index len idx = idx.
Proof. unfold clamp_index. lia. Qed.

Lemma clamp_index_below (len : nat) (idx : Z) :
  (0 < len)%nat -> (idx < 0)%Z -> clamp_index len idx = 0%Z.
Proof. unfold clamp_index. lia. Qed.

Lemma clamp_index_above (len : nat) (idx : Z) :
  (0 < len)%nat -> (Z.of_nat len - 1 < idx)%Z ->
  clamp_index len idx = (Z.of_nat len - 1)%Z.
Proof. unfold clamp_index. lia. Qed.

Lemma clamp_index_idem (len : nat) (idx : Z) :
  clamp_index len (clamp_index len idx) = clamp_index len idx.
Proof. unfold clamp_index. lia. Qed.

Lemma array_get_in_range {A : Type} (xs : list A) (i : Z) :
  (0 <= i < Z.of_nat (length xs))%Z ->
  exists x, array_get xs i = Some x.
Proof.
  intros Hi. unfold array_get.
  destruct (Z.ltb_spec i 0) as [Hneg | _]; [lia |].
  destruct (nth_error xs (Z.to_nat i)) as [x |] eqn:Hx; [eauto |].
  apply nth_error_None in Hx. lia.
Qed.

Lemma array_get_clamped (xs : list num) (idx : Z) :
  xs <> [] ->
  exists x, array_get xs (clamp_index (length xs) idx) = Some x.
Proof.
  intros Hne. apply array_get_in_range.
  assert (0 < length xs)%nat by (destruct xs; [congruence | simpl; lia]).
  pose proof (clamp_index_range idx H). lia.
Qed.

Lemma length_eqb_nonempty {A : Type} (xs : list A) :
  xs <> [] -> (length xs =? 0)%nat = false.
Proof. destruct xs; [congruence | reflexivity]. Qed.

(** A stopped engine ignores the frame callback. *)
Lemma animate_stopped (c : t num) : _running c = false -> _animate c = c.
Proof. intros Hr. unfold _animate. now rewrite Hr. Qed.

Lemma animate_keeps_tables (c : t num) :
  offsets (_animate c) = offsets c
  /\ halfTrackHeight (_animate c) = halfTrackHeight c
  /\ BASE_SPEED (_animate c) = BASE_SPEED c
  /\ _running (_animate c) = _running c
  /\ autoScroll (_animate c) = autoScroll c.
Proof. unfold _animate. destruct (_running c) eqn:Hr; simpl; auto. Qed.

(** The position a jump writes is a function of the offsets table and of
    the wrap period alone. *)
Lemma jumpToIndex_reads_tables (fuel : nat) (idx : Z) (c1 c2 : t num) :
  offsets c1 = offsets c2 ->
  halfTrackHeight c1 = halfTrackHeight c2 ->
  offsets c1 <> [] ->
  option_map (@posY num) (jumpToIndex fuel idx c1)
    = option_map (@posY num) (jumpToIndex fuel idx c2).
Proof.
  intros Ho Hh Hne. unfold jumpToIndex.
  rewrite <- Ho, <- Hh. rewrite (length_eqb_nonempty Hne).
  destruct (array_get _ _) as [o |]; [| reflexivity].
  destruct (normalize_up _ _ _) as [v1 |]; [| reflexivity].
  destruct (normalize_down _ _ _) as [v2 |]; reflexivity.
Qed.

(** A jump that returns has written its position on the track. *)
Lemma jumpToIndex_applies_transform (fuel : nat) (idx : Z) (c c' : t num) :
  offsets c <> [] ->
  jumpToIndex fuel idx c = Some c' ->
  style_transform (track c') = Some (posY c').
Proof.
  intros Hne. unfold jumpToIndex. rewrite (length_eqb_nonempty Hne).
  destruct (array_get _ _) as [o |]; [| discriminate].
  destruct (normalize_up _ _ _) as [v1 |]; [| discriminate].
  destruct (normalize_down _ _ _) as [v2 |]; [| discriminate].
  intros [= <-]. reflexivity.
Qed.

Lemma jumpToIndex_clamps (fuel : nat) (idx : Z) (c : t num) :
  jumpToIndex fuel idx c
    = jumpToIndex fuel (clamp_index (length (offsets c)) idx) c.
Proof. unfold jumpToIndex. now rewrite clamp_index_idem. Qed.

Lemma posYForIndex_clamps (idx : Z) (c : t num) :
  posYForIndex idx c
    = posYForIndex (clamp_index (length (offsets c)) idx) c.
Proof. unfold posYForIndex. now rewrite clamp_index_idem. Qed.

End EngineFacts.

(** C10. In the Stopped state the frame callback changes nothing: position,
    flags, tables, the transform written on the track and the count of
    scheduled frames are all as before; in particular this is so for the
    frame that is still queued when [stop] is called. *)
Theorem animate_noop_when_stopped :
  forall (num : Type) (JN : JsNumber num) (c : TimelineCore.t num),
    (TimelineCore._running c = false -> TimelineCore._animate c = c)
    /\ TimelineCore._animate (TimelineCore.stop c) = TimelineCore.stop c.
Proof.
  intros num JN c. split.
  - apply animate_stopped.
  - apply animate_stopped. reflexivity.
Qed.

Lemma animate_noop_when_stopped_witness :
  TimelineCore._animate (TimelineCore.constructor (demo_track Q))
    = TimelineCore.constructor (demo_track Q).
Proof.
  apply (proj1 (@animate_noop_when_stopped Q Q_JsNumber
                  (TimelineCore.constructor (demo_track Q)))).
  reflexivity.
Defined.

(* ================================================================= *)
(** ** Exact arithmetic: the comparisons of the [Q] carrier *)

Lemma Q_ltb_spec (x y : Q) : reflect (x < y) (@nltb Q _ x y).
Proof.
  simpl. destruct (Qle_bool y x) eqn:E; simpl; constructor.
  - apply Qle_bool_iff in E. lra.
  - destruct (Qlt_le_dec x y) as [Hxy | Hyx]; [exact Hxy |].
    apply Qle_bool_iff in Hyx. congruence.
Qed.

Lemma Q_leb_spec (x y : Q) : reflect (x <= y) (@nleb Q _ x y).
Proof.
  simpl. destruct (Qle_bool x y) eqn:E; constructor.
  - now apply Qle_bool_iff.
  - intros Hle. apply Qle_bool_iff in Hle. congruence.
Qed.

Lemma Q_eqb_spec (x y : Q) : reflect (x == y) (@neqb Q _ x y).
Proof.
  simpl. destruct (Qeq_bool x y) eqn:E; constructor.
  - now apply Qeq_bool_iff.
  - intros He. apply Qeq_bool_iff in He. congruence.
Qed.

(** Unfolds the number operations of the [Q] carrier. *)
Ltac q_ops :=
  cbn [nadd nsub nmul ndiv nopp nabs num_of_Z nfloor nlt_infinity
       Q_JsNumber] in *.

(** The wrap brings every position of (-2 half, half) into the interval. *)
Lemma wrap_once_interval (half y : Q) :
  0 < half -> - half - half < y -> y < half ->
  in_wrap_interval half (TimelineCore.wrap_once half y).
Proof.
  intros Hh Hlo Hhi. unfold TimelineCore.wrap_once, in_wrap_interval.
  destruct (Q_ltb_spec (num_of_Z 0) half) as [_ | Hn];
    [| q_ops; change (inject_Z 0) with 0 in Hn; lra].
  destruct (Q_leb_spec y (nopp half)) as [Hle | Hgt].
  - destruct (Q_ltb_spec (num_of_Z 0) (nadd y half)) as [Hp | Hnp];
      q_ops; change (inject_Z 0) with 0 in *; lra.
  - destruct (Q_ltb_spec (num_of_Z 0) y) as [Hp | Hnp];
      q_ops; change (inject_Z 0) with 0 in *; lra.
Qed.

Lemma wrap_once_disabled (half y : Q) :
  ~ 0 < half -> TimelineCore.wrap_once half y = y.
Proof.
  intros Hh. unfold TimelineCore.wrap_once.
  destruct (Q_ltb_spec (num_of_Z 0) half) as [Hp | _]; [| reflexivity].
  q_ops. change (inject_Z 0) with 0 in Hp. contradiction.
Qed.

(* ================================================================= *)
(** ** The wrap invariant of the tick *)

Lemma Qabs_bounds (x b : Q) : Qabs x < b -> - b < x /\ x < b.
Proof. intros H. apply Qabs_Qlt_condition in H. exact H. Qed.

Lemma animate_interval (c : TimelineCore.t Q) :
  let half := TimelineCore.halfTrackHeight c in
  0 < half ->
  in_wrap_interval half (TimelineCore.posY c) ->
  Qabs (TimelineCore.BASE_SPEED c) < half ->
  in_wrap_interval half (TimelineCore.posY (TimelineCore._animate c)).
Proof.
  intros half Hh [Hlo Hhi] Hb. apply Qabs_bounds in Hb. destruct Hb.
  unfold TimelineCore._animate.
  destruct (TimelineCore._running c); [| split; assumption].
  simpl. fold half.
  apply wrap_once_interval; [assumption | |];
    destruct (TimelineCore.autoScroll c); q_ops; lra.
Qed.

Lemma frame_interval (arrow : Q) (c : TimelineCore.t Q) :
  let half := TimelineCore.halfTrackHeight c in
  0 < half ->
  in_wrap_interval half (TimelineCore.posY c) ->
  Qabs (TimelineCore.BASE_SPEED c) < half ->
  TimelineCore._running c = true ->
  Qabs arrow < half ->
  in_wrap_interval half (TimelineCore.posY (Frames.frame arrow c)).
Proof.
  intros half Hh Hin Hb Hr Ha.
  unfold Frames.frame, Controls.tick. simpl Controls.arrowSpeed.
  destruct (Q_eqb_spec arrow (num_of_Z 0)) as [Hz | Hnz]; simpl negb; cbv iota.
  - apply animate_interval; assumption.
  - destruct Hin as [Hlo Hhi]. apply Qabs_bounds in Ha. destruct Ha.
    unfold TimelineCore._animate. simpl. rewrite Hr. simpl. fold half.
    apply wrap_once_interval; [assumption | |]; q_ops; lra.
Qed.

Lemma frame_keeps (arrow : Q) (c : TimelineCore.t Q) :
  TimelineCore.halfTrackHeight (Frames.frame arrow c)
    = TimelineCore.halfTrackHeight c
  /\ TimelineCore.BASE_SPEED (Frames.frame arrow c)
     = TimelineCore.BASE_SPEED c
  /\ TimelineCore._running (Frames.frame arrow c) = TimelineCore._running c.
Proof.
  unfold Frames.frame.
  destruct (animate_keeps_tables
              (Controls.tick {| Controls.arrowSpeed := arrow;
                                Controls.FAST_SPEED := num_of_Z 25 |} c))
    as (_ & Hh & Hb & Hr & _).
  rewrite Hh, Hb, Hr. unfold Controls.tick.
  destruct (negb _); simpl; auto.
Qed.

Lemma run_interval (evs : list (@Frames.event Q)) :
  forall c : TimelineCore.t Q,
    let half := TimelineCore.halfTrackHeight c in
    0 < half ->
    in_wrap_interval half (TimelineCore.posY c) ->
    Qabs (TimelineCore.BASE_SPEED c) < half ->
    TimelineCore._running c = true ->
    (forall a, In (Frames.Frame a) evs -> Qabs a < half) ->
    in_wrap_interval half (TimelineCore.posY (Frames.run evs c)).
Proof.
  induction evs as [| ev evs IH]; intros c half Hh Hin Hb Hr Hevs.
  - exact Hin.
  - unfold Frames.run. simpl fold_left.
    change (fold_left Frames.step evs (Frames.step c ev))
      with (Frames.run evs (Frames.step c ev)).
    destruct ev as [arrow | b].
    + simpl Frames.step.
      destruct (frame_keeps arrow c) as (Hh' & Hb' & Hr').
      assert (Ha : Qabs arrow < half) by (apply Hevs; left; reflexivity).
      pose proof (@frame_interval arrow c Hh Hin Hb Hr Ha) as Hin'.
      subst half. rewrite <- Hh'. rewrite <- Hh' in Hin', Hh, Hb, Hevs.
      rewrite <- Hb' in Hb. rewrite <- Hr' in Hr.
      apply IH; try assumption.
      intros a Hina. apply Hevs. right. exact Hina.
    + simpl Frames.step.
      apply (IH (TimelineCore.setAutoScroll b c)); try assumption.
      intros a Hina. apply Hevs. right. exact Hina.
Qed.

(** C1, where the code loses it.  The wrap rule is right on exact numbers
    and the code means the half-open interval (its first test is
    [posY <= -halfTrackHeight]), but [posY -= halfTrackHeight] is a
    binary64 subtraction.  On the doubled two-card track (offsets 0 and
    250, period 420) the slider at 90 writes the position
    -25 + 2^-47; one frame with the up arrow held (delta 25, below
    the period) first gives 2^-47, which is above 0, and then
    2^-47 - 420, which binary64 rounds to -420: the position the frame
    writes on the track is the excluded end of the interval, and the next
    frame moves it by a whole period to 0.  On exact numbers the same frame
    from the same position stays inside the interval. *)
Theorem wrap_invariant_lost_to_rounding :
  let c0 := two_card_core float in
  exists c1 : TimelineCore.t float,
    SliderController._onInput 90%float c0 = Some c1
    /\ TimelineCore.offsets c1 = [0%float; 250%float]
    /\ TimelineCore.halfTrackHeight c1 = 420%float
    /\ TimelineCore._running c1 = true
    /\ TimelineCore.posY c1 = (-25 + 0x1p-47)%float
    /\ binary64_in_wrap_interval 420 (TimelineCore.posY c1) = true
    /\ PrimFloat.ltb (PrimFloat.abs 25) 420 = true
    /\ PrimFloat.ltb (PrimFloat.abs (TimelineCore.BASE_SPEED c1)) 420 = true
    /\ TimelineCore.posY (Frames.frame 25%float c1) = (-420)%float
    /\ binary64_in_wrap_interval 420
         (TimelineCore.posY (Frames.frame 25%float c1)) = false
    /\ style_transform (TimelineCore.track (Frames.frame 25%float c1))
       = Some (-420)%float
    /\ TimelineCore.posY
         (Frames.frame 0%float (Frames.frame 25%float c1)) = 0%float
    /\ in_wrap_interval 420
         (TimelineCore.posY
            (Frames.frame 25
               (TimelineCore.set_posY (- (25) + (1 # 2 ^ 47))
                                      (two_card_core Q)))).
Proof.
  cbv zeta. eexists. split; [vm_compute; reflexivity |].
  repeat (split; [vm_compute; reflexivity |]).
  vm_compute. discriminate.
Qed.

Lemma computeOffsetsNow_keeps (c : TimelineCore.t Q) :
  TimelineCore.posY (TimelineCore.computeOffsetsNow c) = TimelineCore.posY c
  /\ TimelineCore.BASE_SPEED (TimelineCore.computeOffsetsNow c)
     = TimelineCore.BASE_SPEED c
  /\ TimelineCore._running (TimelineCore.computeOffsetsNow c)
     = TimelineCore._running c
  /\ TimelineCore.halfTrackHeight (TimelineCore.computeOffsetsNow c)
     = inject_Z (Math_round_half (scrollHeight (TimelineCore.track c))).
Proof.
  unfold TimelineCore.computeOffsetsNow.
  destruct (length (cardElements (TimelineCore.track c)) =? 0)%nat;
    simpl; auto.
Qed.

(** The engine as [start] leaves it satisfies the hypotheses of the
    invariant: the position is 0 and the period, a rounded integer, is at
    least 1 when it is positive, hence above the base speed 0.75. *)
Lemma started_engine_stays_wrapped (tr : TrackElement Q)
      (evs : list (@Frames.event Q)) :
  let c := TimelineCore.start (TimelineCore.constructor tr) in
  let half := TimelineCore.halfTrackHeight c in
  0 < half ->
  (forall a, In (Frames.Frame a) evs -> Qabs a < half) ->
  in_wrap_interval half (TimelineCore.posY (Frames.run evs c)).
Proof.
  intros c half Hh Hevs.
  assert (Hc : TimelineCore.posY c = inject_Z 0
               /\ TimelineCore.BASE_SPEED c = inject_Z 3 / inject_Z 4
               /\ TimelineCore._running c = true
               /\ half = inject_Z (Math_round_half (scrollHeight tr))).
  { subst half c. unfold TimelineCore.start.
    cbn [TimelineCore._running TimelineCore.constructor].
    cbn [TimelineCore.posY TimelineCore.BASE_SPEED TimelineCore._running
         TimelineCore.halfTrackHeight TimelineCore.requestAnimationFrame
         TimelineCore._applyTransform TimelineCore.set_track].
    destruct (computeOffsetsNow_keeps
                (TimelineCore.set_running true (TimelineCore.constructor tr)))
      as (Hp & Hb & Hr & Hhalf).
    rewrite Hp, Hb, Hr, Hhalf. simpl. auto. }
  destruct Hc as (Hp & Hb & Hr & Hhalf).
  assert (Hone : 1 <= half).
  { rewrite Hhalf in Hh |- *. change 0 with (inject_Z 0) in Hh.
    rewrite <- Zlt_Qlt in Hh. change 1 with (inject_Z 1).
    rewrite <- Zle_Qle. lia. }
  apply run_interval; fold half; try assumption.
  - rewrite Hp. split; change (inject_Z 0) with 0; lra.
  - rewrite Hb. change (Qabs (inject_Z 3 / inject_Z 4)) with (3 # 4). lra.
Qed.

(* ================================================================= *)
(** ** The two normalisation loops of [jumpToIndex] *)

Lemma inject_nat_succ (n : nat) :
  inject_Z (Z.of_nat (S n)) == inject_Z (Z.of_nat n) + 1.
Proof.
  rewrite Nat2Z.inj_succ. unfold Z.succ. rewrite inject_Z_plus.
  reflexivity.
Qed.

Lemma jump_fuel_enough (half v : Q) (fuel : nat) :
  0 < half -> (jump_fuel half v <= fuel)%nat ->
  Qabs v <= inject_Z (Z.of_nat fuel) * half.
Proof.
  intros Hh Hf. unfold jump_fuel in Hf.
  assert (Hc : Qabs v / half <= inject_Z (Z.of_nat fuel)).
  { eapply Qle_trans; [apply Qle_ceiling |].
    rewrite <- Zle_Qle. lia. }
  apply (Qmult_le_compat_r _ _ half) in Hc; [| lra].
  assert (He : Qabs v / half * half == Qabs v) by (field; lra).
  rewrite He in Hc. exact Hc.
Qed.

Lemma normalize_up_disabled (fuel : nat) (half v : Q) :
  ~ 0 < half -> TimelineCore.normalize_up fuel half v = Some v.
Proof.
  intros Hh.
  destruct fuel; simpl;
    (destruct (Qle_bool half (inject_Z 0)) eqn:E; [reflexivity |]);
    exfalso; apply Hh;
    destruct (Qlt_le_dec 0 half) as [Hp | Hn]; try exact Hp;
    apply Qle_bool_iff in Hn; change (inject_Z 0) with 0 in E; congruence.
Qed.

Lemma normalize_down_disabled (fuel : nat) (half v : Q) :
  ~ 0 < half -> TimelineCore.normalize_down fuel half v = Some v.
Proof.
  intros Hh.
  destruct fuel; simpl;
    (destruct (Qle_bool half (inject_Z 0)) eqn:E; [reflexivity |]);
    exfalso; apply Hh;
    destruct (Qlt_le_dec 0 half) as [Hp | Hn]; try exact Hp;
    apply Qle_bool_iff in Hn; change (inject_Z 0) with 0 in E; congruence.
Qed.

Lemma normalize_up_unfold (fuel : nat) (half v : Q) :
  TimelineCore.normalize_up fuel half v
  = if (nltb (num_of_Z 0) half && nltb v (nopp half))%bool then
      match fuel with
      | O => None
      | S fuel' => TimelineCore.normalize_up fuel' half (nadd v half)
      end
    else Some v.
Proof. destruct fuel; reflexivity. Qed.

Lemma normalize_down_unfold (fuel : nat) (half v : Q) :
  TimelineCore.normalize_down fuel half v
  = if (nltb (num_of_Z 0) half && nltb (num_of_Z 0) v)%bool then
      match fuel with
      | O => None
      | S fuel' => TimelineCore.normalize_down fuel' half (nsub v half)
      end
    else Some v.
Proof. destruct fuel; reflexivity. Qed.

(** The first loop ends within [fuel] iterations when [fuel] periods lift
    the value to [-half] or above; it stops at the first value that is not
    below [-half], so it can stop on [-half] itself. *)
Lemma normalize_up_spec (half : Q) :
  0 < half ->
  forall (fuel : nat) (v : Q),
    - half <= v + inject_Z (Z.of_nat fuel) * half ->
    exists w,
      TimelineCore.normalize_up fuel half v = Some w
      /\ - half <= w
      /\ (v < - half -> w < 0)
      /\ (- half <= v -> w = v)
      /\ (exists k : Z, w == v + inject_Z k * half).
Proof.
  intros Hh. induction fuel as [| fuel IH]; intros v Hb;
    rewrite normalize_up_unfold;
    destruct (Q_ltb_spec (num_of_Z 0) half) as [_ | Hn];
    try (exfalso; apply Hn; exact Hh);
    destruct (Q_ltb_spec v (nopp half)) as [Hlt | Hge];
    cbn [andb]; q_ops.
  - exfalso. change (inject_Z (Z.of_nat 0)) with 0 in Hb. lra.
  - exists v. repeat split; try lra.
    exists 0%Z. change (inject_Z 0) with 0. lra.
  - rewrite inject_nat_succ in Hb.
    destruct (IH (v + half)) as (w & Hw & Hlo & Hneg & Hsame & (k & Hk)).
    { lra. }
    exists w. split; [exact Hw |]. split; [exact Hlo |].
    split; [| split].
    + intros _. destruct (Qlt_le_dec (v + half) (- half)) as [Hl | Hg].
      * apply Hneg, Hl.
      * rewrite (Hsame Hg). lra.
    + intros Hc. lra.
    + exists (k + 1)%Z. rewrite inject_Z_plus. rewrite Hk.
      change (inject_Z 1) with 1. ring.
  - exists v. repeat split; try lra.
    exists 0%Z. change (inject_Z 0) with 0. lra.
Qed.

(** The second loop, likewise; it always ends strictly above [-half]. *)
Lemma normalize_down_spec (half : Q) :
  0 < half ->
  forall (fuel : nat) (v : Q),
    v - inject_Z (Z.of_nat fuel) * half <= 0 ->
    exists w,
      TimelineCore.normalize_down fuel half v = Some w
      /\ w <= 0
      /\ (0 < v -> - half < w)
      /\ (v <= 0 -> w = v)
      /\ (exists k : Z, w == v + inject_Z k * half).
Proof.
  intros Hh. induction fuel as [| fuel IH]; intros v Hb;
    rewrite normalize_down_unfold;
    destruct (Q_ltb_spec (num_of_Z 0) half) as [_ | Hn];
    try (exfalso; apply Hn; exact Hh);
    destruct (Q_ltb_spec (num_of_Z 0) v) as [Hlt | Hge];
    cbn [andb]; q_ops; change (inject_Z 0) with 0 in *.
  - exfalso. change (inject_Z (Z.of_nat 0)) with 0 in Hb. lra.
  - exists v. repeat split; try lra.
    exists 0%Z. change (inject_Z 0) with 0. lra.
  - rewrite inject_nat_succ in Hb.
    destruct (IH (v - half)) as (w & Hw & Hhi & Hpos & Hsame & (k & Hk)).
    { lra. }
    exists w. split; [exact Hw |]. split; [exact Hhi |].
    split; [| split].
    + intros _. destruct (Qlt_le_dec 0 (v - half)) as [Hl | Hg].
      * apply Hpos, Hl.
      * rewrite (Hsame Hg). lra.
    + intros Hc. lra.
    + exists (k - 1)%Z. unfold Z.sub. rewrite inject_Z_plus. rewrite Hk.
      change (inject_Z (- (1))) with (- (1)). ring.
  - exists v. repeat split; try lra.
    exists 0%Z. change (inject_Z 0) with 0. lra.
Qed.

Lemma Qabs_both (x : Q) : x <= Qabs x /\ - x <= Qabs x.
Proof.
  split; [apply Qle_Qabs |].
  rewrite <- (Qabs_opp x). apply Qle_Qabs.
Qed.

(** What a jump does on exact numbers when wrapping is enabled: it ends,
    and lands on the representative of [-offset] modulo the period that the
    two loops select in the closed interval [-half, 0]. *)
Lemma jumpToIndex_spec (c : TimelineCore.t Q) (idx : Z) (o : Q) (fuel : nat) :
  let half := TimelineCore.halfTrackHeight c in
  TimelineCore.offsets c <> [] ->
  0 < half ->
  array_get (TimelineCore.offsets c)
            (clamp_index (length (TimelineCore.offsets c)) idx) = Some o ->
  (jump_fuel half (- o) <= fuel)%nat ->
  exists c',
    TimelineCore.jumpToIndex fuel idx c = Some c'
    /\ - half <= TimelineCore.posY c' /\ TimelineCore.posY c' <= 0
    /\ (exists k : Z, TimelineCore.posY c' == - o + inject_Z k * half)
    /\ (- half <= - o -> - o <= 0 -> TimelineCore.posY c' = - o)
    /\ style_transform (TimelineCore.track c') = Some (TimelineCore.posY c')
    /\ TimelineCore.offsets c' = TimelineCore.offsets c
    /\ TimelineCore.halfTrackHeight c' = half.
Proof.
  intros half Hne Hh Ho Hf.
  pose proof (jump_fuel_enough (- o) Hh Hf) as Hfuel.
  destruct (Qabs_both (- o)) as [Hp Hm].
  assert (Hnn : 0 <= inject_Z (Z.of_nat fuel) * half).
  { apply Qmult_le_0_compat; [| lra].
    change 0 with (inject_Z 0). rewrite <- Zle_Qle. lia. }
  destruct (@normalize_up_spec half Hh fuel (- o))
    as (w1 & Hw1 & Hlo1 & Hneg1 & Hsame1 & (k1 & Hk1)); [lra |].
  destruct (@normalize_down_spec half Hh fuel w1)
    as (w2 & Hw2 & Hhi2 & Hpos2 & Hsame2 & (k2 & Hk2)).
  { destruct (Qlt_le_dec (- o) (- half)) as [Hl | Hg].
    - specialize (Hneg1 Hl). lra.
    - rewrite (Hsame1 Hg). lra. }
  unfold TimelineCore.jumpToIndex.
  rewrite (length_eqb_nonempty Hne), Ho. fold half. q_ops.
  rewrite Hw1, Hw2. eexists. split; [reflexivity |]. simpl.
  split; [| split; [exact Hhi2 | split; [| split]]].
  - destruct (Qlt_le_dec 0 w1) as [Hl | Hg].
    + specialize (Hpos2 Hl). lra.
    + rewrite (Hsame2 Hg). exact Hlo1.
  - exists (k1 + k2)%Z. rewrite Hk2, Hk1, inject_Z_plus. ring.
  - intros Ha Hb. rewrite Hsame2; rewrite (Hsame1 Ha); [reflexivity | exact Hb].
  - auto.
Qed.

(** On exact numbers a jump always returns, given enough iterations. *)
Lemma jumpToIndex_terminates (c : TimelineCore.t Q) (idx : Z) :
  exists fuel0 : nat,
    forall fuel : nat, (fuel0 <= fuel)%nat ->
      exists c', TimelineCore.jumpToIndex fuel idx c = Some c'.
Proof.
  destruct (TimelineCore.offsets c) as [| o0 rest] eqn:Hoffs.
  - exists 0%nat. intros fuel _. exists c.
    unfold TimelineCore.jumpToIndex. now rewrite Hoffs.
  - assert (Hne : TimelineCore.offsets c <> [])
      by (rewrite Hoffs; discriminate).
    destruct (array_get_clamped idx Hne) as [o Ho].
    destruct (Qlt_le_dec 0 (TimelineCore.halfTrackHeight c)) as [Hh | Hh].
    + exists (jump_fuel (TimelineCore.halfTrackHeight c) (- o)).
      intros fuel Hf.
      destruct (@jumpToIndex_spec c idx o fuel Hne Hh Ho Hf) as (c' & Hc' & _).
      exists c'. exact Hc'.
    + exists 0%nat. intros fuel _.
      unfold TimelineCore.jumpToIndex.
      rewrite (length_eqb_nonempty Hne), Ho.
      rewrite normalize_up_disabled by lra.
      rewrite normalize_down_disabled by lra.
      eexists. reflexivity.
Qed.

(** A jump on a non-empty table returns, for every index: it reads the
    offset of the clamped index and lands a whole number of periods from
    its opposite. *)
Lemma jumpToIndex_lands (c : TimelineCore.t Q) (idx : Z) :
  TimelineCore.offsets c <> [] ->
  let half := TimelineCore.halfTrackHeight c in
  exists (o : Q) (fuel0 : nat),
    array_get (TimelineCore.offsets c)
              (clamp_index (length (TimelineCore.offsets c)) idx) = Some o
    /\ forall fuel : nat, (fuel0 <= fuel)%nat ->
         exists c',
           TimelineCore.jumpToIndex fuel idx c = Some c'
           /\ style_transform (TimelineCore.track c')
              = Some (TimelineCore.posY c')
           /\ TimelineCore.offsets c' = TimelineCore.offsets c
           /\ (exists k : Z,
                  TimelineCore.posY c' == - o + inject_Z k * half)
           /\ (0 < half ->
               - half <= TimelineCore.posY c' /\ TimelineCore.posY c' <= 0)
           /\ (~ 0 < half -> TimelineCore.posY c' = - o).
Proof.
  intros Hne half.
  destruct (array_get_clamped idx Hne) as [o Ho].
  exists o.
  destruct (Qlt_le_dec 0 half) as [Hh | Hh].
  - exists (jump_fuel half (- o)). split; [exact Ho |].
    intros fuel Hf.
    destruct (@jumpToIndex_spec c idx o fuel Hne Hh Ho Hf)
      as (c' & Hc' & Hlo & Hhi & Hk & _ & Htr & Hoffs & _).
    exists c'. split; [exact Hc' |]. split; [exact Htr |].
    split; [exact Hoffs |]. split; [exact Hk |].
    split; [intros _; split; assumption | intros Hn; contradiction].
  - exists 0%nat. split; [exact Ho |]. intros fuel _.
    unfold TimelineCore.jumpToIndex.
    rewrite (length_eqb_nonempty Hne), Ho. fold half.
    rewrite normalize_up_disabled by lra.
    rewrite normalize_down_disabled by lra.
    eexists. split; [reflexivity |].
    cbn [TimelineCore.posY TimelineCore.offsets TimelineCore.track
         TimelineCore._applyTransform TimelineCore.set_track
         TimelineCore.set_posY style_transform].
    split; [reflexivity |]. split; [reflexivity |].
    split; [exists 0%Z; q_ops; change (inject_Z 0) with 0; ring |].
    split; [intros Hp; lra | intros _; reflexivity].
Qed.

(** C8. With an empty offsets table every operation is neutral:
    [nearestCardIndex] is 0, [posYForIndex] is 0 and [jumpToIndex] leaves
    the engine as it is, for every argument; [computeOffsetsNow] on a track
    without cards yields the empty table.  On a non-empty table an index
    outside [0, length - 1] is clamped into that range: the element read
    exists (nothing is [undefined]), it is the first one for a negative
    index and the last one for an index past the end; [posYForIndex]
    returns its opposite, and [jumpToIndex] returns as well (its loops
    end): it writes on the track a position a whole number of periods from
    that opposite, within [-halfTrackHeight, 0] when wrapping is enabled
    and the opposite itself when it is not. *)
Theorem degenerate_input_neutral :
  (forall (num : Type) (JN : JsNumber num) (c : TimelineCore.t num),
    (TimelineCore.offsets c = [] ->
       TimelineCore.nearestCardIndex c = 0%nat
       /\ (forall i, TimelineCore.posYForIndex i c = Some (num_of_Z 0))
       /\ (forall fuel i, TimelineCore.jumpToIndex fuel i c = Some c))
    /\ (cardElements (TimelineCore.track c) = [] ->
          TimelineCore.offsets (TimelineCore.computeOffsetsNow c) = []
          /\ TimelineCore.cards (TimelineCore.computeOffsetsNow c) = []
          /\ TimelineCore.originalCount (TimelineCore.computeOffsetsNow c)
             = 0%nat)
    /\ (TimelineCore.offsets c <> [] ->
        forall idx : Z,
          let len := length (TimelineCore.offsets c) in
          let k := clamp_index len idx in
          (0 <= k <= Z.of_nat len - 1)%Z
          /\ ((idx < 0)%Z -> k = 0%Z)
          /\ ((Z.of_nat len - 1 < idx)%Z -> k = (Z.of_nat len - 1)%Z)
          /\ ((0 <= idx <= Z.of_nat len - 1)%Z -> k = idx)
          /\ (exists o,
                array_get (TimelineCore.offsets c) k = Some o
                /\ TimelineCore.posYForIndex idx c = Some (nopp o))
          /\ (forall fuel,
                TimelineCore.jumpToIndex fuel idx c
                  = TimelineCore.jumpToIndex fuel k c)))
  /\ (forall (c : TimelineCore.t Q) (idx : Z),
        TimelineCore.offsets c <> [] ->
        let half := TimelineCore.halfTrackHeight c in
        exists (o : Q) (fuel0 : nat),
          array_get (TimelineCore.offsets c)
                    (clamp_index (length (TimelineCore.offsets c)) idx)
          = Some o
          /\ forall fuel : nat, (fuel0 <= fuel)%nat ->
               exists c',
                 TimelineCore.jumpToIndex fuel idx c = Some c'
                 /\ style_transform (TimelineCore.track c')
                    = Some (TimelineCore.posY c')
                 /\ TimelineCore.offsets c' = TimelineCore.offsets c
                 /\ (exists k : Z,
                        TimelineCore.posY c' == - o + inject_Z k * half)
                 /\ (0 < half ->
                     - half <= TimelineCore.posY c'
                     /\ TimelineCore.posY c' <= 0)
                 /\ (~ 0 < half -> TimelineCore.posY c' = - o)).
Proof.
  split; [| intros c idx Hne; apply jumpToIndex_lands; exact Hne].
  intros num JN c. split; [| split].
  - intros He. unfold TimelineCore.nearestCardIndex,
      TimelineCore.posYForIndex, TimelineCore.jumpToIndex.
    rewrite He. simpl. auto.
  - intros He. unfold TimelineCore.computeOffsetsNow. rewrite He. simpl. auto.
  - intros Hne idx len k.
    assert (Hlen : (0 < len)%nat).
    { subst len. destruct (TimelineCore.offsets c);
        [congruence | simpl; lia]. }
    split; [apply clamp_index_range, Hlen |].
    split; [intros; apply clamp_index_below; assumption |].
    split; [intros; apply clamp_index_above; assumption |].
    split; [intros; apply clamp_index_inside; assumption |].
    split.
    + destruct (array_get_clamped idx Hne) as [o Ho].
      exists o. split; [exact Ho |].
      unfold TimelineCore.posYForIndex.
      rewrite (length_eqb_nonempty Hne). fold len. fold k.
      subst k len. now rewrite Ho.
    + intros fuel. apply jumpToIndex_clamps.
Qed.

Lemma degenerate_input_neutral_witness :
  TimelineCore.nearestCardIndex (TimelineCore.constructor (demo_track Q))
    = 0%nat
  /\ clamp_index (length (TimelineCore.offsets (demo_core Q))) 17 = 3%Z
  /\ exists (fuel : nat) (c' : TimelineCore.t Q),
       TimelineCore.jumpToIndex fuel 17 (demo_core Q) = Some c'
       /\ style_transform (TimelineCore.track c')
          = Some (TimelineCore.posY c').
Proof.
  split; [| split].
  - apply (proj1 (proj1 degenerate_input_neutral Q Q_JsNumber
                    (TimelineCore.constructor (demo_track Q)))).
    reflexivity.
  - apply (proj2 (proj2 (proj1 degenerate_input_neutral Q Q_JsNumber
                           (demo_core Q)))).
    + vm_compute. discriminate.
    + vm_compute. reflexivity.
  - destruct (proj2 degenerate_input_neutral (demo_core Q) 17%Z)
      as (o & fuel0 & _ & Hjump).
    + vm_compute. discriminate.
    + destruct (Hjump fuel0 (Nat.le_refl fuel0)) as (c' & Hc' & Htr & _).
      exists fuel0, c'. split; assumption.
Defined.

(** C2, the boundary it misses.  With the offsets 0, 100, 250, 420 and the
    period 420, [jumpToIndex(3)] has to normalise -420: the loop test is
    [val < -halfTrackHeight], strict, so -420 is kept as it is and the
    position written lies outside (-420, 0], on exact numbers and on
    binary64 alike, whereas the tick's test [posY <= -halfTrackHeight]
    folds -420 to 0.  The same happens on the doubled two-card track of an
    engine started without [originalCount]: [jumpToIndex(2)] writes -200
    for the period 200. *)
Theorem jumpToIndex_keeps_minus_half :
  forall fuel : nat,
    (exists c',
        TimelineCore.jumpToIndex fuel 3 (demo_core Q) = Some c'
        /\ TimelineCore.offsets c' = [0; 100; 250; 420]
        /\ TimelineCore.halfTrackHeight c' = 420
        /\ TimelineCore.posY c' == - (420)
        /\ style_transform (TimelineCore.track c') = Some (TimelineCore.posY c')
        /\ ~ in_wrap_interval (TimelineCore.halfTrackHeight c')
                              (TimelineCore.posY c'))
    /\ (exists c',
          TimelineCore.jumpToIndex fuel 2 (plain_core Q) = Some c'
          /\ TimelineCore.offsets c' = [0; 100; 200; 300]
          /\ TimelineCore.halfTrackHeight c' = 200
          /\ TimelineCore.posY c' == - (200)
          /\ ~ in_wrap_interval (TimelineCore.halfTrackHeight c')
                                (TimelineCore.posY c'))
    /\ option_map (@TimelineCore.posY float)
         (TimelineCore.jumpToIndex fuel 3 (demo_core float))
       = Some (-420)%float
    /\ option_map (@TimelineCore.posY float)
         (TimelineCore.jumpToIndex fuel 2 (plain_core float))
       = Some (-200)%float
    /\ TimelineCore.wrap_once 420 (- (420)) == 0.
Proof.
  intros fuel. split; [| split; [| split; [| split]]].
  - destruct fuel; (eexists; split; [vm_compute; reflexivity |]);
      (split; [vm_compute; reflexivity |]);
      (split; [vm_compute; reflexivity |]);
      (split; [vm_compute; reflexivity |]);
      (split; [vm_compute; reflexivity |]);
      intros [Hlo _]; vm_compute in Hlo; discriminate Hlo.
  - destruct fuel; (eexists; split; [vm_compute; reflexivity |]);
      (split; [vm_compute; reflexivity |]);
      (split; [vm_compute; reflexivity |]);
      (split; [vm_compute; reflexivity |]);
      intros [Hlo _]; vm_compute in Hlo; discriminate Hlo.
  - destruct fuel; vm_compute; reflexivity.
  - destruct fuel; vm_compute; reflexivity.
  - vm_compute. reflexivity.
Qed.

Lemma normalize_up_more_fuel (half : Q) :
  forall (f1 f2 : nat) (v w : Q),
    (f1 <= f2)%nat ->
    TimelineCore.normalize_up f1 half v = Some w ->
    TimelineCore.normalize_up f2 half v = Some w.
Proof.
  induction f1 as [| f1 IH]; intros f2 v w Hle;
    rewrite (normalize_up_unfold _ half v), (normalize_up_unfold f2 half v);
    destruct (_ && _)%bool; try discriminate; try tauto.
  destruct f2 as [| f2]; [lia |]. apply IH. lia.
Qed.

Lemma normalize_down_more_fuel (half : Q) :
  forall (f1 f2 : nat) (v w : Q),
    (f1 <= f2)%nat ->
    TimelineCore.normalize_down f1 half v = Some w ->
    TimelineCore.normalize_down f2 half v = Some w.
Proof.
  induction f1 as [| f1 IH]; intros f2 v w Hle;
    rewrite (normalize_down_unfold _ half v),
            (normalize_down_unfold f2 half v);
    destruct (_ && _)%bool; try discriminate; try tauto.
  destruct f2 as [| f2]; [lia |]. apply IH. lia.
Qed.

(** More iterations do not change the position a jump has written. *)
Lemma jumpToIndex_more_fuel (c c1 : TimelineCore.t Q) (idx : Z) (f1 f2 : nat) :
  TimelineCore.offsets c <> [] ->
  (f1 <= f2)%nat ->
  TimelineCore.jumpToIndex f1 idx c = Some c1 ->
  exists c2,
    TimelineCore.jumpToIndex f2 idx c = Some c2
    /\ TimelineCore.posY c2 = TimelineCore.posY c1.
Proof.
  intros Hne Hf. unfold TimelineCore.jumpToIndex.
  rewrite (length_eqb_nonempty Hne).
  destruct (array_get _ _) as [o |]; [| discriminate].
  destruct (TimelineCore.normalize_up f1 _ _) as [a |] eqn:Ea;
    [| discriminate].
  rewrite (@normalize_up_more_fuel _ f1 f2 _ _ Hf Ea).
  destruct (TimelineCore.normalize_down f1 _ _) as [b |] eqn:Eb;
    [| discriminate].
  rewrite (@normalize_down_more_fuel _ f1 f2 _ _ Hf Eb).
  intros [= <-]. eexists. split; reflexivity.
Qed.

(** The position of a jump is determined by the offsets table and the
    period: every engine that shares them is moved to the same place. *)
Lemma jump_position_from_tables (c : TimelineCore.t Q) (i : Z) :
  TimelineCore.offsets c <> [] ->
  exists (fuel0 : nat) (y : Q),
    forall fuel : nat, (fuel0 <= fuel)%nat ->
    forall c2 : TimelineCore.t Q,
      TimelineCore.offsets c2 = TimelineCore.offsets c ->
      TimelineCore.halfTrackHeight c2 = TimelineCore.halfTrackHeight c ->
      exists c',
        TimelineCore.jumpToIndex fuel i c2 = Some c'
        /\ TimelineCore.posY c' = y
        /\ style_transform (TimelineCore.track c') = Some y.
Proof.
  intros Hne.
  destruct (jumpToIndex_terminates c i) as [fuel0 Hterm].
  destruct (Hterm fuel0 (Nat.le_refl _)) as [c0 Hc0].
  exists fuel0, (TimelineCore.posY c0).
  intros fuel Hf c2 Ho Hh.
  destruct (@jumpToIndex_more_fuel c c0 i fuel0 fuel Hne Hf Hc0)
    as (c1 & Hc1 & Hy).
  assert (Hne2 : TimelineCore.offsets c2 <> []) by (rewrite Ho; exact Hne).
  pose proof (@jumpToIndex_reads_tables Q _ fuel i _ _ Ho Hh Hne2) as Heq.
  rewrite Hc1 in Heq. simpl in Heq.
  destruct (TimelineCore.jumpToIndex fuel i c2) as [c' |] eqn:Hc';
    [| discriminate Heq].
  simpl in Heq. injection Heq as Heq.
  exists c'. split; [reflexivity |]. split; [congruence |].
  rewrite (@jumpToIndex_applies_transform Q _ fuel i _ c' Hne2 Hc').
  congruence.
Qed.

(** C9. With a non-empty offsets table and a valid index [i], a tick
    immediately followed by [jumpToIndex(i)] leaves the position that
    [jumpToIndex(i)] alone produces from the same offsets and period: the
    jump returns in both cases, writes the same value, and that value is
    the one applied to the track; whatever the position was before the
    jump, the result is the same. *)
Theorem jump_after_tick_wins :
  forall (c : TimelineCore.t Q) (i : Z),
    TimelineCore.offsets c <> [] ->
    (0 <= i <= Z.of_nat (length (TimelineCore.offsets c)) - 1)%Z ->
    exists (fuel0 : nat) (y : Q),
      forall fuel : nat, (fuel0 <= fuel)%nat ->
        (exists c_jump c_both,
            TimelineCore.jumpToIndex fuel i c = Some c_jump
            /\ TimelineCore.jumpToIndex fuel i (TimelineCore._animate c)
               = Some c_both
            /\ TimelineCore.posY c_jump = y
            /\ TimelineCore.posY c_both = y
            /\ style_transform (TimelineCore.track c_both) = Some y)
        /\ (forall before : Q,
               exists c',
                 TimelineCore.jumpToIndex fuel i
                   (TimelineCore.set_posY before c) = Some c'
                 /\ TimelineCore.posY c' = y).
Proof.
  intros c i Hne _.
  destruct (@jump_position_from_tables c i Hne) as (fuel0 & y & Hall).
  exists fuel0, y. intros fuel Hf.
  destruct (animate_keeps_tables c) as (Ho & Hh & _).
  destruct (Hall fuel Hf c eq_refl eq_refl) as (c1 & Hc1 & Hy1 & _).
  destruct (Hall fuel Hf (TimelineCore._animate c) Ho Hh)
    as (c2 & Hc2 & Hy2 & Ht2).
  split.
  - exists c1, c2. auto.
  - intros before.
    destruct (Hall fuel Hf (TimelineCore.set_posY before c) eq_refl eq_refl)
      as (c3 & Hc3 & Hy3 & _).
    exists c3. auto.
Qed.

Lemma jump_after_tick_wins_witness :
  exists (fuel0 : nat) (y : Q),
    forall fuel : nat, (fuel0 <= fuel)%nat ->
      exists c_jump c_both,
        TimelineCore.jumpToIndex fuel 2 (demo_core Q) = Some c_jump
        /\ TimelineCore.jumpToIndex fuel 2
             (TimelineCore._animate (demo_core Q)) = Some c_both
        /\ TimelineCore.posY c_jump = y
        /\ TimelineCore.posY c_both = y
        /\ style_transform (TimelineCore.track c_both) = Some y.
Proof.
  destruct (@jump_after_tick_wins (demo_core Q) 2) as (fuel0 & y & Hall).
  - vm_compute. discriminate.
  - vm_compute. split; discriminate.
  - exists fuel0, y. intros fuel Hf. exact (proj1 (Hall fuel Hf)).
Defined.

(* ================================================================= *)
(** ** The end-to-end scenario: 560 ticks at 0.75 px over a period of 420 *)

Section TicksFacts.
Context {num : Type} {JN : JsNumber num}.
Import TimelineCore.

Lemma ticks_succ (k : nat) (c : t num) :
  Frames.ticks (S k) c = _animate (Frames.ticks k c).
Proof. reflexivity. Qed.

Lemma ticks_keep (k : nat) (c : t num) :
  offsets (Frames.ticks k c) = offsets c
  /\ halfTrackHeight (Frames.ticks k c) = halfTrackHeight c
  /\ BASE_SPEED (Frames.ticks k c) = BASE_SPEED c
  /\ _running (Frames.ticks k c) = _running c
  /\ autoScroll (Frames.ticks k c) = autoScroll c.
Proof.
  induction k as [| k IH]; [simpl; auto |].
  rewrite ticks_succ.
  destruct (animate_keeps_tables (Frames.ticks k c)) as (A & B & C & D & E).
  destruct IH as (A' & B' & C' & D' & E').
  repeat split; congruence.
Qed.

Lemma animate_posY (c : t num) :
  _running c = true -> autoScroll c = true ->
  posY (_animate c)
  = wrap_once (halfTrackHeight c) (nsub (posY c) (BASE_SPEED c)).
Proof. intros Hr Ha. unfold _animate. rewrite Hr, Ha. reflexivity. Qed.

End TicksFacts.

Lemma wrap_once_inside (half y : Q) :
  0 < half -> - half < y -> y <= 0 -> TimelineCore.wrap_once half y = y.
Proof.
  intros Hh Hlo Hhi. unfold TimelineCore.wrap_once.
  destruct (Q_ltb_spec (num_of_Z 0) half) as [_ | Hn];
    [| q_ops; change (inject_Z 0) with 0 in Hn; lra].
  destruct (Q_leb_spec y (nopp half)) as [Hle | _]; [q_ops; lra |].
  destruct (Q_ltb_spec (num_of_Z 0) y) as [Hp | _];
    [q_ops; change (inject_Z 0) with 0 in Hp; lra | reflexivity].
Qed.

Lemma wrap_once_fold (half y : Q) :
  0 < half -> y <= - half ->
  TimelineCore.wrap_once half y = y + half.
Proof.
  intros Hh Hle. unfold TimelineCore.wrap_once.
  destruct (Q_ltb_spec (num_of_Z 0) half) as [_ | Hn];
    [| q_ops; change (inject_Z 0) with 0 in Hn; lra].
  destruct (Q_leb_spec y (nopp half)) as [_ | Hgt]; [| q_ops; lra].
  destruct (Q_ltb_spec (num_of_Z 0) (nadd y half)) as [Hp | _];
    [q_ops; change (inject_Z 0) with 0 in Hp; lra | reflexivity].
Qed.

(** The position after [k] ticks, as long as no wrap has fired. *)
Lemma ticks_accumulate (c : TimelineCore.t Q) :
  TimelineCore.posY c == 0 ->
  TimelineCore.autoScroll c = true ->
  TimelineCore._running c = true ->
  TimelineCore.halfTrackHeight c == 420 ->
  TimelineCore.BASE_SPEED c == 3 # 4 ->
  forall k : nat, (k <= 559)%nat ->
    TimelineCore.posY (Frames.ticks k c)
      == - ((3 # 4) * inject_Z (Z.of_nat k)).
Proof.
  intros Hp Ha Hr Hh Hb. induction k as [| k IH]; intros Hk.
  - simpl. rewrite Hp. reflexivity.
  - specialize (IH ltac:(lia)).
    destruct (ticks_keep k c) as (_ & Hh' & Hb' & Hr' & Ha').
    rewrite ticks_succ, animate_posY by congruence.
    rewrite Hh', Hb'. q_ops.
    assert (Hk' : inject_Z (Z.of_nat k) <= 558).
    { change 558 with (inject_Z 558). rewrite <- Zle_Qle. lia. }
    assert (Hk0 : 0 <= inject_Z (Z.of_nat k)).
    { change 0 with (inject_Z 0). rewrite <- Zle_Qle. lia. }
    rewrite wrap_once_inside; [| lra | lra | lra].
    rewrite inject_nat_succ, IH, Hb. ring.
Qed.

Lemma binary64_ticks_below_560 (c : TimelineCore.t float) :
  TimelineCore.posY c = 0%float ->
  TimelineCore.autoScroll c = true ->
  TimelineCore._running c = true ->
  TimelineCore.halfTrackHeight c = 420%float ->
  TimelineCore.BASE_SPEED c = 0.75%float ->
  forallb (binary64_tick_check c) (seq 0 560) = true
  /\ TimelineCore.posY (Frames.ticks 560 c) = 0%float
  /\ (TimelineCore.posY (Frames.ticks 559 c) - 0.75)%float = (-420)%float.
Proof.
  intros Hp Ha Hr Hh Hb.
  destruct c as [tr y a b cs os n h r p].
  cbn [TimelineCore.posY TimelineCore.autoScroll TimelineCore._running
       TimelineCore.halfTrackHeight TimelineCore.BASE_SPEED]
    in Hp, Ha, Hr, Hh, Hb.
  subst.
  split; [| split]; vm_compute; reflexivity.
Qed.

(** C4. From position 0 with auto-scroll on, period 420 and base speed
    0.75, every tick before the 560th leaves the raw sum -(0.75 k), which is
    strictly above -420, so no wrap fires; at tick 560 the raw sum is
    exactly -420, the inclusive test folds it by one period, and the
    position is 0.  This holds on exact numbers and, computed with
    binary64 rounding, on floats. *)
Theorem ticks_560_fold_to_zero :
  (forall c : TimelineCore.t Q,
      TimelineCore.posY c == 0 ->
      TimelineCore.autoScroll c = true ->
      TimelineCore._running c = true ->
      TimelineCore.halfTrackHeight c == 420 ->
      TimelineCore.BASE_SPEED c == 3 # 4 ->
      (forall k : nat, (k < 560)%nat ->
          TimelineCore.posY (Frames.ticks k c)
            == - ((3 # 4) * inject_Z (Z.of_nat k))
          /\ - (420) < TimelineCore.posY (Frames.ticks k c))
      /\ (forall k : nat, (k < 559)%nat ->
            TimelineCore.posY (Frames.ticks (S k) c)
            = TimelineCore.posY (Frames.ticks k c)
              - TimelineCore.BASE_SPEED c)
      /\ TimelineCore.posY (Frames.ticks 559 c) - TimelineCore.BASE_SPEED c
         == - (420)
      /\ TimelineCore.posY (Frames.ticks 560 c)
         = TimelineCore.posY (Frames.ticks 559 c)
           - TimelineCore.BASE_SPEED c + TimelineCore.halfTrackHeight c
      /\ TimelineCore.posY (Frames.ticks 560 c) == 0)
  /\ (forall c : TimelineCore.t float,
         TimelineCore.posY c = 0%float ->
         TimelineCore.autoScroll c = true ->
         TimelineCore._running c = true ->
         TimelineCore.halfTrackHeight c = 420%float ->
         TimelineCore.BASE_SPEED c = 0.75%float ->
         (forall k : nat, (k < 560)%nat ->
             binary64_tick_check c k = true)
         /\ (TimelineCore.posY (Frames.ticks 559 c) - 0.75)%float
            = (-420)%float
         /\ TimelineCore.posY (Frames.ticks 560 c) = 0%float).
Proof.
  split.
  - intros c Hp Ha Hr Hh Hb.
    pose proof (@ticks_accumulate c Hp Ha Hr Hh Hb) as Hacc.
    assert (Hnat : forall k, (k <= 559)%nat ->
                     0 <= inject_Z (Z.of_nat k)
                     /\ inject_Z (Z.of_nat k) <= 559).
    { intros k Hk. split.
      - change 0 with (inject_Z 0). rewrite <- Zle_Qle. lia.
      - change 559 with (inject_Z 559). rewrite <- Zle_Qle. lia. }
    split; [| split; [| split; [| split]]].
    + intros k Hk. split; [apply Hacc; lia |].
      rewrite (Hacc k) by lia. destruct (Hnat k ltac:(lia)). lra.
    + intros k Hk.
      destruct (ticks_keep k c) as (_ & Hh' & Hb' & Hr' & Ha').
      rewrite ticks_succ, animate_posY by congruence.
      rewrite Hh', Hb'. q_ops.
      destruct (Hnat k ltac:(lia)) as [H0 _].
      assert (inject_Z (Z.of_nat k) <= 558).
      { change 558 with (inject_Z 558). rewrite <- Zle_Qle. lia. }
      pose proof (Hacc k ltac:(lia)) as Hk'.
      apply wrap_once_inside; lra.
    + rewrite (Hacc 559%nat) by lia. rewrite Hb. reflexivity.
    + destruct (ticks_keep 559 c) as (_ & Hh' & Hb' & Hr' & Ha').
      rewrite ticks_succ, animate_posY by congruence.
      rewrite Hh', Hb'. q_ops.
      pose proof (Hacc 559%nat ltac:(lia)) as Hk'.
      change (inject_Z (Z.of_nat 559)) with 559 in Hk'.
      apply wrap_once_fold; lra.
    + destruct (ticks_keep 559 c) as (_ & Hh' & Hb' & Hr' & Ha').
      rewrite ticks_succ, animate_posY by congruence.
      rewrite Hh', Hb'. q_ops.
      pose proof (Hacc 559%nat ltac:(lia)) as Hk'.
      change (inject_Z (Z.of_nat 559)) with 559 in Hk'.
      rewrite wrap_once_fold by lra. lra.
  - intros c Hp Ha Hr Hh Hb.
    destruct (@binary64_ticks_below_560 c Hp Ha Hr Hh Hb)
      as (Hall & H560 & Hraw).
    split; [| split; assumption].
    intros k Hk.
    apply (proj1 (forallb_forall _ _) Hall).
    apply in_seq. lia.
Qed.

Lemma ticks_560_fold_to_zero_witness :
  TimelineCore.posY (Frames.ticks 560 (demo_core Q)) == 0
  /\ TimelineCore.posY (Frames.ticks 560 (demo_core float)) = 0%float.
Proof.
  split.
  - refine (proj2 (proj2 (proj2 (proj2
      (proj1 ticks_560_fold_to_zero (demo_core Q) _ _ _ _ _)))));
      vm_compute; reflexivity.
  - refine (proj2 (proj2
      (proj2 ticks_560_fold_to_zero (demo_core float) _ _ _ _ _)));
      vm_compute; reflexivity.
Defined.

(* ================================================================= *)
(** ** The nearest card *)

(** The scan either keeps the candidate it was given, because nothing in
    the rest of the list is strictly closer, or returns the first position
    of the rest that is closest. *)
Lemma nearest_scan_spec (dist : Q) (offs : list Q) :
  forall (i : nat) (best : option Q) (nearest : nat),
    let d := fun j => Qabs (dist - nth j offs 0) in
    let r := TimelineCore.nearest_scan dist offs i best nearest in
    (r = nearest
     /\ match best with
        | Some b => forall j, (j < length offs)%nat -> b <= d j
        | None => offs = []
        end)
    \/ (exists k : nat,
           (k < length offs)%nat
           /\ r = (i + k)%nat
           /\ match best with Some b => d k < b | None => True end
           /\ (forall j, (j < k)%nat -> d k < d j)
           /\ (forall j, (j < length offs)%nat -> d k <= d j)).
Proof.
  induction offs as [| o rest IH]; intros i best nearest d r.
  - left. split; [reflexivity |]. destruct best; [| reflexivity].
    intros j Hj. simpl in Hj. lia.
  - subst r. cbn [TimelineCore.nearest_scan].
    set (d0 := nabs (nsub dist o)).
    assert (Hd0 : d 0%nat = d0) by reflexivity.
    assert (Hstep : forall j, d (S j) = Qabs (dist - nth j rest 0))
      by reflexivity.
    destruct best as [b |].
    + destruct (Q_ltb_spec d0 b) as [Hlt | Hge].
      * (* strictly closer than the best so far: the candidate is [i] *)
        destruct (IH (S i) (Some d0) i)
          as [[Hr Hall] | (k & Hk & Hr & Hkb & Hfirst & Hmin)].
        -- right. exists 0%nat. simpl length.
           split; [lia |]. split; [rewrite Hr; lia |].
           split; [rewrite Hd0; exact Hlt |].
           split; [intros j Hj; lia |].
           intros [| j] Hj; [rewrite Hd0; lra |].
           rewrite Hd0, Hstep. apply Hall. lia.
        -- right. exists (S k). simpl length.
           split; [lia |]. split; [rewrite Hr; lia |].
           rewrite Hstep.
           split; [lra |].
           split.
           ++ intros [| j] Hj; [rewrite Hd0; exact Hkb |].
              rewrite Hstep. apply Hfirst. lia.
           ++ intros [| j] Hj; [rewrite Hd0; lra |].
              rewrite Hstep. apply Hmin. lia.
      * (* not closer: the candidate is kept *)
        destruct (IH (S i) (Some b) nearest)
          as [[Hr Hall] | (k & Hk & Hr & Hkb & Hfirst & Hmin)].
        -- left. split; [exact Hr |].
           intros [| j] Hj; [rewrite Hd0; lra |].
           rewrite Hstep. apply Hall. simpl in Hj. lia.
        -- right. exists (S k). simpl length.
           split; [lia |]. split; [rewrite Hr; lia |].
           rewrite Hstep.
           split; [exact Hkb |].
           split.
           ++ intros [| j] Hj; [rewrite Hd0; lra |].
              rewrite Hstep. apply Hfirst. lia.
           ++ intros [| j] Hj; [rewrite Hd0; lra |].
              rewrite Hstep. apply Hmin. lia.
    + (* the first element always beats the initial Infinity *)
      cbn [nlt_infinity Q_JsNumber].
      destruct (IH (S i) (Some d0) i)
          as [[Hr Hall] | (k & Hk & Hr & Hkb & Hfirst & Hmin)].
      * right. exists 0%nat. simpl length.
        split; [lia |]. split; [rewrite Hr; lia |].
        split; [exact I |].
        split; [intros j Hj; lia |].
        intros [| j] Hj; [rewrite Hd0; lra |].
        rewrite Hd0, Hstep. apply Hall. lia.
      * right. exists (S k). simpl length.
        split; [lia |]. split; [rewrite Hr; lia |].
        split; [exact I |].
        rewrite Hstep.
        split.
        -- intros [| j] Hj; [rewrite Hd0; exact Hkb |].
           rewrite Hstep. apply Hfirst. lia.
        -- intros [| j] Hj; [rewrite Hd0; lra |].
           rewrite Hstep. apply Hmin. lia.
Qed.

(** C5. On a non-empty offsets table [nearestCardIndex] returns an index of
    the table whose distance |abs(position) - offset| is minimal, and every
    lower index is strictly farther (the lowest index wins a tie).  With
    the offsets 0, 50, 140, 300 and the position -145 it returns 2, on
    exact numbers and on binary64. *)
Theorem nearestCardIndex_first_minimum :
  (forall c : TimelineCore.t Q,
      TimelineCore.offsets c <> [] ->
      let n := TimelineCore.nearestCardIndex c in
      let d := card_distance (TimelineCore.posY c) (TimelineCore.offsets c) in
      (n < length (TimelineCore.offsets c))%nat
      /\ (forall j, (j < length (TimelineCore.offsets c))%nat -> d n <= d j)
      /\ (forall j, (j < n)%nat -> d n < d j))
  /\ (forall c : TimelineCore.t Q,
         TimelineCore.offsets c = [0; 50; 140; 300] ->
         TimelineCore.posY c = - (145) ->
         TimelineCore.nearestCardIndex c = 2%nat)
  /\ (forall c : TimelineCore.t float,
         TimelineCore.offsets c = [0; 50; 140; 300]%float ->
         TimelineCore.posY c = (-145)%float ->
         TimelineCore.nearestCardIndex c = 2%nat).
Proof.
  split; [| split].
  - intros c Hne. cbv zeta. unfold TimelineCore.nearestCardIndex.
    rewrite (length_eqb_nonempty Hne).
    destruct (@nearest_scan_spec (nabs (TimelineCore.posY c))
                (TimelineCore.offsets c) 0%nat None 0%nat)
      as [[_ Habs] | (k & Hk & Hr & _ & Hfirst & Hmin)];
      [contradiction |].
    rewrite Hr. unfold card_distance. simpl Nat.add. auto.
  - intros c Ho Hp. unfold TimelineCore.nearestCardIndex.
    rewrite Ho, Hp. vm_compute. reflexivity.
  - intros c Ho Hp. unfold TimelineCore.nearestCardIndex.
    rewrite Ho, Hp. vm_compute. reflexivity.
Qed.

Lemma nearestCardIndex_first_minimum_witness :
  (TimelineCore.nearestCardIndex
     (TimelineCore.set_posY (- (145)) (demo_core Q))
   < length (TimelineCore.offsets
               (TimelineCore.set_posY (- (145)) (demo_core Q))))%nat
  /\ TimelineCore.nearestCardIndex
       {| TimelineCore.track := demo_track Q;
          TimelineCore.posY := - (145);
          TimelineCore.autoScroll := true;
          TimelineCore.BASE_SPEED := 3 # 4;
          TimelineCore.cards := [];
          TimelineCore.offsets := [0; 50; 140; 300];
          TimelineCore.originalCount := 4;
          TimelineCore.halfTrackHeight := 420;
          TimelineCore._running := true;
          TimelineCore.raf_pending := 0 |} = 2%nat.
Proof.
  split.
  - refine (proj1 (proj1 nearestCardIndex_first_minimum
                     (TimelineCore.set_posY (- (145)) (demo_core Q)) _)).
    vm_compute. discriminate.
  - apply (proj1 (proj2 nearestCardIndex_first_minimum)); reflexivity.
Defined.

(* ================================================================= *)
(** ** The offsets table *)

Lemma computeOffsetsNow_tables (c : TimelineCore.t Q) (e0 : CardElement)
      (rest : list CardElement) :
  cardElements (TimelineCore.track c) = e0 :: rest ->
  TimelineCore.cards (TimelineCore.computeOffsetsNow c)
    = firstn (first_count c) (e0 :: rest)
  /\ TimelineCore.offsets (TimelineCore.computeOffsetsNow c)
     = map (fun e => inject_Z (offsetTop e) - inject_Z (offsetTop e0))
           (firstn (first_count c) (e0 :: rest))
  /\ TimelineCore.halfTrackHeight (TimelineCore.computeOffsetsNow c)
     = inject_Z (Math_round_half (scrollHeight (TimelineCore.track c)))
  /\ (1 <= first_count c)%nat.
Proof.
  intros Hall. unfold TimelineCore.computeOffsetsNow, first_count.
  rewrite Hall. cbn [length Nat.eqb].
  destruct (TimelineCore.originalCount c) as [| n]; cbn [Nat.eqb];
    cbn [firstn TimelineCore.cards TimelineCore.offsets
         TimelineCore.halfTrackHeight];
    (split; [reflexivity |]); (split; [reflexivity |]);
    (split; [reflexivity | lia]).
Qed.

(** C6. After [computeOffsetsNow] on a track with at least one card, the
    table has one entry per original card, entry [i] is the top of card [i]
    minus the top of card 0, entry 0 is zero, and the table is
    non-decreasing whenever the tops of the original cards are
    non-decreasing in document order. *)
Theorem computeOffsetsNow_relative_tops :
  forall c : TimelineCore.t Q,
    cardElements (TimelineCore.track c) <> [] ->
    let all := cardElements (TimelineCore.track c) in
    let n := first_count c in
    let offs := TimelineCore.offsets (TimelineCore.computeOffsetsNow c) in
    length offs = Nat.min n (length all)
    /\ TimelineCore.cards (TimelineCore.computeOffsetsNow c) = firstn n all
    /\ (forall (i : nat) (e e0 : CardElement),
           (i < n)%nat ->
           nth_error all i = Some e ->
           nth_error all 0 = Some e0 ->
           exists o,
             nth_error offs i = Some o
             /\ o == inject_Z (offsetTop e - offsetTop e0))
    /\ (exists o0, nth_error offs 0 = Some o0 /\ o0 == 0)
    /\ ((forall (i : nat) (a b : CardElement),
            (S i < n)%nat ->
            nth_error all i = Some a ->
            nth_error all (S i) = Some b ->
            (offsetTop a <= offsetTop b)%Z) ->
        forall (i : nat) (x y : Q),
          nth_error offs i = Some x ->
          nth_error offs (S i) = Some y ->
          x <= y).
Proof.
  intros c Hne all n offs.
  destruct (cardElements (TimelineCore.track c)) as [| e0 rest] eqn:Hall;
    [congruence |].
  destruct (@computeOffsetsNow_tables c e0 rest Hall)
    as (Hcards & Hoffs & _ & Hn).
  fold n in Hcards, Hoffs, Hn. subst all. fold offs in Hoffs.
  assert (Hnth : forall i e,
             (i < n)%nat -> nth_error (e0 :: rest) i = Some e ->
             nth_error offs i
             = Some (inject_Z (offsetTop e) - inject_Z (offsetTop e0))).
  { intros i e Hi He. rewrite Hoffs, nth_error_map, nth_error_firstn.
    destruct (Nat.ltb_spec i n) as [_ | Hge]; [| lia].
    rewrite He. reflexivity. }
  assert (Hback : forall i x,
             nth_error offs i = Some x ->
             exists e, (i < n)%nat /\ nth_error (e0 :: rest) i = Some e
                       /\ x = inject_Z (offsetTop e) - inject_Z (offsetTop e0)).
  { intros i x Hx. rewrite Hoffs, nth_error_map, nth_error_firstn in Hx.
    destruct (Nat.ltb_spec i n) as [Hlt | Hge]; [| discriminate].
    destruct (nth_error (e0 :: rest) i) as [e |]; [| discriminate].
    injection Hx as <-. exists e. auto. }
  split; [| split; [| split; [| split]]].
  - rewrite Hoffs, length_map, length_firstn. reflexivity.
  - exact Hcards.
  - intros i e e0' Hi He He0. simpl in He0. injection He0 as <-.
    eexists. split; [apply Hnth; eassumption |].
    unfold Z.sub. rewrite inject_Z_plus, inject_Z_opp. reflexivity.
  - eexists. split; [apply (Hnth 0%nat e0); [lia | reflexivity] |]. ring.
  - intros Hsorted i x y Hx Hy.
    destruct (Hback _ _ Hx) as (a & Hia & Ha & ->).
    destruct (Hback _ _ Hy) as (b & Hib & Hb & ->).
    pose proof (Hsorted i a b Hib Ha Hb) as Hab.
    rewrite Zle_Qle in Hab. lra.
Qed.

Lemma computeOffsetsNow_relative_tops_witness :
  length (TimelineCore.offsets
            (TimelineCore.computeOffsetsNow (demo_core Q)))
  = Nat.min (first_count (demo_core Q))
            (length (cardElements (TimelineCore.track (demo_core Q)))).
Proof.
  refine (proj1 (@computeOffsetsNow_relative_tops (demo_core Q) _)).
  vm_compute. discriminate.
Defined.

(* ================================================================= *)
(** ** Position to fractional index and back *)

Lemma last_cons_default (a d d' : Q) (l : list Q) :
  last (a :: l) d = last (a :: l) d'.
Proof.
  revert a. induction l as [| b l IH]; intros a; [reflexivity |].
  change (last (b :: l) d = last (b :: l) d'). apply IH.
Qed.

Lemma Qfloor_unique (x : Q) (z : Z) :
  inject_Z z <= x -> x < inject_Z (z + 1) -> Qfloor x = z.
Proof.
  intros Hlo Hhi.
  pose proof (Qfloor_le x) as Hf1. pose proof (Qlt_floor x) as Hf2.
  assert (H1 : inject_Z (Qfloor x) < inject_Z (z + 1)) by lra.
  assert (H2 : inject_Z z < inject_Z (Qfloor x + 1)) by lra.
  rewrite <- Zlt_Qlt in H1, H2. lia.
Qed.

Lemma bracket_scan_cons (dist a b : Q) (rest : list Q) (i : Z) :
  Master.bracket_scan dist (a :: b :: rest) i
  = if (nleb a dist && nleb dist b)%bool
    then nadd (num_of_Z i) (ndiv (nsub dist a) (nsub b a))
    else Master.bracket_scan dist (b :: rest) (i + 1).
Proof. reflexivity. Qed.

(** The loop of [fractionalIndexForPosY] stops at the first pair of
    neighbours that brackets the distance. *)
Lemma bracket_scan_spec (dist : Q) (offs : list Q) :
  forall (a0 : Q) (i : Z),
    strictly_increasing (a0 :: offs) ->
    a0 <= dist -> dist < last (a0 :: offs) a0 ->
    exists (k : nat) (a b : Q),
      nth_error (a0 :: offs) k = Some a
      /\ nth_error (a0 :: offs) (S k) = Some b
      /\ a <= dist /\ dist <= b /\ a < b
      /\ (dist == b -> (S (S k) < length (a0 :: offs))%nat)
      /\ Master.bracket_scan dist (a0 :: offs) i
         = inject_Z (i + Z.of_nat k) + (dist - a) / (b - a).
Proof.
  induction offs as [| b0 offs IH]; intros a0 i Hinc Hlo Hhi.
  - simpl in Hhi. lra.
  - destruct Hinc as [Hab Hinc].
    rewrite bracket_scan_cons.
    destruct (Q_leb_spec a0 dist) as [_ | Hn]; [| contradiction].
    destruct (Q_leb_spec dist b0) as [Hle | Hgt]; cbn [andb].
    + exists 0%nat, a0, b0. repeat split; try assumption.
      * intros He. destruct offs as [| b1 offs]; [| simpl; lia].
        simpl in Hhi. lra.
      * rewrite Z.add_0_r. reflexivity.
    + assert (Hlo' : b0 <= dist) by lra.
      assert (Hhi' : dist < last (b0 :: offs) b0).
      { rewrite (last_cons_default b0 b0 a0). exact Hhi. }
      destruct (IH b0 (i + 1)%Z Hinc Hlo' Hhi')
        as (k & a & b & Ha & Hb & H1 & H2 & H3 & H4 & Hscan).
      exists (S k), a, b. repeat split; try assumption.
      * intros He. specialize (H4 He). simpl in *. lia.
      * rewrite Hscan. q_ops.
        replace (i + 1 + Z.of_nat k)%Z with (i + Z.of_nat (S k))%Z by lia.
        reflexivity.
Qed.

(* ================================================================= *)
(** ** More on the duplicator *)

Lemma same_id_true (a b : option Card) :
  TrackDuplicator.same_id a b = true <->
  exists x y, a = Some x /\ b = Some y /\ id x = id y.
Proof.
  unfold TrackDuplicator.same_id. split.
  - destruct a as [x |], b as [y |]; try discriminate.
    intros H. apply String.eqb_eq in H. eauto.
  - intros (x & y & -> & -> & H). now apply String.eqb_eq.
Qed.

(** The loop over the first half says that the two halves carry the same
    ids, position by position. *)
Lemma halves_agree (all : list Card) (half : nat) :
  length all = (half * 2)%nat ->
  forallb (fun i => TrackDuplicator.same_id (nth_error all i)
                                             (nth_error all (i + half)))
          (seq 0 half) = true
  <-> map id (firstn half all) = map id (skipn half all).
Proof.
  intros Hlen. rewrite forallb_forall. split.
  - intros Hall.
    apply nth_error_ext. intros i.
    rewrite !nth_error_map, nth_error_firstn, nth_error_skipn.
    destruct (Nat.ltb_spec i half) as [Hi | Hi].
    + assert (Hin : In i (seq 0 half)) by (apply in_seq; lia).
      apply Hall, same_id_true in Hin.
      destruct Hin as (x & y & Hx & Hy & Hid).
      rewrite Hx. rewrite (Nat.add_comm half i), Hy. simpl. now rewrite Hid.
    + simpl. symmetry.
      assert (Hn : nth_error all (half + i) = None)
        by (apply nth_error_None; lia).
      now rewrite Hn.
  - intros Heq i Hi. apply in_seq in Hi.
    assert (Hnth : nth_error (map id (firstn half all)) i
                   = nth_error (map id (skipn half all)) i)
      by now rewrite Heq.
    rewrite !nth_error_map, nth_error_firstn, nth_error_skipn in Hnth.
    destruct (Nat.ltb_spec i half) as [_ | Hge]; [| lia].
    rewrite (Nat.add_comm half i) in Hnth.
    destruct (nth_error all i) as [x |] eqn:Hx.
    + destruct (nth_error all (i + half)) as [y |] eqn:Hy.
      * simpl in Hnth. injection Hnth as Hid.
        apply same_id_true. eauto.
      * discriminate Hnth.
    + apply nth_error_None in Hx. lia.
Qed.

Lemma duplicated_iff_halves (all : list Card) :
  TrackDuplicator.isAlreadyDuplicated all = true
  <-> exists half : nat,
        (1 <= half)%nat
        /\ length all = (half * 2)%nat
        /\ map id (firstn half all) = map id (skipn half all).
Proof.
  unfold TrackDuplicator.isAlreadyDuplicated. split.
  - destruct (Nat.ltb_spec (length all) 2) as [| Hge]; [discriminate |].
    destruct (Nat.eqb_spec (length all mod 2) 0) as [Hmod | ];
      [| discriminate].
    simpl negb. cbv iota. intros Hall.
    exists (length all / 2)%nat.
    assert (Hlen : length all = (length all / 2 * 2)%nat).
    { pose proof (Nat.div_mod_eq (length all) 2). lia. }
    split; [lia |]. split; [exact Hlen |].
    apply (@halves_agree all _ Hlen), Hall.
  - intros (half & Hpos & Hlen & Hids).
    destruct (Nat.ltb_spec (length all) 2) as [| _]; [lia |].
    rewrite Hlen, Nat.Div0.mod_mul. simpl negb. cbv iota.
    rewrite Nat.div_mul by lia.
    apply (@halves_agree all _ Hlen), Hids.
Qed.

(** X1. [isAlreadyDuplicated] answers true exactly for the tracks that
    split into two non-empty halves of equal length whose ids agree position
    by position; the content of the cards plays no part. *)
Theorem isAlreadyDuplicated_iff (all : list Card) :
  TrackDuplicator.isAlreadyDuplicated all = true
  <-> exists half : nat,
        (1 <= half)%nat
        /\ length all = (half * 2)%nat
        /\ map id (firstn half all) = map id (skipn half all).
Proof. apply duplicated_iff_halves. Qed.

Lemma originalCount_doubled (all : list Card) :
  all <> [] ->
  TrackDuplicator.originalCount (all ++ map cloneNode all) = length all.
Proof.
  intros Hne. unfold TrackDuplicator.originalCount.
  rewrite (@isAlreadyDuplicated_doubled _ Hne), doubled_length.
  apply Nat.div_mul. lia.
Qed.

(** X2. After [duplicate] on a non-empty track, [originalCount] is what it
    was before, the track holds exactly twice that many cards, and the
    first [originalCount] of them are the cards the track started with when
    it was not doubled yet. *)
Theorem originalCount_after_duplicate (S : list Card) :
  S <> [] ->
  exists S',
    TrackDuplicator.track
      (TrackDuplicator.duplicate {| TrackDuplicator.track := Some S |})
    = Some S'
    /\ TrackDuplicator.originalCount S' = TrackDuplicator.originalCount S
    /\ length S' = (2 * TrackDuplicator.originalCount S')%nat
    /\ (1 <= TrackDuplicator.originalCount S')%nat
    /\ (TrackDuplicator.isAlreadyDuplicated S = false ->
        TrackDuplicator.originalCount S' = length S
        /\ firstn (length S) S' = S).
Proof.
  intros Hne.
  assert (Hlen : (1 <= length S)%nat)
    by (destruct S; [congruence | simpl; lia]).
  destruct (duplicate_cases Hne) as [[Hd He] | [Hd He]]; rewrite He; simpl.
  - exists S. split; [reflexivity |]. split; [reflexivity |].
    unfold TrackDuplicator.originalCount. rewrite Hd.
    apply duplicated_iff_halves in Hd.
    destruct Hd as (half & Hpos & Hl & _).
    rewrite Hl, Nat.div_mul by lia.
    split; [lia |]. split; [lia |]. discriminate.
  - exists (S ++ map cloneNode S). split; [reflexivity |].
    rewrite (@originalCount_doubled _ Hne).
    unfold TrackDuplicator.originalCount at 1. rewrite Hd.
    split; [reflexivity |]. rewrite doubled_length.
    split; [lia |]. split; [lia |]. intros _. split; [reflexivity |].
    rewrite <- (Nat.add_0_r (length S)), firstn_app_2. simpl.
    apply app_nil_r.
Qed.

Lemma originalCount_after_duplicate_witness :
  exists S',
    TrackDuplicator.track
      (TrackDuplicator.duplicate
         {| TrackDuplicator.track := Some demo_cards |}) = Some S'
    /\ TrackDuplicator.originalCount S'
       = TrackDuplicator.originalCount demo_cards
    /\ length S' = (2 * TrackDuplicator.originalCount S')%nat
    /\ (1 <= TrackDuplicator.originalCount S')%nat
    /\ (TrackDuplicator.isAlreadyDuplicated demo_cards = false ->
        TrackDuplicator.originalCount S' = length demo_cards
        /\ firstn (length demo_cards) S' = demo_cards).
Proof.
  apply (@originalCount_after_duplicate demo_cards). discriminate.
Defined.

(** X3. The test looks at ids only: an even number (at least two) of cards
    that all carry the same id, for instance cards without an id attribute,
    is taken for a doubled track, so [duplicate] adds nothing and
    [originalCount] reports half of the cards. *)
Theorem same_ids_taken_for_doubled (S : list Card) (i : string) (k : nat) :
  (1 <= k)%nat ->
  length S = (k * 2)%nat ->
  (forall c, In c S -> id c = i) ->
  TrackDuplicator.isAlreadyDuplicated S = true
  /\ TrackDuplicator.duplicate {| TrackDuplicator.track := Some S |}
     = {| TrackDuplicator.track := Some S |}
  /\ TrackDuplicator.originalCount S = k.
Proof.
  intros Hk Hlen Hids.
  assert (Hd : TrackDuplicator.isAlreadyDuplicated S = true).
  { apply duplicated_iff_halves. exists k. split; [exact Hk |].
    split; [exact Hlen |].
    assert (Hrep : forall l : list Card,
               (forall c, In c l -> In c S) ->
               map id l = repeat i (length l)).
    { induction l as [| c l IH]; intros Hin; [reflexivity |].
      simpl. rewrite (Hids c) by (apply Hin; left; reflexivity).
      f_equal. apply IH. intros c' Hc'. apply Hin. right. exact Hc'. }
    rewrite (Hrep (firstn k S)), (Hrep (skipn k S)).
    - rewrite length_firstn, length_skipn. f_equal. lia.
    - intros c Hc. rewrite <- (firstn_skipn k S). apply in_or_app. now right.
    - intros c Hc. rewrite <- (firstn_skipn k S). apply in_or_app. now left. }
  split; [exact Hd |]. split; [apply duplicate_fixed, Hd |].
  unfold TrackDuplicator.originalCount. rewrite Hd, Hlen.
  apply Nat.div_mul. lia.
Qed.

Lemma same_ids_taken_for_doubled_witness :
  let S := [ {| id := EmptyString; innerHTML := "a" |};
             {| id := EmptyString; innerHTML := "b" |} ] in
  TrackDuplicator.isAlreadyDuplicated S = true
  /\ TrackDuplicator.duplicate {| TrackDuplicator.track := Some S |}
     = {| TrackDuplicator.track := Some S |}
  /\ TrackDuplicator.originalCount S = 1%nat.
Proof.
  apply (@same_ids_taken_for_doubled _ EmptyString 1%nat).
  - lia.
  - reflexivity.
  - intros c [<- | [<- | []]]; reflexivity.
Defined.

(** X4. [safeDuplicateTrack] of master.js leaves the track that
    [TrackDuplicator.duplicate] leaves, and on a non-empty track it sets
    [originalCount] to what [TrackDuplicator.originalCount] reports
    afterwards and [cards] to that many leading cards. *)
Theorem safeDuplicateTrack_agrees (s : MasterSetup.t) :
  TrackDuplicator.track
    (TrackDuplicator.duplicate
       {| TrackDuplicator.track := Some (MasterSetup.track s) |})
  = Some (MasterSetup.track (MasterSetup.safeDuplicateTrack s))
  /\ (MasterSetup.track s <> [] ->
      let s' := MasterSetup.safeDuplicateTrack s in
      MasterSetup.originalCount s'
      = TrackDuplicator.originalCount (MasterSetup.track s')
      /\ MasterSetup.cards s'
         = firstn (MasterSetup.originalCount s') (MasterSetup.track s')
      /\ length (MasterSetup.track s')
         = (2 * MasterSetup.originalCount s')%nat)
  /\ (MasterSetup.track s = [] -> MasterSetup.safeDuplicateTrack s = s).
Proof.
  destruct s as [all n cs].
  unfold MasterSetup.safeDuplicateTrack, TrackDuplicator.duplicate.
  cbn [MasterSetup.track TrackDuplicator.track].
  destruct (Nat.eqb_spec (length all) 0) as [Hz | Hnz].
  { apply length_zero_iff_nil in Hz. subst all.
    split; [reflexivity |]. split; [congruence | reflexivity]. }
  assert (Hne : all <> []) by (intros ->; apply Hnz; reflexivity).
  assert (Hsame :
            ((length all mod 2 =? 0)%nat
             && MasterSetup.maybeDup all (length all / 2))%bool
            = TrackDuplicator.isAlreadyDuplicated all).
  { unfold TrackDuplicator.isAlreadyDuplicated, MasterSetup.maybeDup.
    destruct (Nat.ltb_spec (length all) 2) as [Hlt | Hge].
    - assert (Hone : length all = 1%nat) by lia.
      rewrite Hone. reflexivity.
    - destruct (length all mod 2 =? 0)%nat; reflexivity. }
  rewrite Hsame.
  destruct (TrackDuplicator.isAlreadyDuplicated all) eqn:Hd;
    cbn [MasterSetup.track MasterSetup.originalCount MasterSetup.cards
         TrackDuplicator.track].
  - split; [reflexivity |].
    split; [| intros ->; exfalso; apply Hne; reflexivity]. intros _.
    unfold TrackDuplicator.originalCount. rewrite Hd.
    split; [reflexivity |]. split; [reflexivity |].
    apply duplicated_iff_halves in Hd.
    destruct Hd as (half & Hpos & Hl & _).
    rewrite Hl, Nat.div_mul by lia. lia.
  - split; [reflexivity |].
    split; [| intros ->; exfalso; apply Hne; reflexivity]. intros _.
    rewrite (@originalCount_doubled _ Hne). split; [reflexivity |].
    split; [reflexivity |]. rewrite doubled_length. lia.
Qed.

Lemma safeDuplicateTrack_agrees_witness :
  let s := {| MasterSetup.track := demo_cards;
              MasterSetup.originalCount := 0;
              MasterSetup.cards := [] |} in
  MasterSetup.originalCount (MasterSetup.safeDuplicateTrack s)
  = TrackDuplicator.originalCount
      (MasterSetup.track (MasterSetup.safeDuplicateTrack s)).
Proof.
  refine (proj1 (proj1 (proj2 (@safeDuplicateTrack_agrees
            {| MasterSetup.track := demo_cards;
               MasterSetup.originalCount := 0;
               MasterSetup.cards := [] |})) _)).
  discriminate.
Defined.

(* ================================================================= *)
(** ** More on the engine: recomputation and jumps *)

(** X5. [computeOffsetsNow] can be called at any time: a second call right
    after the first changes nothing, and neither call touches the position,
    the flags, the track with the transform written on it, or the frame
    requests. *)
Theorem computeOffsetsNow_idempotent :
  forall (num : Type) (JN : JsNumber num) (c : TimelineCore.t num),
    TimelineCore.computeOffsetsNow (TimelineCore.computeOffsetsNow c)
    = TimelineCore.computeOffsetsNow c
    /\ TimelineCore.posY (TimelineCore.computeOffsetsNow c)
       = TimelineCore.posY c
    /\ TimelineCore.autoScroll (TimelineCore.computeOffsetsNow c)
       = TimelineCore.autoScroll c
    /\ TimelineCore._running (TimelineCore.computeOffsetsNow c)
       = TimelineCore._running c
    /\ TimelineCore.track (TimelineCore.computeOffsetsNow c)
       = TimelineCore.track c
    /\ TimelineCore.raf_pending (TimelineCore.computeOffsetsNow c)
       = TimelineCore.raf_pending c.
Proof.
  intros num JN c. unfold TimelineCore.computeOffsetsNow.
  destruct (length (cardElements (TimelineCore.track c)) =? 0)%nat eqn:E;
    cbn [TimelineCore.track TimelineCore.originalCount TimelineCore.posY
         TimelineCore.autoScroll TimelineCore._running
         TimelineCore.raf_pending TimelineCore.BASE_SPEED];
    rewrite E; repeat split; reflexivity.
Qed.

Lemma Qmult_pos_cancel_le (a b h : Q) :
  0 < h -> a * h <= b * h -> a <= b.
Proof. intros Hh H. apply (Qmult_le_r a b h Hh). exact H. Qed.

Lemma Qmult_pos_cancel_lt (a b h : Q) :
  0 < h -> a * h < b * h -> a < b.
Proof. intros Hh H. apply (Qmult_lt_r a b h Hh). exact H. Qed.

(** An integer multiple of the period that lies in [-half, 0) is -half. *)
Lemma multiple_in_last_period (k : Z) (half : Q) :
  0 < half ->
  - half <= inject_Z k * half -> inject_Z k * half < 0 ->
  k = (-1)%Z.
Proof.
  intros Hh Hlo Hhi.
  assert (H1 : inject_Z (-1) <= inject_Z k).
  { apply (@Qmult_pos_cancel_le _ _ half Hh).
    change (inject_Z (-1)) with (- (1)). lra. }
  assert (H2 : inject_Z k < inject_Z 0).
  { apply (@Qmult_pos_cancel_lt _ _ half Hh).
    change (inject_Z 0) with 0. lra. }
  rewrite <- Zle_Qle in H1. rewrite <- Zlt_Qlt in H2. lia.
Qed.

(** The two loops of a jump, one after the other, with what each of them
    guarantees. *)
Lemma jumpToIndex_trace (c : TimelineCore.t Q) (idx : Z) (o : Q)
      (fuel : nat) :
  let half := TimelineCore.halfTrackHeight c in
  TimelineCore.offsets c <> [] ->
  0 < half ->
  array_get (TimelineCore.offsets c)
            (clamp_index (length (TimelineCore.offsets c)) idx) = Some o ->
  (jump_fuel half (- o) <= fuel)%nat ->
  exists (w1 w2 : Q) (c' : TimelineCore.t Q),
    TimelineCore.jumpToIndex fuel idx c = Some c'
    /\ TimelineCore.posY c' = w2
    /\ - half <= w1
    /\ (- o < - half -> w1 < 0)
    /\ (- half <= - o -> w1 = - o)
    /\ (exists k : Z, w1 == - o + inject_Z k * half)
    /\ w2 <= 0
    /\ (0 < w1 -> - half < w2)
    /\ (w1 <= 0 -> w2 = w1)
    /\ (exists k : Z, w2 == w1 + inject_Z k * half).
Proof.
  intros half Hne Hh Ho Hf.
  pose proof (@jump_fuel_enough half (- o) fuel Hh Hf) as Hfuel.
  destruct (Qabs_both (- o)) as [Hp Hm].
  assert (Hnn : 0 <= inject_Z (Z.of_nat fuel) * half).
  { apply Qmult_le_0_compat; [| lra].
    change 0 with (inject_Z 0). rewrite <- Zle_Qle. lia. }
  destruct (@normalize_up_spec half Hh fuel (- o))
    as (w1 & Hw1 & Hlo1 & Hneg1 & Hsame1 & Hk1); [lra |].
  destruct (@normalize_down_spec half Hh fuel w1)
    as (w2 & Hw2 & Hhi2 & Hpos2 & Hsame2 & Hk2).
  { destruct (Qlt_le_dec (- o) (- half)) as [Hl | Hg].
    - specialize (Hneg1 Hl). lra.
    - rewrite (Hsame1 Hg). lra. }
  exists w1, w2.
  unfold TimelineCore.jumpToIndex.
  rewrite (length_eqb_nonempty Hne), Ho. fold half. q_ops.
  rewrite Hw1, Hw2. eexists. split; [reflexivity |].
  split; [reflexivity |]. auto 10.
Qed.

(** X6. What [jumpToIndex] really does when wrapping is enabled: given
    enough iterations it returns, the position it writes differs from
    -offset by a whole number of periods and lies in the closed interval
    [-halfTrackHeight, 0]; it is the lower end -halfTrackHeight exactly
    when the offset is a positive whole multiple of the period, and
    otherwise lies in (-halfTrackHeight, 0]. *)
Theorem jumpToIndex_lands_in_closed_period :
  forall (c : TimelineCore.t Q) (idx : Z),
    let half := TimelineCore.halfTrackHeight c in
    TimelineCore.offsets c <> [] ->
    0 < half ->
    exists (o : Q) (fuel0 : nat),
      array_get (TimelineCore.offsets c)
                (clamp_index (length (TimelineCore.offsets c)) idx) = Some o
      /\ forall fuel : nat, (fuel0 <= fuel)%nat ->
           exists c',
             TimelineCore.jumpToIndex fuel idx c = Some c'
             /\ - half <= TimelineCore.posY c'
             /\ TimelineCore.posY c' <= 0
             /\ (exists k : Z,
                    TimelineCore.posY c' == - o + inject_Z k * half)
             /\ (TimelineCore.posY c' == - half
                 <-> exists n : Z, (1 <= n)%Z /\ o == inject_Z n * half).
Proof.
  intros c idx half Hne Hh.
  destruct (array_get_clamped idx Hne) as [o Ho].
  exists o, (jump_fuel half (- o)). split; [exact Ho |].
  intros fuel Hf.
  destruct (@jumpToIndex_trace c idx o fuel Hne Hh Ho Hf)
    as (w1 & w2 & c' & Hc' & Hy & Hlo1 & Hneg1 & Hsame1 & (k1 & Hk1)
        & Hhi2 & Hpos2 & Hsame2 & (k2 & Hk2)).
  fold half in Hlo1, Hneg1, Hsame1, Hk1, Hpos2, Hk2.
  exists c'. rewrite Hy. split; [exact Hc' |].
  assert (Hlo2 : - half <= w2).
  { destruct (Qlt_le_dec 0 w1) as [Hl | Hg].
    - specialize (Hpos2 Hl). lra.
    - rewrite (Hsame2 Hg). exact Hlo1. }
  assert (Hk : w2 == - o + inject_Z (k1 + k2) * half).
  { rewrite Hk2, Hk1, inject_Z_plus. ring. }
  split; [exact Hlo2 |]. split; [exact Hhi2 |].
  split; [exists (k1 + k2)%Z; exact Hk |].
  split.
  - intros He.
    exists (k1 + k2 + 1)%Z.
    assert (Ho' : o == inject_Z (k1 + k2 + 1) * half).
    { rewrite (inject_Z_plus (k1 + k2) 1). change (inject_Z 1) with 1.
      clear - Hk He. revert Hk. generalize (inject_Z (k1 + k2)) as K.
      intros K Hk. lra. }
    split; [| exact Ho'].
    assert (Hpos : 0 < o).
    { destruct (Qlt_le_dec 0 o) as [Hp | Hn]; [exact Hp | exfalso].
      assert (Hw1 : w1 = - o) by (apply Hsame1; lra).
      destruct (Qlt_le_dec 0 w1) as [Hl | Hg].
      - specialize (Hpos2 Hl). lra.
      - rewrite (Hsame2 Hg), Hw1 in He. lra. }
    assert (H0 : inject_Z 0 < inject_Z (k1 + k2 + 1)).
    { apply (@Qmult_pos_cancel_lt _ _ half Hh).
      change (inject_Z 0) with 0. lra. }
    rewrite <- Zlt_Qlt in H0. lia.
  - intros (n & Hn & Hon).
    assert (Hn1 : inject_Z 1 <= inject_Z n) by (rewrite <- Zle_Qle; lia).
    change (inject_Z 1) with 1 in Hn1.
    assert (Hho : half <= o).
    { rewrite Hon. rewrite <- (Qmult_1_l half) at 1.
      apply Qmult_le_compat_r; lra. }
    assert (Hw1neg : w1 < 0).
    { destruct (Qlt_le_dec (- o) (- half)) as [Hl | Hg].
      - apply Hneg1, Hl.
      - rewrite (Hsame1 Hg). lra. }
    assert (Hw2 : w2 = w1) by (apply Hsame2; lra).
    assert (Hprod : w2 == inject_Z (k1 + k2 - n) * half).
    { unfold Z.sub. rewrite (inject_Z_plus (k1 + k2)), inject_Z_opp.
      clear - Hk Hon. revert Hk Hon.
      generalize (inject_Z (k1 + k2)) as K, (inject_Z n) as N.
      intros K N Hk Hon. rewrite Hk, Hon. ring. }
    assert (Hm : (k1 + k2 - n)%Z = (-1)%Z).
    { rewrite Hw2 in Hlo2, Hprod.
      apply (@multiple_in_last_period _ half Hh); rewrite <- Hprod; lra. }
    rewrite Hprod, Hm. change (inject_Z (-1)) with (- (1)). ring.
Qed.

Lemma jumpToIndex_lands_in_closed_period_witness :
  exists (o : Q) (fuel0 : nat),
    array_get (TimelineCore.offsets (demo_core Q))
      (clamp_index (length (TimelineCore.offsets (demo_core Q))) 2) = Some o
    /\ forall fuel : nat, (fuel0 <= fuel)%nat ->
         exists c',
           TimelineCore.jumpToIndex fuel 2 (demo_core Q) = Some c'
           /\ - TimelineCore.halfTrackHeight (demo_core Q)
              <= TimelineCore.posY c'
           /\ TimelineCore.posY c' <= 0
           /\ (exists k : Z,
                  TimelineCore.posY c'
                  == - o + inject_Z k
                           * TimelineCore.halfTrackHeight (demo_core Q))
           /\ (TimelineCore.posY c'
               == - TimelineCore.halfTrackHeight (demo_core Q)
               <-> exists n : Z,
                     (1 <= n)%Z
                     /\ o == inject_Z n
                             * TimelineCore.halfTrackHeight (demo_core Q)).
Proof.
  apply (@jumpToIndex_lands_in_closed_period (demo_core Q) 2).
  - vm_compute. discriminate.
  - vm_compute. reflexivity.
Defined.

(* ================================================================= *)
(** ** Jumping, snapping and the nearest card *)

Lemma array_get_In {A : Type} (xs : list A) (i : Z) (x : A) :
  array_get xs i = Some x -> In x xs.
Proof.
  unfold array_get. destruct (i <? 0)%Z; [discriminate |].
  apply nth_error_In.
Qed.

(** A jump whose target needs no wrapping writes -offset at once. *)
Lemma jumpToIndex_exact (c : TimelineCore.t Q) (idx : Z) (o : Q)
      (fuel : nat) :
  TimelineCore.offsets c <> [] ->
  array_get (TimelineCore.offsets c)
            (clamp_index (length (TimelineCore.offsets c)) idx) = Some o ->
  0 <= o ->
  (0 < TimelineCore.halfTrackHeight c ->
   o <= TimelineCore.halfTrackHeight c) ->
  TimelineCore.jumpToIndex fuel idx c
  = Some (TimelineCore._applyTransform (TimelineCore.set_posY (- o) c)).
Proof.
  intros Hne Ho Hpos Hle. unfold TimelineCore.jumpToIndex.
  rewrite (length_eqb_nonempty Hne), Ho.
  rewrite normalize_up_unfold.
  destruct (Q_ltb_spec (num_of_Z 0) (TimelineCore.halfTrackHeight c))
    as [Hh | Hh]; cbn [andb].
  - destruct (Q_ltb_spec (nopp o) (nopp (TimelineCore.halfTrackHeight c)))
      as [Hx | _].
    { q_ops. change (inject_Z 0) with 0 in Hh. specialize (Hle Hh). lra. }
    rewrite normalize_down_unfold.
    destruct (Q_ltb_spec (num_of_Z 0) (TimelineCore.halfTrackHeight c))
      as [_ | Hn]; [| contradiction].
    destruct (Q_ltb_spec (num_of_Z 0) (nopp o)) as [Hx | _].
    { q_ops. change (inject_Z 0) with 0 in Hx. lra. }
    reflexivity.
  - rewrite normalize_down_unfold.
    destruct (Q_ltb_spec (num_of_Z 0) (TimelineCore.halfTrackHeight c))
      as [Hp | _]; [contradiction |].
    reflexivity.
Qed.

(** X7. When the offset of the (clamped) index lies in [0, halfTrackHeight],
    or wrapping is disabled and the offset is not negative, [jumpToIndex]
    needs no loop iteration at all and moves the engine exactly to
    [posYForIndex] of that index, which it also writes on the track. *)
Theorem jumpToIndex_is_posYForIndex :
  forall (c : TimelineCore.t Q) (idx : Z) (fuel : nat),
    TimelineCore.offsets c <> [] ->
    offsets_within_period c ->
    exists c',
      TimelineCore.jumpToIndex fuel idx c = Some c'
      /\ TimelineCore.posYForIndex idx c = Some (TimelineCore.posY c')
      /\ style_transform (TimelineCore.track c')
         = Some (TimelineCore.posY c')
      /\ TimelineCore.offsets c' = TimelineCore.offsets c
      /\ TimelineCore.autoScroll c' = TimelineCore.autoScroll c.
Proof.
  intros c idx fuel Hne Hin.
  destruct (array_get_clamped idx Hne) as [o Ho].
  destruct (Hin o (@array_get_In _ _ _ _ Ho)) as [Hpos Hle].
  rewrite (@jumpToIndex_exact c idx o fuel Hne Ho Hpos Hle).
  eexists. split; [reflexivity |].
  unfold TimelineCore.posYForIndex.
  rewrite (length_eqb_nonempty Hne), Ho. simpl. auto.
Qed.

Lemma jumpToIndex_is_posYForIndex_witness :
  exists c',
    TimelineCore.jumpToIndex 0 2 (demo_core Q) = Some c'
    /\ TimelineCore.posYForIndex 2 (demo_core Q)
       = Some (TimelineCore.posY c')
    /\ style_transform (TimelineCore.track c')
       = Some (TimelineCore.posY c')
    /\ TimelineCore.offsets c' = TimelineCore.offsets (demo_core Q)
    /\ TimelineCore.autoScroll c' = TimelineCore.autoScroll (demo_core Q).
Proof.
  apply (@jumpToIndex_is_posYForIndex (demo_core Q) 2 0%nat).
  - vm_compute. discriminate.
  - intros o Ho. vm_compute in Ho.
    destruct Ho as [<- | [<- | [<- | [<- | []]]]];
      (split; [| intros _]; vm_compute; discriminate).
Defined.

Lemma strictly_increasing_head (a : Q) (rest : list Q) :
  strictly_increasing (a :: rest) ->
  forall k, (k < length rest)%nat -> a < nth k rest 0.
Proof.
  revert a. induction rest as [| b rest IH]; intros a Hinc k Hk;
    [simpl in Hk; lia |].
  destruct Hinc as [Hab Hinc].
  destruct k as [| k]; [exact Hab |].
  simpl. simpl in Hk.
  pose proof (IH b Hinc k ltac:(lia)). lra.
Qed.

Lemma strictly_increasing_tail (a : Q) (rest : list Q) :
  strictly_increasing (a :: rest) -> strictly_increasing rest.
Proof. destruct rest as [| b rest]; [intros _; exact I | intros [_ H]; exact H]. Qed.

Lemma strictly_increasing_nth (offs : list Q) :
  strictly_increasing offs ->
  forall j k, (j < k)%nat -> (k < length offs)%nat ->
    nth j offs 0 < nth k offs 0.
Proof.
  induction offs as [| a rest IH]; intros Hinc j k Hjk Hk;
    [simpl in Hk; lia |].
  destruct k as [| k]; [lia |]. simpl in Hk.
  destruct j as [| j].
  - simpl. apply (@strictly_increasing_head _ _ Hinc). lia.
  - simpl. apply IH; [apply (@strictly_increasing_tail _ _ Hinc) | lia | lia].
Qed.

Lemma Qabs_zero_le (x : Q) : Qabs x <= 0 -> x == 0.
Proof.
  intros H. pose proof (Qabs_nonneg x).
  destruct (Qabs_both x). lra.
Qed.

(** On a table of distinct ascending offsets, the nearest card to the
    position -offset[i] is card [i]. *)
Lemma nearest_of_card_position (offs : list Q) (i : nat) :
  strictly_increasing offs ->
  (i < length offs)%nat ->
  0 <= nth i offs 0 ->
  TimelineCore.nearest_scan (Qabs (- nth i offs 0)) offs 0 None 0 = i.
Proof.
  intros Hinc Hi Hpos.
  destruct (@nearest_scan_spec (Qabs (- nth i offs 0)) offs 0%nat None 0%nat)
    as [[_ Hnil] | (k & Hk & Hr & _ & _ & Hmin)].
  { subst offs. simpl in Hi. lia. }
  rewrite Hr. simpl.
  specialize (Hmin i Hi). cbv beta in Hmin.
  assert (Hdi : Qabs (Qabs (- nth i offs 0) - nth i offs 0) == 0).
  { rewrite Qabs_opp, (Qabs_pos _ Hpos).
    setoid_replace (nth i offs 0 - nth i offs 0) with 0 by ring.
    reflexivity. }
  rewrite Hdi in Hmin. apply Qabs_zero_le in Hmin.
  rewrite Qabs_opp, (Qabs_pos _ Hpos) in Hmin.
  destruct (Nat.lt_trichotomy k i) as [Hlt | [Heq | Hgt]]; [| exact Heq |].
  - pose proof (@strictly_increasing_nth offs Hinc k i Hlt Hi). lra.
  - pose proof (@strictly_increasing_nth offs Hinc i k Hgt Hk). lra.
Qed.

Lemma array_get_nth (offs : list Q) (i : Z) (o : Q) :
  array_get offs i = Some o ->
  (0 <= i)%Z /\ (Z.to_nat i < length offs)%nat /\ nth (Z.to_nat i) offs 0 = o.
Proof.
  unfold array_get. destruct (Z.ltb_spec i 0) as [| Hi]; [discriminate |].
  intros Hn. split; [exact Hi |].
  split; [apply nth_error_Some; rewrite Hn; discriminate |].
  now apply nth_error_nth.
Qed.

(** After a jump that needs no wrapping the card jumped to is the nearest
    one. *)
Lemma nearest_after_exact_jump :
  forall (c c' : TimelineCore.t Q) (idx : Z) (fuel : nat),
    TimelineCore.offsets c <> [] ->
    strictly_increasing (TimelineCore.offsets c) ->
    offsets_within_period c ->
    TimelineCore.jumpToIndex fuel idx c = Some c' ->
    Z.of_nat (TimelineCore.nearestCardIndex c')
    = clamp_index (length (TimelineCore.offsets c)) idx.
Proof.
  intros c c' idx fuel Hne Hinc Hin Hj.
  destruct (array_get_clamped idx Hne) as [o Ho].
  destruct (Hin o (@array_get_In _ _ _ _ Ho)) as [Hpos Hle].
  rewrite (@jumpToIndex_exact c idx o fuel Hne Ho Hpos Hle) in Hj.
  injection Hj as <-.
  unfold TimelineCore.nearestCardIndex.
  cbn [TimelineCore.offsets TimelineCore._applyTransform
       TimelineCore.set_track TimelineCore.set_posY TimelineCore.posY].
  rewrite (length_eqb_nonempty Hne).
  destruct (@array_get_nth _ _ _ Ho) as (Hi0 & Hilen & Hnth).
  q_ops. rewrite <- Hnth.
  rewrite nearest_of_card_position; [lia | exact Hinc | exact Hilen |].
  rewrite Hnth. exact Hpos.
Qed.

(** A jump that needs no wrapping returns, whatever the iteration bound. *)
Lemma exact_jump_returns :
  forall (c : TimelineCore.t Q) (idx : Z) (fuel : nat),
    TimelineCore.offsets c <> [] ->
    offsets_within_period c ->
    exists c', TimelineCore.jumpToIndex fuel idx c = Some c'.
Proof.
  intros c idx fuel Hne Hin.
  destruct (array_get_clamped idx Hne) as [o Ho].
  destruct (Hin o (@array_get_In _ _ _ _ Ho)) as [Hpos Hle].
  rewrite (@jumpToIndex_exact c idx o fuel Hne Ho Hpos Hle).
  eexists. reflexivity.
Qed.

(** X8. Jumping to a card and asking for the nearest card gives that card
    back: on a table of strictly increasing offsets that a jump reaches
    without wrapping, [jumpToIndex(i)] returns and [nearestCardIndex]
    afterwards is the clamped [i]. *)
Theorem nearest_after_jump :
  forall (c : TimelineCore.t Q) (idx : Z) (fuel : nat),
    TimelineCore.offsets c <> [] ->
    strictly_increasing (TimelineCore.offsets c) ->
    offsets_within_period c ->
    exists c',
      TimelineCore.jumpToIndex fuel idx c = Some c'
      /\ Z.of_nat (TimelineCore.nearestCardIndex c')
         = clamp_index (length (TimelineCore.offsets c)) idx.
Proof.
  intros c idx fuel Hne Hinc Hin.
  destruct (@exact_jump_returns c idx fuel Hne Hin) as [c' Hj].
  exists c'. split; [exact Hj |].
  exact (@nearest_after_exact_jump c c' idx fuel Hne Hinc Hin Hj).
Qed.

Lemma nearest_after_jump_witness :
  exists c',
    TimelineCore.jumpToIndex 0 2 (demo_core Q) = Some c'
    /\ Z.of_nat (TimelineCore.nearestCardIndex c')
       = clamp_index (length (TimelineCore.offsets (demo_core Q))) 2.
Proof.
  apply (@nearest_after_jump (demo_core Q) 2 0%nat).
  - vm_compute. discriminate.
  - vm_compute. repeat split.
  - intros o Ho. vm_compute in Ho.
    destruct Ho as [<- | [<- | [<- | [<- | []]]]];
      (split; [| intros _]; vm_compute; discriminate).
Defined.

Lemma nearestCardIndex_bound (c : TimelineCore.t Q) :
  TimelineCore.offsets c <> [] ->
  (TimelineCore.nearestCardIndex c < length (TimelineCore.offsets c))%nat.
Proof.
  intros Hne. unfold TimelineCore.nearestCardIndex.
  rewrite (length_eqb_nonempty Hne).
  destruct (@nearest_scan_spec (nabs (TimelineCore.posY c))
              (TimelineCore.offsets c) 0%nat None 0%nat)
    as [[_ Habs] | (k & Hk & Hr & _)]; [contradiction |].
  rewrite Hr. simpl. exact Hk.
Qed.

(** What [_onChange] returns is a fixed point of [_onChange]. *)
Lemma snap_fixed_point :
  forall (c c1 : TimelineCore.t Q) (fuel : nat),
    strictly_increasing (TimelineCore.offsets c) ->
    offsets_within_period c ->
    SliderController._onChange fuel c = Some c1 ->
    SliderController._onChange fuel c1 = Some c1
    /\ (TimelineCore.offsets c <> [] ->
        exists o,
          nth_error (TimelineCore.offsets c)
                    (TimelineCore.nearestCardIndex c) = Some o
          /\ TimelineCore.posY c1 = - o).
Proof.
  intros c c1 fuel Hinc Hin. unfold SliderController._onChange.
  destruct (TimelineCore.offsets c) as [| o0 rest] eqn:Hoffs.
  { simpl. intros [= <-]. rewrite Hoffs. simpl. split; congruence. }
  assert (Hne : TimelineCore.offsets c <> []) by (rewrite Hoffs; discriminate).
  rewrite <- Hoffs in *. rewrite (length_eqb_nonempty Hne). intros Hj.
  set (n := TimelineCore.nearestCardIndex c) in *.
  destruct (array_get_clamped (Z.of_nat n) Hne) as [o Ho].
  destruct (Hin o (@array_get_In _ _ _ _ Ho)) as [Hpos Hle].
  pose proof (@nearest_after_exact_jump c c1 (Z.of_nat n) fuel Hne Hinc Hin Hj)
    as Hnear.
  rewrite (@jumpToIndex_exact c (Z.of_nat n) o fuel Hne Ho Hpos Hle) in Hj.
  injection Hj as Hc1.
  assert (Hn : (n < length (TimelineCore.offsets c))%nat).
  { apply (@nearestCardIndex_bound c Hne). }
  rewrite clamp_index_inside in Hnear, Ho by lia.
  split.
  - assert (Ho1 : TimelineCore.offsets c1 = TimelineCore.offsets c)
      by (rewrite <- Hc1; reflexivity).
    assert (Hh1 : TimelineCore.halfTrackHeight c1
                  = TimelineCore.halfTrackHeight c)
      by (rewrite <- Hc1; reflexivity).
    rewrite Ho1, (length_eqb_nonempty Hne), Hnear.
    assert (Hne1 : TimelineCore.offsets c1 <> []) by (rewrite Ho1; exact Hne).
    assert (Ho' : array_get (TimelineCore.offsets c1)
                    (clamp_index (length (TimelineCore.offsets c1))
                                 (Z.of_nat n)) = Some o).
    { rewrite Ho1, clamp_index_inside by lia. exact Ho. }
    rewrite (@jumpToIndex_exact c1 (Z.of_nat n) o fuel Hne1 Ho' Hpos).
    + rewrite <- Hc1. reflexivity.
    + rewrite Hh1. exact Hle.
  - intros _. exists o. split.
    + unfold array_get in Ho.
      destruct (Z.ltb_spec (Z.of_nat n) 0) as [| _]; [lia |].
      rewrite Nat2Z.id in Ho. exact Ho.
    + rewrite <- Hc1. reflexivity.
Qed.

(** X9. Releasing the slider twice is releasing it once: on a table of
    strictly increasing offsets that a jump reaches without wrapping,
    [_onChange] returns, the engine it leaves is a fixed point of
    [_onChange], the snap lands on a card, and that card is the one that
    was nearest. *)
Theorem snap_is_idempotent :
  forall (c : TimelineCore.t Q) (fuel : nat),
    strictly_increasing (TimelineCore.offsets c) ->
    offsets_within_period c ->
    exists c1,
      SliderController._onChange fuel c = Some c1
      /\ SliderController._onChange fuel c1 = Some c1
      /\ (TimelineCore.offsets c <> [] ->
          exists o,
            nth_error (TimelineCore.offsets c)
                      (TimelineCore.nearestCardIndex c) = Some o
            /\ TimelineCore.posY c1 = - o).
Proof.
  intros c fuel Hinc Hin.
  assert (Hret : exists c1, SliderController._onChange fuel c = Some c1).
  { unfold SliderController._onChange.
    destruct (TimelineCore.offsets c) as [| o0 rest] eqn:Hoffs.
    - exists c. reflexivity.
    - cbn [length Nat.eqb].
      apply exact_jump_returns; [rewrite Hoffs; discriminate | exact Hin]. }
  destruct Hret as [c1 Hc1]. exists c1. split; [exact Hc1 |].
  exact (@snap_fixed_point c c1 fuel Hinc Hin Hc1).
Qed.

Lemma snap_is_idempotent_witness :
  exists c1,
    SliderController._onChange 0
      (TimelineCore.set_posY (- (145)) (demo_core Q)) = Some c1
    /\ SliderController._onChange 0 c1 = Some c1.
Proof.
  destruct (@snap_is_idempotent
              (TimelineCore.set_posY (- (145)) (demo_core Q)) 0%nat)
    as (c1 & H1 & H2 & _).
  - vm_compute. repeat split.
  - intros o Ho. vm_compute in Ho.
    destruct Ho as [<- | [<- | [<- | [<- | []]]]];
      (split; [| intros _]; vm_compute; discriminate).
  - exists c1. split; assumption.
Defined.

(* ================================================================= *)
(** ** More on frames *)

(* ================================================================= *)
(** ** Arithmetic with rounding *)

Lemma Qle_bool_spec (x y : Q) : reflect (x <= y) (Qle_bool x y).
Proof.
  destruct (Qle_bool x y) eqn:E; constructor.
  - now apply Qle_bool_iff.
  - intros Hle. apply Qle_bool_iff in Hle. congruence.
Qed.

Lemma Qgt_bool_spec (x y : Q) : reflect (x < y) (negb (Qle_bool y x)).
Proof.
  destruct (Qle_bool_spec y x) as [Hle | Hgt]; simpl; constructor; lra.
Qed.

(** A monotone rounding respects the equality of rationals. *)
Lemma monotone_rounding_proper (rnd : Q -> Q) :
  monotone_rounding rnd -> forall x y : Q, x == y -> rnd x == rnd y.
Proof.
  intros Hm x y Hxy. apply Qle_antisym; apply Hm; lra.
Qed.

(** Unfolds the number operations of the rounded carrier. *)
Ltac r_ops :=
  cbn [nadd nsub nmul ndiv nopp nabs nltb nleb neqb num_of_Z nfloor
       nlt_infinity Rounded_JsNumber] in *.

Section RoundedWrap.
Variable rnd : Q -> Q.
Variable half : Q.
Hypothesis rnd_mono : monotone_rounding rnd.
Hypothesis exact_zero : exact_at rnd 0.
Hypothesis exact_minus_half : exact_at rnd (- half).
Hypothesis half_pos : 0 < half.

(** The wrap brings every value of [-2 half, half] into the closed
    period, whatever the rounding of its own sum or difference. *)
Lemma rounded_wrap_once (y : Q) :
  - half - half <= y -> y <= half ->
  in_closed_period half
    (@TimelineCore.wrap_once Q (Rounded_JsNumber rnd) half y).
Proof.
  intros Hlo Hhi. unfold TimelineCore.wrap_once, in_closed_period.
  unfold exact_at in *. r_ops. change (inject_Z 0) with 0.
  destruct (Qgt_bool_spec 0 half) as [_ | Hn]; [| contradiction].
  destruct (Qle_bool_spec y (- half)) as [Hle | Hgt].
  - assert (H1 : rnd (- half) <= rnd (y + half)) by (apply rnd_mono; lra).
    assert (H2 : rnd (y + half) <= rnd 0) by (apply rnd_mono; lra).
    destruct (Qgt_bool_spec 0 (rnd (y + half))) as [Hp | _]; [lra |].
    split; lra.
  - destruct (Qgt_bool_spec 0 y) as [Hp | Hnp]; [| split; lra].
    assert (H1 : rnd (- half) <= rnd (y - half)) by (apply rnd_mono; lra).
    assert (H2 : rnd (y - half) <= rnd 0) by (apply rnd_mono; lra).
    split; lra.
Qed.

End RoundedWrap.

(** [round_to_quarter] is such a rounding. *)
Lemma round_to_quarter_monotone : monotone_rounding round_to_quarter.
Proof.
  intros x y Hxy. unfold round_to_quarter.
  assert (Hf : (Qfloor (x * 4 + (1 # 2)) <= Qfloor (y * 4 + (1 # 2)))%Z)
    by (apply Qfloor_resp_le; lra).
  rewrite Zle_Qle in Hf.
  unfold Qdiv. apply Qmult_le_compat_r; [exact Hf | ].
  vm_compute. discriminate.
Qed.

(** X10. The frame callback of master.js keeps the closed period under
    rounding: for every monotone rounding that leaves 0, the period, its
    opposite and twice its opposite as they are (exact arithmetic and
    binary64 are two), from a position in [-halfTrackHeight, 0], with the
    base speed and the held arrow speed both smaller in magnitude than a
    positive period, [animate] leaves the position in
    [-halfTrackHeight, 0] and writes it on the track.  The lower end
    cannot be left out: rounding can put the position on it. *)
Theorem master_animate_keeps_interval :
  forall (rnd : Q -> Q) (m : Master.t Q),
    let half := Master.halfTrackHeight m in
    let m' := @Master.animate Q (Rounded_JsNumber rnd) m in
    monotone_rounding rnd ->
    exact_at rnd 0 -> exact_at rnd half ->
    exact_at rnd (- half) -> exact_at rnd (- half - half) ->
    0 < half ->
    in_closed_period half (Master.posY m) ->
    Qabs (@Master.BASE_SPEED Q (Rounded_JsNumber rnd)) < half ->
    Qabs (Master.arrowSpeed m) < half ->
    in_closed_period half (Master.posY m')
    /\ Master.style_transform m' = Some (Master.posY m')
    /\ Master.halfTrackHeight m' = half
    /\ Master.arrowSpeed m' = Master.arrowSpeed m.
Proof.
  intros rnd m half m' Hm E0 Eh Emh Em2 Hh Hin Hb Ha.
  apply Qabs_bounds in Hb. apply Qabs_bounds in Ha.
  destruct Hb as [Hb1 Hb2], Ha as [Ha1 Ha2].
  subst m'. unfold Master.animate.
  cbn [Master.posY Master.style_transform Master.halfTrackHeight
       Master.arrowSpeed].
  fold half.
  split; [| repeat split].
  assert (Hadv : forall x : Q,
             - half - half <= x -> x <= half ->
             - half - half <= rnd x /\ rnd x <= half).
  { intros x Hx1 Hx2. unfold exact_at in *.
    pose proof (Hm _ _ Hx1). pose proof (Hm _ _ Hx2). split; lra. }
  destruct Hin as [Hlo Hhi].
  apply rounded_wrap_once; try assumption;
    destruct (neqb (Master.arrowSpeed m) (num_of_Z 0));
    destruct (Master.autoScroll m); cbn [negb andb]; r_ops;
    try apply Hadv; lra.
Qed.

Lemma master_animate_keeps_interval_witness :
  in_closed_period 420
    (Master.posY
       (@Master.animate Q (Rounded_JsNumber round_to_quarter)
          {| Master.posY := - (249 # 10); Master.autoScroll := false;
             Master.userPaused := true; Master.arrowSpeed := 25;
             Master.offsets := [0; 250];
             Master.halfTrackHeight := 420;
             Master.style_transform := None |})).
Proof.
  refine (proj1 (@master_animate_keeps_interval round_to_quarter
                   {| Master.posY := - (249 # 10);
                      Master.autoScroll := false;
                      Master.userPaused := true; Master.arrowSpeed := 25;
                      Master.offsets := [0; 250];
                      Master.halfTrackHeight := 420;
                      Master.style_transform := None |}
                   round_to_quarter_monotone _ _ _ _ _ _ _ _)).
  - vm_compute. reflexivity.
  - vm_compute. reflexivity.
  - vm_compute. reflexivity.
  - vm_compute. reflexivity.
  - vm_compute. reflexivity.
  - split; vm_compute; discriminate.
  - vm_compute. reflexivity.
  - vm_compute. reflexivity.
Defined.

Section RoundedFrames.
Variable rnd : Q -> Q.

Lemma rounded_frame_keeps (arrow : Q) (c : TimelineCore.t Q) :
  TimelineCore.halfTrackHeight (@Frames.frame Q (Rounded_JsNumber rnd) arrow c)
    = TimelineCore.halfTrackHeight c
  /\ TimelineCore.BASE_SPEED (@Frames.frame Q (Rounded_JsNumber rnd) arrow c)
     = TimelineCore.BASE_SPEED c
  /\ TimelineCore._running (@Frames.frame Q (Rounded_JsNumber rnd) arrow c)
     = TimelineCore._running c.
Proof.
  unfold Frames.frame.
  destruct (@animate_keeps_tables Q (Rounded_JsNumber rnd)
              (@Controls.tick Q (Rounded_JsNumber rnd)
                 {| Controls.arrowSpeed := arrow;
                    Controls.FAST_SPEED := @num_of_Z Q (Rounded_JsNumber rnd) 25 |} c))
    as (_ & Hh & Hb & Hr & _).
  rewrite Hh, Hb, Hr. unfold Controls.tick.
  destruct (negb _); simpl; auto.
Qed.

Lemma rounded_frame_closed (arrow : Q) (c : TimelineCore.t Q) :
  let half := TimelineCore.halfTrackHeight c in
  monotone_rounding rnd ->
  exact_at rnd 0 -> exact_at rnd half ->
  exact_at rnd (- half) -> exact_at rnd (- half - half) ->
  0 < half ->
  in_closed_period half (TimelineCore.posY c) ->
  Qabs (TimelineCore.BASE_SPEED c) < half ->
  TimelineCore._running c = true ->
  Qabs arrow < half ->
  in_closed_period half (TimelineCore.posY (@Frames.frame Q (Rounded_JsNumber rnd) arrow c)).
Proof.
  intros half Hm E0 Eh Emh Em2 Hh [Hlo Hhi] Hb Hr Ha.
  apply Qabs_bounds in Hb. apply Qabs_bounds in Ha.
  destruct Hb as [Hb1 Hb2], Ha as [Ha1 Ha2].
  assert (Hadv : forall x : Q,
             - half - half <= x -> x <= half ->
             - half - half <= rnd x /\ rnd x <= half).
  { intros x Hx1 Hx2. unfold exact_at in *.
    pose proof (Hm _ _ Hx1). pose proof (Hm _ _ Hx2). split; lra. }
  unfold Frames.frame, Controls.tick. cbn [Controls.arrowSpeed].
  destruct (negb (@neqb Q (Rounded_JsNumber rnd) arrow (@num_of_Z Q (Rounded_JsNumber rnd) 0))).
  - unfold TimelineCore._animate.
    cbn [TimelineCore._running TimelineCore.autoScroll TimelineCore.posY
         TimelineCore.halfTrackHeight TimelineCore.BASE_SPEED
         TimelineCore.setAutoScroll TimelineCore.set_posY
         TimelineCore.requestAnimationFrame TimelineCore._applyTransform
         TimelineCore.set_track].
    rewrite Hr.
    cbn [TimelineCore._running TimelineCore.autoScroll TimelineCore.posY
         TimelineCore.halfTrackHeight TimelineCore.BASE_SPEED
         TimelineCore.setAutoScroll TimelineCore.set_posY
         TimelineCore.requestAnimationFrame TimelineCore._applyTransform
         TimelineCore.set_track].
    fold half.
    apply rounded_wrap_once; try assumption; r_ops; apply Hadv; lra.
  - unfold TimelineCore._animate. rewrite Hr.
    cbn [TimelineCore._running TimelineCore.autoScroll TimelineCore.posY
         TimelineCore.halfTrackHeight TimelineCore.BASE_SPEED
         TimelineCore.setAutoScroll TimelineCore.set_posY
         TimelineCore.requestAnimationFrame TimelineCore._applyTransform
         TimelineCore.set_track].
    fold half.
    apply rounded_wrap_once; try assumption;
      destruct (TimelineCore.autoScroll c); r_ops;
      try apply Hadv; lra.
Qed.

Lemma rounded_run_closed (evs : list (@Frames.event Q)) :
  forall c : TimelineCore.t Q,
    let half := TimelineCore.halfTrackHeight c in
    monotone_rounding rnd ->
    exact_at rnd 0 -> exact_at rnd half ->
    exact_at rnd (- half) -> exact_at rnd (- half - half) ->
    0 < half ->
    in_closed_period half (TimelineCore.posY c) ->
    Qabs (TimelineCore.BASE_SPEED c) < half ->
    TimelineCore._running c = true ->
    (forall a, In (Frames.Frame a) evs -> Qabs a < half) ->
    in_closed_period half (TimelineCore.posY (@Frames.run Q (Rounded_JsNumber rnd) evs c)).
Proof.
  induction evs as [| ev evs IH];
    intros c half Hm E0 Eh Emh Em2 Hh Hin Hb Hr Hevs.
  - exact Hin.
  - unfold Frames.run. simpl fold_left.
    change (fold_left (@Frames.step Q (Rounded_JsNumber rnd)) evs (@Frames.step Q (Rounded_JsNumber rnd) c ev))
      with (@Frames.run Q (Rounded_JsNumber rnd) evs (@Frames.step Q (Rounded_JsNumber rnd) c ev)).
    destruct ev as [arrow | b].
    + simpl Frames.step.
      destruct (rounded_frame_keeps arrow c) as (Hh' & Hb' & Hr').
      assert (Ha : Qabs arrow < half) by (apply Hevs; left; reflexivity).
      pose proof (@rounded_frame_closed arrow c Hm E0 Eh Emh Em2 Hh Hin Hb
                    Hr Ha) as Hin'.
      subst half. rewrite <- Hh'.
      rewrite <- Hh' in Hin', Hh, Hb, Hevs, Eh, Emh, Em2.
      rewrite <- Hb' in Hb. rewrite <- Hr' in Hr.
      apply IH; try assumption.
      intros a Hina. apply Hevs. right. exact Hina.
    + simpl Frames.step.
      apply (IH (TimelineCore.setAutoScroll b c)); try assumption.
      intros a Hina. apply Hevs. right. exact Hina.
Qed.

End RoundedFrames.

(** X22. What the engine keeps when its arithmetic rounds.  For every
    monotone rounding that leaves 0, the period, its opposite and twice
    its opposite as they are (exact arithmetic and binary64 are two), a
    running engine with a positive period whose position lies in
    [-halfTrackHeight, 0] keeps it there along every sequence of frames
    with arrow speeds smaller in magnitude than the period, and of
    auto-scroll changes, when the base speed is smaller than the period
    too. *)
Theorem frames_keep_closed_period :
  forall (rnd : Q -> Q) (c : TimelineCore.t Q)
         (evs : list (@Frames.event Q)),
    let half := TimelineCore.halfTrackHeight c in
    monotone_rounding rnd ->
    exact_at rnd 0 -> exact_at rnd half ->
    exact_at rnd (- half) -> exact_at rnd (- half - half) ->
    0 < half ->
    in_closed_period half (TimelineCore.posY c) ->
    Qabs (TimelineCore.BASE_SPEED c) < half ->
    TimelineCore._running c = true ->
    (forall a, In (Frames.Frame a) evs -> Qabs a < half) ->
    in_closed_period half
      (TimelineCore.posY
         (@Frames.run Q (Rounded_JsNumber rnd) evs c)).
Proof.
  intros rnd c evs half Hm E0 Eh Emh Em2 Hh Hin Hb Hr Hevs.
  apply rounded_run_closed; assumption.
Qed.

Lemma frames_keep_closed_period_witness :
  in_closed_period 420
    (TimelineCore.posY
       (@Frames.run Q (Rounded_JsNumber round_to_quarter)
          [Frames.Frame 25; Frames.SetAutoScroll true; Frames.Frame 0]
          (TimelineCore.set_posY (- (249 # 10))
             (@two_card_core Q (Rounded_JsNumber round_to_quarter))))).
Proof.
  apply (@frames_keep_closed_period round_to_quarter
           (TimelineCore.set_posY (- (249 # 10))
              (@two_card_core Q (Rounded_JsNumber round_to_quarter)))
           [Frames.Frame 25; Frames.SetAutoScroll true; Frames.Frame 0]
           round_to_quarter_monotone).
  - vm_compute. reflexivity.
  - vm_compute. reflexivity.
  - vm_compute. reflexivity.
  - vm_compute. reflexivity.
  - vm_compute. reflexivity.
  - split; vm_compute; discriminate.
  - vm_compute. reflexivity.
  - vm_compute. reflexivity.
  - intros a [Ha | [Ha | [Ha | []]]]; try discriminate Ha;
      injection Ha as <-; vm_compute; reflexivity.
Defined.

(** X11. An engine started on any track stays wrapped: after [start] on a
    freshly constructed engine whose rounded half height is positive, every
    sequence of frames with arrow speeds smaller in magnitude than the
    period, and of auto-scroll changes, leaves the position in
    (-halfTrackHeight, 0]; the base speed needs no hypothesis, the period
    being a whole number of pixels. *)
Theorem engine_started_on_track_stays_wrapped :
  forall (tr : TrackElement Q) (evs : list (@Frames.event Q)),
    let c := TimelineCore.start (TimelineCore.constructor tr) in
    let half := TimelineCore.halfTrackHeight c in
    0 < half ->
    (forall a, In (Frames.Frame a) evs -> Qabs a < half) ->
    in_wrap_interval half (TimelineCore.posY (Frames.run evs c))
    /\ half = inject_Z (Math_round_half (scrollHeight tr)).
Proof.
  intros tr evs c half Hh Hevs.
  split; [apply started_engine_stays_wrapped; assumption |].
  subst half c. unfold TimelineCore.start.
  cbn [TimelineCore._running TimelineCore.constructor].
  cbn [TimelineCore.halfTrackHeight TimelineCore.requestAnimationFrame
       TimelineCore._applyTransform TimelineCore.set_track].
  destruct (computeOffsetsNow_keeps
              (TimelineCore.set_running true (TimelineCore.constructor tr)))
    as (_ & _ & _ & Hhalf).
  rewrite Hhalf. reflexivity.
Qed.

Lemma engine_started_on_track_stays_wrapped_witness :
  in_wrap_interval
    (TimelineCore.halfTrackHeight
       (TimelineCore.start (TimelineCore.constructor (plain_track Q))))
    (TimelineCore.posY
       (Frames.run [Frames.Frame 25; Frames.SetAutoScroll true;
                    Frames.Frame 0; Frames.Frame (- (25))]
          (TimelineCore.start (TimelineCore.constructor (plain_track Q))))).
Proof.
  refine (proj1 (@engine_started_on_track_stays_wrapped (plain_track Q)
            [Frames.Frame 25; Frames.SetAutoScroll true;
             Frames.Frame 0; Frames.Frame (- (25))] _ _)).
  - vm_compute. reflexivity.
  - intros a [Ha | [Ha | [Ha | [Ha | []]]]];
      try discriminate Ha; injection Ha as <-; vm_compute; reflexivity.
Defined.

(* ================================================================= *)
(** ** Frames without arrow *)

Section IdleFrames.
Context {num : Type} {JN : JsNumber num}.
Hypothesis zero_is_zero : neqb (num_of_Z 0) (num_of_Z 0) = true.

(** A frame without arrow of a paused, running engine: the wrap test and
    the transform, nothing else. *)
Lemma idle_frame (c : TimelineCore.t num) :
  TimelineCore._running c = true ->
  TimelineCore.autoScroll c = false ->
  Frames.frame (num_of_Z 0) c
  = TimelineCore.requestAnimationFrame
      (TimelineCore._applyTransform
         (TimelineCore.set_posY
            (TimelineCore.wrap_once (TimelineCore.halfTrackHeight c)
                                    (TimelineCore.posY c)) c)).
Proof.
  intros Hr Ha. unfold Frames.frame, Controls.tick.
  cbn [Controls.arrowSpeed]. rewrite zero_is_zero. cbn [negb].
  unfold TimelineCore._animate. rewrite Hr, Ha. reflexivity.
Qed.

Lemma idle_frames (c : TimelineCore.t num) (n : nat) :
  TimelineCore._running c = true ->
  TimelineCore.autoScroll c = false ->
  let cn := Nat.iter n (Frames.frame (num_of_Z 0)) c in
  TimelineCore._running cn = true
  /\ TimelineCore.autoScroll cn = false
  /\ TimelineCore.halfTrackHeight cn = TimelineCore.halfTrackHeight c
  /\ TimelineCore.posY cn
     = Nat.iter n (TimelineCore.wrap_once (TimelineCore.halfTrackHeight c))
                (TimelineCore.posY c).
Proof.
  intros Hr Ha. induction n as [| n IH]; [simpl; auto |].
  cbv zeta in *. rewrite !Nat.iter_succ.
  destruct IH as (IHr & IHa & IHh & IHp).
  rewrite (idle_frame _ IHr IHa).
  cbn [TimelineCore._running TimelineCore.autoScroll
       TimelineCore.halfTrackHeight TimelineCore.posY
       TimelineCore.requestAnimationFrame TimelineCore._applyTransform
       TimelineCore.set_track TimelineCore.set_posY].
  rewrite IHh, IHp. auto.
Qed.

(** A position the wrap test accepts is left as it is. *)
Lemma wrap_once_accepts (half y : num) :
  nltb (num_of_Z 0) half = false
  \/ (nleb y (nopp half) = false /\ nltb (num_of_Z 0) y = false) ->
  TimelineCore.wrap_once half y = y.
Proof.
  unfold TimelineCore.wrap_once. intros [Hd | [H1 H2]].
  - now rewrite Hd.
  - rewrite H1, H2. now destruct (nltb (num_of_Z 0) half).
Qed.

End IdleFrames.

(** X12. Holding an arrow switches auto-scroll off and nothing in the frame
    loop switches it on again.  On every carrier of numbers (on which 0
    equals 0), after a frame of a running engine with a non-zero arrow
    speed auto-scroll is off, and it is still off after any number of
    frames without arrow.  Those frames add nothing to the position: each
    applies the wrap test to it once more and writes it on the track, so a
    position the test accepts (wrapping disabled, or neither
    [posY <= -halfTrackHeight] nor [posY > 0]) stays where the arrow frame
    left it. *)
Theorem arrow_frame_pauses_for_good :
  forall (num : Type) (JN : JsNumber num)
         (c : TimelineCore.t num) (arrow : num) (n : nat),
    neqb (num_of_Z 0) (num_of_Z 0) = true ->
    neqb arrow (num_of_Z 0) = false ->
    TimelineCore._running c = true ->
    let half := TimelineCore.halfTrackHeight c in
    let c1 := Frames.frame arrow c in
    let cn := Nat.iter n (Frames.frame (num_of_Z 0)) c1 in
    TimelineCore.autoScroll c1 = false
    /\ TimelineCore.autoScroll cn = false
    /\ TimelineCore.posY cn
       = Nat.iter n (TimelineCore.wrap_once half) (TimelineCore.posY c1)
    /\ (nltb (num_of_Z 0) half = false
        \/ (nleb (TimelineCore.posY c1) (nopp half) = false
            /\ nltb (num_of_Z 0) (TimelineCore.posY c1) = false) ->
        TimelineCore.posY cn = TimelineCore.posY c1)
    /\ style_transform (TimelineCore.track cn) = Some (TimelineCore.posY cn).
Proof.
  intros num JN c arrow n Hz Hnz Hr half c1 cn.
  assert (Hc1 : c1 = TimelineCore.requestAnimationFrame
                  (TimelineCore._applyTransform
                     (TimelineCore.set_posY
                        (TimelineCore.wrap_once half
                           (nadd (TimelineCore.posY c) arrow))
                        (TimelineCore.setAutoScroll false
                           (TimelineCore.set_posY
                              (nadd (TimelineCore.posY c) arrow) c))))).
  { subst c1. unfold Frames.frame, Controls.tick.
    cbn [Controls.arrowSpeed]. rewrite Hnz. cbn [negb].
    unfold TimelineCore._animate.
    cbn [TimelineCore._running TimelineCore.autoScroll TimelineCore.posY
         TimelineCore.halfTrackHeight TimelineCore.setAutoScroll
         TimelineCore.set_posY].
    rewrite Hr. reflexivity. }
  assert (Ha1 : TimelineCore.autoScroll c1 = false)
    by (rewrite Hc1; reflexivity).
  assert (Hr1 : TimelineCore._running c1 = true)
    by (rewrite Hc1; exact Hr).
  assert (Hh1 : TimelineCore.halfTrackHeight c1 = half)
    by (rewrite Hc1; reflexivity).
  destruct (@idle_frames num JN Hz c1 n Hr1 Ha1) as (Hrn & Han & Hhn & Hpn).
  fold cn in Hrn, Han, Hhn, Hpn. rewrite Hh1 in Hpn.
  split; [exact Ha1 |]. split; [exact Han |]. split; [exact Hpn |].
  split.
  - intros Hacc. rewrite Hpn.
    pose proof (@wrap_once_accepts num JN half (TimelineCore.posY c1) Hacc)
      as Hfix.
    clear - Hfix. induction n as [| n IH]; [reflexivity |].
    rewrite Nat.iter_succ, IH. exact Hfix.
  - destruct n as [| n].
    + subst cn. cbn [Nat.iter]. rewrite Hc1. reflexivity.
    + subst cn. rewrite Nat.iter_succ.
      destruct (@idle_frames num JN Hz c1 n Hr1 Ha1) as (Hrm & Ham & _).
      rewrite (@idle_frame num JN Hz _ Hrm Ham). reflexivity.
Qed.

Lemma arrow_frame_pauses_for_good_witness :
  let c := TimelineCore.set_posY (-25 + 0x1p-47)%float
             (two_card_core float) in
  let c1 := Frames.frame 25%float c in
  TimelineCore.posY c1 = (-420)%float
  /\ TimelineCore.autoScroll (Nat.iter 3 (Frames.frame 0%float) c1) = false
  /\ TimelineCore.posY (Nat.iter 3 (Frames.frame 0%float) c1) = 0%float.
Proof.
  cbv zeta.
  destruct (@arrow_frame_pauses_for_good float float_JsNumber
              (TimelineCore.set_posY (-25 + 0x1p-47)%float
                 (two_card_core float)) 25%float 3%nat)
    as (_ & Ha & Hp & _).
  - vm_compute. reflexivity.
  - vm_compute. reflexivity.
  - vm_compute. reflexivity.
  - split; [vm_compute; reflexivity |]. split; [exact Ha |].
    etransitivity; [exact Hp | vm_compute; reflexivity].
Defined.

(* ================================================================= *)
(** ** Animation frames: how many loops run *)

Section PaintFacts.
Context {num : Type} {JN : JsNumber num}.
Import TimelineCore.

Lemma take_animate (c : t num) :
  Browser.take_frame_requests (_animate c)
  = Browser.take_frame_requests (_animate (Browser.take_frame_requests c)).
Proof.
  destruct c as [tr y a b cs os n h r p].
  unfold _animate, Browser.take_frame_requests. simpl.
  destruct r; reflexivity.
Qed.

Lemma take_idem (c : t num) :
  Browser.take_frame_requests (Browser.take_frame_requests c)
  = Browser.take_frame_requests c.
Proof. reflexivity. Qed.

Lemma take_animate_eq (c1 c2 : t num) :
  Browser.take_frame_requests c1 = Browser.take_frame_requests c2 ->
  Browser.take_frame_requests (_animate c1)
  = Browser.take_frame_requests (_animate c2).
Proof.
  intros H. rewrite (take_animate c1), (take_animate c2), H. reflexivity.
Qed.

Lemma take_ticks_eq (n : nat) (c1 c2 : t num) :
  Browser.take_frame_requests c1 = Browser.take_frame_requests c2 ->
  Browser.take_frame_requests (Frames.ticks n c1)
  = Browser.take_frame_requests (Frames.ticks n c2).
Proof.
  intros H. induction n as [| n IH]; [exact H |].
  rewrite !ticks_succ. apply take_animate_eq, IH.
Qed.

Lemma ticks_add (n m : nat) (c : t num) :
  Frames.ticks (n + m) c = Frames.ticks n (Frames.ticks m c).
Proof.
  induction n as [| n IH]; [reflexivity |].
  change (S n + m)%nat with (S (n + m)). rewrite !ticks_succ, IH.
  reflexivity.
Qed.

Lemma ticks_requests (n : nat) (c : t num) :
  _running c = true ->
  raf_pending (Frames.ticks n c) = (raf_pending c + n)%nat.
Proof.
  intros Hr. induction n as [| n IH]; [simpl; lia |].
  rewrite ticks_succ.
  destruct (ticks_keep n c) as (_ & _ & _ & Hr' & _).
  unfold _animate. rewrite Hr', Hr. simpl. rewrite IH. lia.
Qed.

Lemma paint_running (c : t num) :
  _running c = true ->
  raf_pending (Browser.paint c) = raf_pending c
  /\ _running (Browser.paint c) = true
  /\ Browser.take_frame_requests (Browser.paint c)
     = Browser.take_frame_requests (Frames.ticks (raf_pending c) c).
Proof.
  intros Hr. unfold Browser.paint.
  change (Nat.iter (raf_pending c) _animate (Browser.take_frame_requests c))
    with (Frames.ticks (raf_pending c) (Browser.take_frame_requests c)).
  split; [| split].
  - rewrite ticks_requests by exact Hr. reflexivity.
  - destruct (ticks_keep (raf_pending c) (Browser.take_frame_requests c))
      as (_ & _ & _ & Hr' & _).
    rewrite Hr'. exact Hr.
  - apply take_ticks_eq, take_idem.
Qed.

Lemma paints_running (k : nat) (c : t num) :
  _running c = true ->
  raf_pending (Nat.iter k Browser.paint c) = raf_pending c
  /\ _running (Nat.iter k Browser.paint c) = true
  /\ Browser.take_frame_requests (Nat.iter k Browser.paint c)
     = Browser.take_frame_requests (Frames.ticks (k * raf_pending c) c).
Proof.
  intros Hr. induction k as [| k (IHp & IHr & IHt)]; [simpl; auto |].
  rewrite Nat.iter_succ.
  destruct (paint_running (Nat.iter k Browser.paint c) IHr)
    as (Hp & Hr' & Ht).
  split; [congruence |]. split; [exact Hr' |].
  rewrite Ht, IHp.
  change (S k * raf_pending c)%nat
    with (raf_pending c + k * raf_pending c)%nat.
  rewrite ticks_add. apply take_ticks_eq, IHt.
Qed.

End PaintFacts.

Lemma computeOffsetsNow_requests {num : Type} {JN : JsNumber num}
      (c : TimelineCore.t num) :
  TimelineCore.raf_pending (TimelineCore.computeOffsetsNow c)
  = TimelineCore.raf_pending c
  /\ TimelineCore._running (TimelineCore.computeOffsetsNow c)
     = TimelineCore._running c.
Proof.
  unfold TimelineCore.computeOffsetsNow.
  destruct (length (cardElements (TimelineCore.track c)) =? 0)%nat;
    split; reflexivity.
Qed.

Lemma start_after_stop {num : Type} {JN : JsNumber num}
      (c : TimelineCore.t num) :
  TimelineCore.start (TimelineCore.stop c)
  = TimelineCore.requestAnimationFrame
      (TimelineCore._applyTransform
         (TimelineCore.computeOffsetsNow
            (TimelineCore.set_running true (TimelineCore.stop c)))).
Proof. reflexivity. Qed.

(** X13. [stop] cancels nothing: it only clears [_running].  A running
    engine with [p] frame requests outstanding runs [_animate] [p] times at
    every paint and keeps [p] requests outstanding; [stop()] followed by
    [start()] before the next paint adds a request, so the engine then
    advances one more tick per paint than before.  A stopped engine's
    requests run as no-ops and are gone after one paint. *)
Theorem restart_before_paint_adds_a_loop :
  forall (num : Type) (JN : JsNumber num) (c : TimelineCore.t num),
    TimelineCore.raf_pending (TimelineCore.start (TimelineCore.stop c))
    = S (TimelineCore.raf_pending c)
    /\ TimelineCore._running (TimelineCore.start (TimelineCore.stop c)) = true
    /\ (TimelineCore._running c = true ->
        forall k : nat,
          TimelineCore.raf_pending (Nat.iter k Browser.paint c)
          = TimelineCore.raf_pending c
          /\ Browser.take_frame_requests (Nat.iter k Browser.paint c)
             = Browser.take_frame_requests
                 (Frames.ticks (k * TimelineCore.raf_pending c) c))
    /\ (TimelineCore._running c = false ->
        Browser.paint c = Browser.take_frame_requests c).
Proof.
  intros num JN c. split; [| split; [| split]].
  - rewrite start_after_stop.
    cbn [TimelineCore.raf_pending TimelineCore.requestAnimationFrame
         TimelineCore._applyTransform TimelineCore.set_track].
    f_equal. rewrite (proj1 (computeOffsetsNow_requests _)). reflexivity.
  - rewrite start_after_stop.
    cbn [TimelineCore._running TimelineCore.requestAnimationFrame
         TimelineCore._applyTransform TimelineCore.set_track].
    rewrite (proj2 (computeOffsetsNow_requests _)). reflexivity.
  - intros Hr k. destruct (paints_running k c Hr) as (Hp & _ & Ht). auto.
  - intros Hr. unfold Browser.paint.
    generalize (TimelineCore.raf_pending c) as n.
    induction n as [| n IH]; [reflexivity |].
    rewrite Nat.iter_succ, IH. apply animate_stopped. exact Hr.
Qed.

Lemma restart_before_paint_adds_a_loop_witness :
  TimelineCore.raf_pending
    (Nat.iter 3 Browser.paint
       (TimelineCore.start (TimelineCore.stop (demo_core Q)))) = 2%nat
  /\ Browser.take_frame_requests
       (Nat.iter 3 Browser.paint
          (TimelineCore.start (TimelineCore.stop (demo_core Q))))
     = Browser.take_frame_requests
         (Frames.ticks 6
            (TimelineCore.start (TimelineCore.stop (demo_core Q)))).
Proof.
  refine (proj1 (proj2 (proj2 (@restart_before_paint_adds_a_loop Q _
            (TimelineCore.start (TimelineCore.stop (demo_core Q)))))) _ 3%nat).
  vm_compute. reflexivity.
Defined.

(* ================================================================= *)
(** ** The sidebar link of master.js *)

Lemma nav_up_unfold (fuel : nat) (half v : Q) :
  MasterNav.normalize_up fuel half v
  = if nltb v (nopp half) then
      match fuel with
      | O => None
      | S fuel' => MasterNav.normalize_up fuel' half (nadd v half)
      end
    else Some v.
Proof. destruct fuel; reflexivity. Qed.

Lemma nav_down_unfold (fuel : nat) (half v : Q) :
  MasterNav.normalize_down fuel half v
  = if nltb (num_of_Z 0) v then
      match fuel with
      | O => None
      | S fuel' => MasterNav.normalize_down fuel' half (nsub v half)
      end
    else Some v.
Proof. destruct fuel; reflexivity. Qed.

(** With a positive period the loops of the link handler are the loops of
    [jumpToIndex]. *)
Lemma nav_up_guarded (half : Q) :
  0 < half ->
  forall (fuel : nat) (v : Q),
    MasterNav.normalize_up fuel half v
    = TimelineCore.normalize_up fuel half v.
Proof.
  intros Hh. induction fuel as [| fuel IH]; intros v;
    rewrite nav_up_unfold, normalize_up_unfold;
    destruct (Q_ltb_spec (num_of_Z 0) half) as [_ | Hn];
    try (exfalso; apply Hn; exact Hh); cbn [andb];
    destruct (nltb v (nopp half)); try reflexivity.
  apply IH.
Qed.

Lemma nav_down_guarded (half : Q) :
  0 < half ->
  forall (fuel : nat) (v : Q),
    MasterNav.normalize_down fuel half v
    = TimelineCore.normalize_down fuel half v.
Proof.
  intros Hh. induction fuel as [| fuel IH]; intros v;
    rewrite nav_down_unfold, normalize_down_unfold;
    destruct (Q_ltb_spec (num_of_Z 0) half) as [_ | Hn];
    try (exfalso; apply Hn; exact Hh); cbn [andb];
    destruct (nltb (num_of_Z 0) v); try reflexivity.
  apply IH.
Qed.

(** With the period 0 a value below zero is never lifted and a value above
    zero is never lowered. *)
Lemma nav_up_stuck (half : Q) :
  half == 0 ->
  forall (fuel : nat) (v : Q),
    v < 0 -> MasterNav.normalize_up fuel half v = None.
Proof.
  intros Hh. induction fuel as [| fuel IH]; intros v Hv;
    rewrite nav_up_unfold;
    (destruct (Q_ltb_spec v (nopp half)) as [_ | Hn];
     [| exfalso; apply Hn; q_ops; lra]).
  - reflexivity.
  - apply IH. q_ops. lra.
Qed.

Lemma nav_down_stuck (half : Q) :
  half == 0 ->
  forall (fuel : nat) (v : Q),
    0 < v -> MasterNav.normalize_down fuel half v = None.
Proof.
  intros Hh. induction fuel as [| fuel IH]; intros v Hv;
    rewrite nav_down_unfold;
    (destruct (Q_ltb_spec (num_of_Z 0) v) as [_ | Hn];
     [| exfalso; apply Hn; q_ops; change (inject_Z 0) with 0; lra]).
  - reflexivity.
  - apply IH. q_ops. lra.
Qed.

(** X14. The link handler of master.js normalises without testing the
    period.  With a positive period its loops end and leave a position in
    [-halfTrackHeight, 0] that differs from [-offset + visibleTopOffset] by
    a whole number of periods.  With the period 0 (the value before the
    first layout pass, or of an empty-height track) they end only when
    that position is 0 already: for any other target, for instance the
    first card with a positive [visibleTopOffset], neither loop ever
    ends. *)
Theorem nav_link_normalisation :
  forall (offsets : list Q) (half : Q) (idx : nat) (vto : Z) (o : Q),
    nth_error offsets idx = Some o ->
    let target := - o + inject_Z vto in
    (0 < half ->
     exists fuel0 : nat,
       forall fuel : nat, (fuel0 <= fuel)%nat ->
         exists w,
           MasterNav.desiredPos fuel offsets half idx vto = Some (Some w)
           /\ - half <= w /\ w <= 0
           /\ (exists k : Z, w == target + inject_Z k * half))
    /\ (half == 0 -> ~ target == 0 ->
        forall fuel : nat,
          MasterNav.desiredPos fuel offsets half idx vto = None)
    /\ (half == 0 -> target == 0 ->
        forall fuel : nat,
          MasterNav.desiredPos fuel offsets half idx vto
          = Some (Some target)).
Proof.
  intros offsets half idx vto o Ho target.
  unfold MasterNav.desiredPos. rewrite Ho. q_ops. fold target.
  split; [| split].
  - intros Hh. exists (jump_fuel half target). intros fuel Hf.
    rewrite (@nav_up_guarded half Hh).
    pose proof (@jump_fuel_enough half target fuel Hh Hf) as Hfuel.
    destruct (Qabs_both target) as [Hp Hm].
    assert (Hnn : 0 <= inject_Z (Z.of_nat fuel) * half).
    { apply Qmult_le_0_compat; [| lra].
      change 0 with (inject_Z 0). rewrite <- Zle_Qle. lia. }
    destruct (@normalize_up_spec half Hh fuel target)
      as (w1 & Hw1 & Hlo1 & Hneg1 & Hsame1 & (k1 & Hk1)); [lra |].
    rewrite Hw1, (@nav_down_guarded half Hh).
    destruct (@normalize_down_spec half Hh fuel w1)
      as (w2 & Hw2 & Hhi2 & Hpos2 & Hsame2 & (k2 & Hk2)).
    { destruct (Qlt_le_dec target (- half)) as [Hl | Hg].
      - specialize (Hneg1 Hl). lra.
      - rewrite (Hsame1 Hg). lra. }
    rewrite Hw2. exists w2. split; [reflexivity |].
    split; [| split; [exact Hhi2 |]].
    + destruct (Qlt_le_dec 0 w1) as [Hl | Hg].
      * specialize (Hpos2 Hl). lra.
      * rewrite (Hsame2 Hg). exact Hlo1.
    + exists (k1 + k2)%Z. rewrite Hk2, Hk1, inject_Z_plus. ring.
  - intros Hh Hnz fuel.
    destruct (Qlt_le_dec target 0) as [Hneg | Hge].
    + rewrite (@nav_up_stuck half Hh fuel target Hneg). reflexivity.
    + assert (Hpos : 0 < target).
      { destruct (Qlt_le_dec 0 target) as [Hp | Hn]; [exact Hp |].
        exfalso. apply Hnz. lra. }
      rewrite nav_up_unfold.
      destruct (Q_ltb_spec target (nopp half)) as [Hx | _];
        [q_ops; lra |].
      rewrite (@nav_down_stuck half Hh fuel target Hpos). reflexivity.
  - intros Hh Hz fuel.
    rewrite nav_up_unfold.
    destruct (Q_ltb_spec target (nopp half)) as [Hx | _]; [q_ops; lra |].
    rewrite nav_down_unfold.
    destruct (Q_ltb_spec (num_of_Z 0) target) as [Hx | _];
      [q_ops; change (inject_Z 0) with 0 in Hx; lra |].
    reflexivity.
Qed.

Lemma nav_link_normalisation_witness :
  MasterNav.desiredPos 1000 [0; 100; 250; 420] 0 0 20 = None.
Proof.
  refine (proj1 (proj2 (@nav_link_normalisation [0; 100; 250; 420] 0
                          0%nat 20%Z 0 _)) _ _ 1000%nat).
  - reflexivity.
  - reflexivity.
  - intros H. vm_compute in H. discriminate H.
Defined.

(* ================================================================= *)
(** ** Escaping *)

Section EscapeFacts.
Import Yearmaster.

Lemma list_ascii_app (s1 s2 : string) :
  list_ascii_of_string (s1 ++ s2)
  = list_ascii_of_string s1 ++ list_ascii_of_string s2.
Proof.
  induction s1 as [| c s1 IH]; [reflexivity |].
  simpl. now rewrite IH.
Qed.

Lemma escapeChar_inert (c d : Ascii.ascii) :
  In d (list_ascii_of_string (escapeChar c)) ->
  d <> "<"%char /\ d <> ">"%char /\ d <> dquote /\ d <> "'"%char.
Proof.
  unfold escapeChar.
  destruct (Ascii.eqb_spec c "&"%char) as [| N1].
  { simpl. intros H. repeat destruct H as [<- | H]; try contradiction;
      repeat split; discriminate. }
  destruct (Ascii.eqb_spec c "<"%char) as [| N2].
  { simpl. intros H. repeat destruct H as [<- | H]; try contradiction;
      repeat split; discriminate. }
  destruct (Ascii.eqb_spec c ">"%char) as [| N3].
  { simpl. intros H. repeat destruct H as [<- | H]; try contradiction;
      repeat split; discriminate. }
  destruct (Ascii.eqb_spec c dquote) as [| N4].
  { simpl. intros H. repeat destruct H as [<- | H]; try contradiction;
      repeat split; discriminate. }
  destruct (Ascii.eqb_spec c "'"%char) as [| N5].
  { simpl. intros H. repeat destruct H as [<- | H]; try contradiction;
      repeat split; discriminate. }
  simpl. intros [<- | []]. auto.
Qed.

Lemma escapeChar_safe (c : Ascii.ascii) :
  is_special c = false -> escapeChar c = String c EmptyString.
Proof.
  unfold is_special, escapeChar. intros H.
  repeat (apply orb_false_elim in H; destruct H as [H ?]).
  now rewrite H, H3, H2, H1, H0.
Qed.

End EscapeFacts.

(** X15. The text [escapeHtml] returns contains none of the characters
    [<], [>], double quote and single quote, whatever the input; and a
    text without any of the five special characters is returned
    unchanged. *)
Theorem escapeHtml_output_is_inert :
  forall s : string,
    (forall d : Ascii.ascii,
        In d (list_ascii_of_string (Yearmaster.escapeHtml s)) ->
        d <> "<"%char /\ d <> ">"%char
        /\ d <> Yearmaster.dquote /\ d <> "'"%char)
    /\ ((forall c, In c (list_ascii_of_string s) ->
                   Yearmaster.is_special c = false) ->
        Yearmaster.escapeHtml s = s).
Proof.
  induction s as [| c s [IH1 IH2]].
  - split; [intros d [] | reflexivity].
  - split.
    + intros d Hd. simpl in Hd. rewrite list_ascii_app in Hd.
      apply in_app_or in Hd. destruct Hd as [Hd | Hd].
      * exact (escapeChar_inert c d Hd).
      * exact (IH1 d Hd).
    + intros Hsafe. simpl.
      rewrite escapeChar_safe by (apply Hsafe; left; reflexivity).
      simpl. f_equal. apply IH2.
      intros c' Hc'. apply Hsafe. right. exact Hc'.
Qed.

Lemma escapeHtml_output_is_inert_witness :
  Yearmaster.escapeHtml "1066 AD" = "1066 AD"%string.
Proof.
  apply (proj2 (escapeHtml_output_is_inert "1066 AD")).
  intros c Hc. simpl in Hc.
  repeat destruct Hc as [<- | Hc]; try reflexivity. contradiction.
Defined.

Section EscapeInjective.
Import Yearmaster.

Lemma escapeChar_cases (c : Ascii.ascii) :
  (c = "&"%char /\ escapeChar c = "&amp;"%string)
  \/ (c = "<"%char /\ escapeChar c = "&lt;"%string)
  \/ (c = ">"%char /\ escapeChar c = "&gt;"%string)
  \/ (c = dquote /\ escapeChar c = "&quot;"%string)
  \/ (c = "'"%char /\ escapeChar c = "&#39;"%string)
  \/ (c <> "&"%char /\ escapeChar c = String c EmptyString).
Proof.
  unfold escapeChar.
  destruct (Ascii.eqb_spec c "&"%char) as [-> | N1]; [auto |].
  destruct (Ascii.eqb_spec c "<"%char) as [-> | N2]; [auto |].
  destruct (Ascii.eqb_spec c ">"%char) as [-> | N3]; [auto |].
  destruct (Ascii.eqb_spec c dquote) as [-> | N4]; [auto 6 |].
  destruct (Ascii.eqb_spec c "'"%char) as [-> | N5]; [auto 7 |].
  auto 8.
Qed.

(** Two escaped characters that start equal texts are the same character,
    and what follows them is the same. *)
Lemma escapeChar_prefix_injective (c1 c2 : Ascii.ascii) (r1 r2 : string) :
  (escapeChar c1 ++ r1)%string = (escapeChar c2 ++ r2)%string ->
  c1 = c2 /\ r1 = r2.
Proof.
  destruct (escapeChar_cases c1)
    as [[-> E1] | [[-> E1] | [[-> E1] | [[-> E1] | [[-> E1] | [N1 E1]]]]]];
  destruct (escapeChar_cases c2)
    as [[-> E2] | [[-> E2] | [[-> E2] | [[-> E2] | [[-> E2] | [N2 E2]]]]]];
  rewrite ?E1, ?E2; simpl; intros H;
    try discriminate H;
    try (injection H as H; subst; auto; fail);
    try (injection H as H1 H2; subst; auto; congruence).
Qed.

End EscapeInjective.

(** X16. [escapeHtml] loses nothing: two different texts never have the
    same escaped text. *)
Theorem escapeHtml_injective :
  forall s1 s2 : string,
    Yearmaster.escapeHtml s1 = Yearmaster.escapeHtml s2 -> s1 = s2.
Proof.
  induction s1 as [| c1 s1 IH]; intros [| c2 s2] H.
  - reflexivity.
  - exfalso. simpl in H.
    destruct (escapeChar_cases c2)
      as [[_ E] | [[_ E] | [[_ E] | [[_ E] | [[_ E] | [_ E]]]]]];
      rewrite E in H; discriminate H.
  - exfalso. simpl in H.
    destruct (escapeChar_cases c1)
      as [[_ E] | [[_ E] | [[_ E] | [[_ E] | [[_ E] | [_ E]]]]]];
      rewrite E in H; discriminate H.
  - simpl in H. apply escapeChar_prefix_injective in H.
    destruct H as [-> H]. f_equal. apply IH, H.
Qed.

Lemma escapeHtml_injective_witness :
  "<b>"%string = "<b>"%string.
Proof.
  apply (escapeHtml_injective "<b>" "<b>"). reflexivity.
Defined.

(* ================================================================= *)
(** ** The slider *)

Lemma last_is_nth (l : list Q) (d : Q) :
  l <> [] -> last l d = nth (length l - 1) l d.
Proof.
  induction l as [| a l IH]; [congruence |]. intros _.
  destruct l as [| b l]; [reflexivity |].
  change (last (a :: b :: l) d) with (last (b :: l) d).
  rewrite IH by discriminate. simpl. now rewrite Nat.sub_0_r.
Qed.

Lemma strictly_increasing_nth_le (offs : list Q) :
  strictly_increasing offs ->
  forall j k, (j <= k)%nat -> (k < length offs)%nat ->
    nth j offs 0 <= nth k offs 0.
Proof.
  intros Hinc j k Hjk Hk.
  destruct (Nat.eq_dec j k) as [-> | Hne]; [lra |].
  apply Qlt_le_weak, (@strictly_increasing_nth offs Hinc); lia.
Qed.

(** The fraction the handlers compute from a slider value in [0, 100]. *)
Lemma slider_fraction_range (offs : list Q) (val : Q) :
  offs <> [] -> 0 <= val -> val <= 100 ->
  0 <= slider_fraction offs val
  /\ slider_fraction offs val <= inject_Z (Z.of_nat (length offs) - 1).
Proof.
  intros Hne H0 H100. unfold slider_fraction. q_ops.
  change (inject_Z 1) with 1. change (inject_Z 100) with 100.
  assert (Hn : 0 <= inject_Z (Z.of_nat (length offs) - 1)).
  { change 0 with (inject_Z 0). rewrite <- Zle_Qle.
    destruct offs; [congruence | simpl length; lia]. }
  assert (Hv : val / 100 == val * (1 # 100)) by (field; lra).
  set (n1 := inject_Z (Z.of_nat (length offs) - 1)) in *.
  rewrite Hv. split.
  - apply Qmult_le_0_compat; lra.
  - rewrite <- (Qmult_1_l n1) at 2. apply Qmult_le_compat_r; lra.
Qed.

(** Inside the table the interpolation reads two existing entries. *)
Lemma interpolate_defined (offs : list Q) (frac : Q) :
  offs <> [] ->
  0 <= frac -> frac <= inject_Z (Z.of_nat (length offs) - 1) ->
  exists (iL iU : nat) (oL oU : Q),
    Qfloor frac = Z.of_nat iL
    /\ iU = Nat.min (length offs - 1) (S iL)
    /\ (iL < length offs)%nat
    /\ nth_error offs iL = Some oL
    /\ nth_error offs iU = Some oU
    /\ interpolate offs frac
       = Some (oL + (oU - oL) * (frac - inject_Z (Z.of_nat iL)))
    /\ 0 <= frac - inject_Z (Z.of_nat iL)
    /\ frac - inject_Z (Z.of_nat iL) < 1.
Proof.
  intros Hne H0 Hn.
  assert (Hlen : (1 <= length offs)%nat)
    by (destruct offs; [congruence | simpl; lia]).
  pose proof (Qfloor_le frac) as Hf1. pose proof (Qlt_floor frac) as Hf2.
  rewrite inject_Z_plus in Hf2. change (inject_Z 1) with 1 in Hf2.
  assert (Hfl0 : (0 <= Qfloor frac)%Z).
  { rewrite <- (Qfloor_Z 0). apply Qfloor_resp_le. exact H0. }
  assert (Hfln : (Qfloor frac <= Z.of_nat (length offs) - 1)%Z).
  { rewrite <- (Qfloor_Z (Z.of_nat (length offs) - 1)).
    apply Qfloor_resp_le. exact Hn. }
  set (iL := Z.to_nat (Qfloor frac)).
  assert (HiL : Qfloor frac = Z.of_nat iL) by (subst iL; lia).
  set (iU := Nat.min (length offs - 1) (S iL)).
  assert (HiLlen : (iL < length offs)%nat) by lia.
  assert (HiUlen : (iU < length offs)%nat) by (subst iU; lia).
  destruct (nth_error offs iL) as [oL |] eqn:HoL;
    [| apply nth_error_None in HoL; lia].
  destruct (nth_error offs iU) as [oU |] eqn:HoU;
    [| apply nth_error_None in HoU; lia].
  exists iL, iU, oL, oU.
  split; [exact HiL |]. split; [reflexivity |]. split; [exact HiLlen |].
  split; [exact HoL |]. split; [exact HoU |].
  split.
  - unfold interpolate. q_ops. rewrite HiL.
    replace (Z.min (Z.of_nat (length offs) - 1) (Z.of_nat iL + 1))
      with (Z.of_nat iU) by (subst iU; lia).
    unfold array_get.
    destruct (Z.ltb_spec (Z.of_nat iL) 0) as [| _]; [lia |].
    destruct (Z.ltb_spec (Z.of_nat iU) 0) as [| _]; [lia |].
    rewrite !Nat2Z.id, HoL, HoU. reflexivity.
  - rewrite <- HiL. split; lra.
Qed.

(** X17. For a slider value between 0 and 100 and a non-empty offsets
    table the input handler always writes a position (no [undefined] entry
    is read), switches auto-scroll off and applies the transform at once;
    the value 100 puts the first card at the top and the value 0 the last
    one; and for strictly increasing offsets the position stays between
    -offsets[last] and -offsets[0]. *)
Theorem slider_input_in_range :
  forall (c : TimelineCore.t Q) (val : Q),
    TimelineCore.offsets c <> [] ->
    0 <= val -> val <= 100 ->
    exists c',
      SliderController._onInput val c = Some c'
      /\ TimelineCore.autoScroll c' = false
      /\ style_transform (TimelineCore.track c')
         = Some (TimelineCore.posY c')
      /\ TimelineCore.offsets c' = TimelineCore.offsets c
      /\ (val == 100 ->
          TimelineCore.posY c' == - hd 0 (TimelineCore.offsets c))
      /\ (val == 0 ->
          TimelineCore.posY c' == - last (TimelineCore.offsets c) 0)
      /\ (strictly_increasing (TimelineCore.offsets c) ->
          - last (TimelineCore.offsets c) 0 <= TimelineCore.posY c'
          /\ TimelineCore.posY c' <= - hd 0 (TimelineCore.offsets c)).
Proof.
  intros c val Hne H0 H100.
  set (offs := TimelineCore.offsets c) in *.
  destruct (@slider_fraction_range offs val Hne H0 H100) as [Hf0 Hfn].
  destruct (@interpolate_defined offs (slider_fraction offs val) Hne Hf0 Hfn)
    as (iL & iU & oL & oU & Hfloor & HiU & HiLlen & HoL & HoU & Hint
        & Ht0 & Ht1).
  set (frac := slider_fraction offs val) in *.
  set (t := frac - inject_Z (Z.of_nat iL)) in *.
  assert (Hlen : (1 <= length offs)%nat)
    by (destruct offs; [congruence | simpl; lia]).
  unfold SliderController._onInput. fold offs.
  rewrite (length_eqb_nonempty Hne). fold frac.
  unfold fractionToPosition. rewrite Hint.
  eexists. split; [reflexivity |].
  cbn [TimelineCore.autoScroll TimelineCore.setAutoScroll
       TimelineCore.track TimelineCore._applyTransform
       TimelineCore.set_track TimelineCore.set_posY TimelineCore.posY
       TimelineCore.offsets style_transform].
  split; [reflexivity |]. split; [reflexivity |]. split; [reflexivity |].
  q_ops.
  assert (Hhd : hd 0 offs = nth 0 offs 0) by (destruct offs; reflexivity).
  assert (HnL : nth iL offs 0 = oL) by (apply nth_error_nth; exact HoL).
  assert (HnU : nth iU offs 0 = oU) by (apply nth_error_nth; exact HoU).
  split; [| split].
  - intros Hv.
    assert (Hfrac : frac == 0).
    { subst frac. unfold slider_fraction. q_ops. rewrite Hv.
      change (inject_Z 1) with 1. change (inject_Z 100) with 100.
      setoid_replace (1 - 100 / 100) with 0 by reflexivity. ring. }
    assert (HiL0 : iL = 0%nat).
    { rewrite (Qfloor_comp _ _ Hfrac) in Hfloor.
      change (Qfloor 0) with 0%Z in Hfloor. lia. }
    subst iL. rewrite Hhd, HnL.
    assert (Htz : t == 0).
    { subst t. rewrite Hfrac. reflexivity. }
    rewrite Htz. ring.
  - intros Hv.
    assert (Hfrac : frac == inject_Z (Z.of_nat (length offs) - 1)).
    { subst frac. unfold slider_fraction. q_ops. rewrite Hv.
      change (inject_Z 1) with 1. change (inject_Z 100) with 100.
      setoid_replace (1 - 0 / 100) with 1 by reflexivity. ring. }
    assert (HiLn : iL = (length offs - 1)%nat).
    { rewrite (Qfloor_comp _ _ Hfrac), Qfloor_Z in Hfloor. lia. }
    assert (Htz : t == 0).
    { subst t. rewrite Hfrac, HiLn. rewrite Nat2Z.inj_sub by lia.
      change (Z.of_nat 1) with 1%Z. ring. }
    rewrite (@last_is_nth offs 0 Hne), <- HiLn, HnL, Htz. ring.
  - intros Hinc.
    assert (HLU : oL <= oU).
    { rewrite <- HnL, <- HnU.
      apply (@strictly_increasing_nth_le offs Hinc); subst iU; lia. }
    assert (H0L : nth 0 offs 0 <= oL).
    { rewrite <- HnL.
      apply (@strictly_increasing_nth_le offs Hinc); lia. }
    assert (HUn : oU <= nth (length offs - 1) offs 0).
    { rewrite <- HnU.
      apply (@strictly_increasing_nth_le offs Hinc); subst iU; lia. }
    rewrite (@last_is_nth offs 0 Hne), Hhd.
    assert (Hprod0 : 0 <= (oU - oL) * t)
      by (apply Qmult_le_0_compat; lra).
    assert (Hprod1 : (oU - oL) * t <= oU - oL).
    { rewrite <- (Qmult_1_r (oU - oL)) at 2.
      rewrite !(Qmult_comm (oU - oL)).
      apply Qmult_le_compat_r; lra. }
    split; lra.
Qed.

Lemma slider_input_in_range_witness :
  exists c',
    SliderController._onInput 50 (demo_core Q) = Some c'
    /\ TimelineCore.autoScroll c' = false.
Proof.
  destruct (@slider_input_in_range (demo_core Q) 50) as (c' & H1 & H2 & _).
  - vm_compute. discriminate.
  - vm_compute. discriminate.
  - vm_compute. discriminate.
  - exists c'. split; assumption.
Defined.

(** The fractional index of any position lies in the table. *)
Lemma fractionalIndex_range (offs : list Q) (y : Q) :
  offs <> [] -> strictly_increasing offs ->
  0 <= Master.fractionalIndexForPosY offs y
  /\ Master.fractionalIndexForPosY offs y
     <= inject_Z (Z.of_nat (length offs) - 1).
Proof.
  intros Hne Hinc. destruct offs as [| o0 rest]; [congruence |].
  assert (Hn : 0 <= inject_Z (Z.of_nat (length (o0 :: rest)) - 1)).
  { change 0 with (inject_Z 0). rewrite <- Zle_Qle. simpl length. lia. }
  unfold Master.fractionalIndexForPosY. cbv beta iota zeta.
  destruct (Q_leb_spec (nabs y) o0) as [Hle | Hlo].
  { q_ops. change (inject_Z 0) with 0. split; [lra | exact Hn]. }
  destruct (Q_leb_spec (last (o0 :: rest) o0) (nabs y)) as [Hle | Hhi].
  { q_ops. split; [exact Hn | lra]. }
  q_ops.
  destruct (@bracket_scan_spec (Qabs y) rest o0 0%Z Hinc)
    as (k & a & b & Ha & Hb & H1 & H2 & H3 & H4 & Hscan); [lra | lra |].
  rewrite Hscan, Z.add_0_l.
  assert (Hlen : (S k < length (o0 :: rest))%nat).
  { apply nth_error_Some. rewrite Hb. discriminate. }
  assert (Ht0 : 0 <= (Qabs y - a) / (b - a))
    by (apply Qle_shift_div_l; lra).
  assert (Ht1 : (Qabs y - a) / (b - a) <= 1)
    by (apply Qle_shift_div_r; lra).
  assert (Hk0 : 0 <= inject_Z (Z.of_nat k)).
  { change 0 with (inject_Z 0). rewrite <- Zle_Qle. lia. }
  assert (Hk1 : inject_Z (Z.of_nat k) + 1
                <= inject_Z (Z.of_nat (length (o0 :: rest)) - 1)).
  { change 1 with (inject_Z 1). rewrite <- inject_Z_plus, <- Zle_Qle. lia. }
  split; lra.
Qed.

(** X18. For a strictly increasing offsets table with at least two
    entries the value the sync loop computes for the slider is always
    between 0 and 100, whatever the position: it is 100 when the distance
    is at most offsets[0] and 0 when it is at least offsets[last]. *)
Theorem sliderValue_in_slider_range :
  forall (offs : list Q) (posY : Q),
    (2 <= length offs)%nat -> strictly_increasing offs ->
    0 <= MasterSync.sliderValue offs posY
    /\ MasterSync.sliderValue offs posY <= 100
    /\ (Qabs posY <= hd 0 offs -> MasterSync.sliderValue offs posY == 100)
    /\ (last offs 0 <= Qabs posY -> MasterSync.sliderValue offs posY == 0).
Proof.
  intros offs posY Hlen Hinc.
  assert (Hne : offs <> []) by (destruct offs; [simpl in Hlen; lia | discriminate]).
  destruct (@fractionalIndex_range offs posY Hne Hinc) as [Hf0 Hf1].
  assert (Hn : 0 < inject_Z (Z.of_nat (length offs) - 1)).
  { change 0 with (inject_Z 0). rewrite <- Zlt_Qlt. lia. }
  unfold MasterSync.sliderValue. q_ops. change (inject_Z 100) with 100.
  set (n1 := inject_Z (Z.of_nat (length offs) - 1)) in *.
  assert (Hq0 : 0 <= Master.fractionalIndexForPosY offs posY / n1)
    by (apply Qle_shift_div_l; lra).
  assert (Hq1 : Master.fractionalIndexForPosY offs posY / n1 <= 1)
    by (apply Qle_shift_div_r; lra).
  split; [lra |]. split; [lra |].
  destruct offs as [| o0 rest]; [congruence |].
  assert (Hlast : o0 < last (o0 :: rest) o0).
  { rewrite (@last_is_nth (o0 :: rest) o0 Hne).
    rewrite (nth_indep (o0 :: rest) o0 0) by (simpl in *; lia).
    change o0 with (nth 0 (o0 :: rest) 0) at 1.
    apply (@strictly_increasing_nth (o0 :: rest) Hinc); simpl in *; lia. }
  split.
  - cbn [hd]. intros Hle.
    unfold Master.fractionalIndexForPosY. cbv beta iota zeta.
    destruct (Q_leb_spec (nabs posY) o0) as [_ | Hlo]; [| q_ops; lra].
    q_ops. change (inject_Z 0) with 0.
    setoid_replace (0 / n1) with 0 by (field; lra). ring.
  - rewrite (last_cons_default o0 0 o0). intros Hge.
    unfold Master.fractionalIndexForPosY. cbv beta iota zeta.
    destruct (Q_leb_spec (nabs posY) o0) as [Hle | _]; [q_ops; lra |].
    destruct (Q_leb_spec (last (o0 :: rest) o0) (nabs posY)) as [_ | Hhi];
      [| q_ops; lra].
    q_ops. fold n1.
    setoid_replace (n1 / n1) with 1 by (field; lra). ring.
Qed.

Lemma sliderValue_in_slider_range_witness :
  0 <= MasterSync.sliderValue [0; 100; 250; 420] (- (145))
  /\ MasterSync.sliderValue [0; 100; 250; 420] (- (145)) <= 100.
Proof.
  destruct (@sliderValue_in_slider_range [0; 100; 250; 420] (- (145)))
    as (H1 & H2 & _).
  - simpl. lia.
  - simpl. repeat split; reflexivity.
  - split; assumption.
Defined.

(** X19. With exactly one card the sync loop divides 0 by 0: on binary64
    the value it computes for the slider is NaN for every position and
    every offset. *)
Theorem sliderValue_single_card_is_nan :
  forall (o posY : float),
    PrimFloat.is_nan (MasterSync.sliderValue [o] posY) = true.
Proof.
  intros o posY. unfold MasterSync.sliderValue, Master.fractionalIndexForPosY.
  cbv beta iota zeta. cbn [last Master.bracket_scan length].
  destruct (nleb (nabs posY) o); [vm_compute; reflexivity |].
  destruct (nleb o (nabs posY)); vm_compute; reflexivity.
Qed.

(** The fractional index read back at a card's own position is the card's
    index. *)
Lemma fractionalIndex_of_card (offs : list Q) (k : nat) :
  strictly_increasing offs -> 0 <= hd 0 offs -> (k < length offs)%nat ->
  Master.fractionalIndexForPosY offs (- nth k offs 0)
  == inject_Z (Z.of_nat k).
Proof.
  intros Hinc Hpos Hk.
  assert (Hmono := @strictly_increasing_nth offs Hinc).
  assert (Hmonole := @strictly_increasing_nth_le offs Hinc).
  destruct offs as [| o0 rest]; [simpl in Hk; lia |].
  assert (Hne : o0 :: rest <> []) by discriminate.
  cbn [hd] in Hpos.
  set (ok := nth k (o0 :: rest) 0).
  assert (H0k : o0 <= ok).
  { subst ok. change o0 with (nth 0 (o0 :: rest) 0) at 1.
    apply Hmonole; lia. }
  assert (Habs : Qabs (- ok) == ok).
  { rewrite Qabs_opp. apply Qabs_pos. lra. }
  assert (Hlastnth : last (o0 :: rest) o0
                     = nth (length (o0 :: rest) - 1) (o0 :: rest) 0).
  { rewrite (@last_is_nth (o0 :: rest) o0 Hne).
    apply nth_indep. simpl. lia. }
  unfold Master.fractionalIndexForPosY. cbv beta iota zeta. q_ops.
  destruct (Q_leb_spec (Qabs (- ok)) o0) as [Hle | Hlo].
  { destruct k as [| k]; [reflexivity | exfalso].
    assert (Hlt : nth 0 (o0 :: rest) 0 < nth (S k) (o0 :: rest) 0)
      by (apply Hmono; lia).
    fold ok in Hlt. cbn [nth] in Hlt. lra. }
  destruct (Q_leb_spec (last (o0 :: rest) o0) (Qabs (- ok)))
    as [Hle | Hhi].
  { destruct (Nat.eq_dec k (length (o0 :: rest) - 1)) as [E | E].
    - rewrite E, Nat2Z.inj_sub by (simpl; lia). reflexivity.
    - exfalso.
      assert (Hlt : nth k (o0 :: rest) 0
                    < nth (length (o0 :: rest) - 1) (o0 :: rest) 0)
        by (apply Hmono; lia).
      fold ok in Hlt. rewrite <- Hlastnth in Hlt. lra. }
  destruct (@bracket_scan_spec (Qabs (- ok)) rest o0 0%Z Hinc)
    as (j & a & b & Ha & Hb & H1 & H2 & H3 & H4 & Hscan); [lra | lra |].
  rewrite Hscan, Z.add_0_l.
  assert (Hjlen : (S j < length (o0 :: rest))%nat).
  { apply nth_error_Some. rewrite Hb. discriminate. }
  assert (Hna : nth j (o0 :: rest) 0 = a) by (apply nth_error_nth; exact Ha).
  assert (Hnb : nth (S j) (o0 :: rest) 0 = b)
    by (apply nth_error_nth; exact Hb).
  destruct (Nat.lt_trichotomy j k) as [Hlt | [Heq | Hgt]].
  - assert (Hb_le : b <= ok).
    { rewrite <- Hnb. subst ok. apply Hmonole; lia. }
    assert (HkS : S j = k).
    { destruct (Nat.eq_dec (S j) k) as [E | E]; [exact E | exfalso].
      assert (Hlt' : nth (S j) (o0 :: rest) 0 < nth k (o0 :: rest) 0)
        by (apply Hmono; lia).
      rewrite Hnb in Hlt'. fold ok in Hlt'. lra. }
    assert (Hdb : ok == b) by lra.
    rewrite Habs, Hdb, <- HkS, Nat2Z.inj_succ.
    unfold Z.succ. rewrite inject_Z_plus. change (inject_Z 1) with 1.
    field. lra.
  - subst j. assert (Hak : a = ok) by (rewrite <- Hna; reflexivity).
    rewrite Habs, Hak. field. rewrite <- Hak. lra.
  - exfalso.
    assert (Hlt' : nth k (o0 :: rest) 0 < nth j (o0 :: rest) 0)
      by (apply Hmono; lia).
    rewrite Hna in Hlt'. fold ok in Hlt'. lra.
Qed.

(** X21. Releasing the slider (master.js) puts the nearest card at the
    top: for a strictly increasing offsets table with at least two entries
    and a non-negative first offset, the listener writes -offsets[k] for
    an index k of least distance to the current position, applies it to
    the track, and assigns 100 - k / (length - 1) * 100 to the slider,
    which is exactly the value the sync loop computes at the new position;
    releasing a second time changes nothing. *)
Theorem slider_release_snaps_to_card :
  forall (m : Master.t Q) (value : Q),
    (2 <= length (Master.offsets m))%nat ->
    strictly_increasing (Master.offsets m) ->
    0 <= hd 0 (Master.offsets m) ->
    exists (m' : Master.t Q) (k : nat),
      MasterRelease.slider_change m value
      = Some (m', MasterRelease.newSliderValue (Master.offsets m) k)
      /\ (k < length (Master.offsets m))%nat
      /\ (forall j, (j < length (Master.offsets m))%nat ->
            Qabs (Qabs (Master.posY m) - nth k (Master.offsets m) 0)
            <= Qabs (Qabs (Master.posY m) - nth j (Master.offsets m) 0))
      /\ Master.posY m' = - nth k (Master.offsets m) 0
      /\ Master.style_transform m' = Some (Master.posY m')
      /\ Master.offsets m' = Master.offsets m
      /\ MasterSync.sliderValue (Master.offsets m') (Master.posY m')
         == MasterRelease.newSliderValue (Master.offsets m) k
      /\ MasterRelease.slider_change m'
           (MasterRelease.newSliderValue (Master.offsets m) k)
         = Some (m', MasterRelease.newSliderValue (Master.offsets m) k).
Proof.
  intros m value Hlen Hinc Hpos.
  set (offs := Master.offsets m) in *.
  assert (Hne : offs <> [])
    by (destruct offs; [simpl in Hlen; lia | discriminate]).
  assert (Hscan : exists k,
             (k < length offs)%nat
             /\ TimelineCore.nearest_scan (nabs (Master.posY m)) offs 0 None 0
                = k
             /\ forall j, (j < length offs)%nat ->
                  Qabs (Qabs (Master.posY m) - nth k offs 0)
                  <= Qabs (Qabs (Master.posY m) - nth j offs 0)).
  { destruct (@nearest_scan_spec (nabs (Master.posY m)) offs 0%nat None 0%nat)
      as [[_ Hnil] | (k & Hk & Hr & _ & _ & Hmin)]; [contradiction |].
    exists k. split; [exact Hk |]. split; [rewrite Hr; reflexivity |].
    exact Hmin. }
  destruct Hscan as (k & Hk & Hr & Hmin).
  assert (Hget : array_get offs (clamp_index (length offs) (Z.of_nat k))
                 = Some (nth k offs 0)).
  { rewrite clamp_index_inside by lia. unfold array_get.
    destruct (Z.ltb_spec (Z.of_nat k) 0) as [| _]; [lia |].
    rewrite Nat2Z.id. apply nth_error_nth'. exact Hk. }
  assert (Hnear : forall y, y = - nth k offs 0 ->
            Master.nearestCardIndexForPosY offs y = k).
  { intros y ->. unfold Master.nearestCardIndexForPosY.
    rewrite (length_eqb_nonempty Hne).
    apply (@nearest_of_card_position offs k Hinc Hk).
    assert (Hmonole := @strictly_increasing_nth_le offs Hinc).
    assert (H0 : nth 0 offs 0 <= nth k offs 0) by (apply Hmonole; lia).
    destruct offs; [congruence |]. cbn [hd nth] in *. lra. }
  assert (Hfirst : MasterRelease.slider_change m value
    = Some ({| Master.posY := - nth k offs 0;
               Master.autoScroll := Master.autoScroll m;
               Master.userPaused := Master.userPaused m;
               Master.arrowSpeed := Master.arrowSpeed m;
               Master.offsets := offs;
               Master.halfTrackHeight := Master.halfTrackHeight m;
               Master.style_transform := Some (- nth k offs 0) |},
            MasterRelease.newSliderValue offs k)).
  { unfold MasterRelease.slider_change. fold offs.
    rewrite (length_eqb_nonempty Hne).
    unfold Master.nearestCardIndexForPosY, Master.posYForCardIndex.
    rewrite (length_eqb_nonempty Hne), Hr, Hget. reflexivity. }
  eexists. exists k. split; [exact Hfirst |].
  cbn [Master.posY Master.style_transform Master.offsets].
  split; [exact Hk |]. split; [exact Hmin |].
  split; [reflexivity |]. split; [reflexivity |]. split; [reflexivity |].
  split.
  - unfold MasterSync.sliderValue, MasterRelease.newSliderValue.
    rewrite (@fractionalIndex_of_card offs k Hinc Hpos Hk). reflexivity.
  - unfold MasterRelease.slider_change.
    cbn [Master.posY Master.style_transform Master.offsets
         Master.autoScroll Master.userPaused Master.arrowSpeed
         Master.halfTrackHeight].
    rewrite (length_eqb_nonempty Hne).
    rewrite (Hnear _ eq_refl).
    unfold Master.posYForCardIndex.
    rewrite (length_eqb_nonempty Hne), Hget. reflexivity.
Qed.

Lemma slider_release_snaps_to_card_witness :
  exists (m' : Master.t Q) (k : nat),
    MasterRelease.slider_change
      {| Master.posY := - (145); Master.autoScroll := false;
         Master.userPaused := true; Master.arrowSpeed := 0;
         Master.offsets := [0; 100; 250; 420];
         Master.halfTrackHeight := 420;
         Master.style_transform := None |} 50
    = Some (m', MasterRelease.newSliderValue [0; 100; 250; 420] k)
    /\ (k < 4)%nat.
Proof.
  destruct (@slider_release_snaps_to_card
              {| Master.posY := - (145); Master.autoScroll := false;
                 Master.userPaused := true; Master.arrowSpeed := 0;
                 Master.offsets := [0; 100; 250; 420];
                 Master.halfTrackHeight := 420;
                 Master.style_transform := None |} 50)
    as (m' & k & H1 & H2 & _).
  - simpl. lia.
  - simpl. repeat split; reflexivity.
  - vm_compute. discriminate.
  - exists m', k. split; [exact H1 | exact H2].
Defined.

(* ================================================================= *)
(** ** The round trip under rounding *)

(** The error analysis of the round trip, on the values the two functions
    compute one after the other: [d1], [d2] the rounded differences,
    [q] the rounded quotient, [frac] the rounded fractional index, [t] its
    rounded fractional part, [m] the rounded product and [interp] the
    rounded sum. *)
Lemma roundtrip_core_inside
      (u M a D G J d1 d2 q frac t m interp : Q) :
  0 <= u -> u <= 1 # 4 ->
  0 <= D -> D <= G -> 0 < G -> G <= M -> Qabs a <= M -> 0 <= J ->
  D * (1 - u) <= d1 -> d1 <= D * (1 + u) ->
  G * (1 - u) <= d2 -> d2 <= G * (1 + u) ->
  d1 * (1 - u) <= q * d2 -> q * d2 <= d1 * (1 + u) ->
  0 <= q -> q <= 1 ->
  (J + q) * (1 - u) <= frac -> frac <= (J + q) * (1 + u) ->
  J <= frac -> frac <= J + 1 ->
  (frac - J) * (1 - u) <= t -> t <= (frac - J) * (1 + u) -> t <= 1 ->
  (d2 * t) * (1 - u) <= m -> m <= (d2 * t) * (1 + u) ->
  Qabs (interp - (a + m)) <= u * Qabs (a + m) ->
  Qabs (interp - (a + D)) <= (2 * J + 12) * u * M.
Proof.
  intros Hu0 Hu1 HD0 HDG HG HGM HaM HJ Hd1a Hd1b Hd2a Hd2b Hqa Hqb Hq0 Hq1
         Hfa Hfb HfJ HfJ1 Hta Htb Ht1 Hma Hmb Hi.
  assert (Ht0 : 0 <= t) by nra.
  assert (Hd20 : 0 <= d2) by nra.
  assert (S5a : D - 3 * u * D <= q * d2) by nra.
  assert (S5b : q * d2 <= D + 3 * u * D) by nra.
  assert (S3a : q - u * (J + 2) <= t) by nra.
  assert (S3b : t <= q + u * (J + 2)) by nra.
  assert (S4a : q * d2 - 2 * G * (u * (J + 2)) <= d2 * t) by nra.
  assert (S4b : d2 * t <= q * d2 + 2 * G * (u * (J + 2))) by nra.
  assert (Hv0 : 0 <= d2 * t) by nra.
  assert (Hv1 : d2 * t <= G * (1 + u)) by nra.
  assert (S7a : d2 * t - 2 * u * G <= m) by nra.
  assert (S7b : m <= d2 * t + 2 * u * G) by nra.
  assert (Hm0 : 0 <= m) by nra.
  assert (Hm1 : m <= 2 * G) by nra.
  assert (Habs : Qabs (a + m) <= 3 * M).
  { apply Qabs_Qle_condition in HaM. destruct HaM.
    apply Qabs_Qle_condition. split; lra. }
  assert (Hi' : Qabs (interp - (a + m)) <= 3 * u * M) by nra.
  apply Qabs_Qle_condition in Hi'. destruct Hi' as [Hi1 Hi2].
  apply Qabs_Qle_condition.
  assert (HuD : 0 <= u * D) by nra.
  assert (HuG : 0 <= u * G) by nra.
  assert (HuM : u * G <= u * M) by nra.
  assert (HuDM : u * D <= u * M) by nra.
  assert (HuJG : 0 <= u * J * G) by nra.
  assert (HuJM : u * J * G <= u * J * M) by nra.
  split; nra.
Qed.

(** The same when the rounded fractional index reaches the next whole
    number: the position read is then the upper offset [b] itself. *)
Lemma roundtrip_core_boundary
      (u M b D G J d1 d2 q interp : Q) :
  0 <= u -> u <= 1 # 4 ->
  0 <= D -> D <= G -> 0 < G -> G <= M -> Qabs b <= M -> 0 <= J ->
  D * (1 - u) <= d1 -> d1 <= D * (1 + u) ->
  G * (1 - u) <= d2 -> d2 <= G * (1 + u) ->
  d1 * (1 - u) <= q * d2 -> q * d2 <= d1 * (1 + u) ->
  0 <= q -> q <= 1 ->
  J + 1 <= (J + q) * (1 + u) ->
  Qabs (interp - b) <= u * Qabs b ->
  Qabs (interp - (b - (G - D))) <= (2 * J + 12) * u * M.
Proof.
  intros Hu0 Hu1 HD0 HDG HG HGM HbM HJ Hd1a Hd1b Hd2a Hd2b Hqa Hqb Hq0 Hq1
         Hf Hi.
  assert (Hd20 : 0 <= d2) by nra.
  assert (Hq : 1 - u * (J + 1) <= q) by nra.
  assert (S5b : q * d2 <= D + 3 * u * D) by nra.
  assert (Hlow : G - u * G * (J + 2) <= q * d2).
  { destruct (Qlt_le_dec (1 - u * (J + 1)) 0) as [Hneg | Hpos]; nra. }
  assert (HGD : G - D <= u * G * (J + 5)) by nra.
  assert (Hi' : Qabs (interp - b) <= u * M) by nra.
  apply Qabs_Qle_condition in Hi'. destruct Hi' as [Hi1 Hi2].
  apply Qabs_Qle_condition.
  assert (HuG : 0 <= u * G) by nra.
  assert (HuM : u * G <= u * M) by nra.
  assert (HuJG : 0 <= u * J * G) by nra.
  assert (HuJM : u * J * G <= u * J * M) by nra.
  assert (HuM0 : 0 <= u * M) by nra.
  assert (HuJM0 : 0 <= u * J * M) by nra.
  split; nra.
Qed.

Section RoundTrip.
Variable rnd : Q -> Q.
Variable u : Q.
Hypothesis rnd_mono : monotone_rounding rnd.
Hypothesis rnd_err : relative_error rnd u.
Hypothesis u_nonneg : 0 <= u.
Hypothesis u_small : u <= 1 # 4.

Lemma rounded_zero : rnd 0 == 0.
Proof.
  pose proof (@rnd_err 0) as H. apply Qabs_Qle_condition in H.
  change (Qabs 0) with 0 in H. lra.
Qed.

Lemma rounded_nonneg (x : Q) : 0 <= x -> 0 <= rnd x.
Proof.
  intros Hx. pose proof (@rnd_mono _ _ Hx) as H.
  pose proof rounded_zero. lra.
Qed.

Lemma rounded_bounds (x : Q) :
  0 <= x -> x * (1 - u) <= rnd x /\ rnd x <= x * (1 + u).
Proof.
  intros Hx. pose proof (@rnd_err x) as H.
  rewrite (Qabs_pos x Hx) in H.
  apply Qabs_Qle_condition in H. destruct H. split; lra.
Qed.

Lemma rounded_bracket_scan_cons (dist a b : Q) (rest : list Q) (i : Z) :
  @Master.bracket_scan Q (Rounded_JsNumber rnd) dist (a :: b :: rest) i
  = if (Qle_bool a dist && Qle_bool dist b)%bool
    then rnd (inject_Z i + rnd (rnd (dist - a) / rnd (b - a)))
    else @Master.bracket_scan Q (Rounded_JsNumber rnd) dist (b :: rest)
           (i + 1).
Proof. reflexivity. Qed.

(** The loop of [fractionalIndexForPosY] takes the same branch whatever the
    rounding: it stops at the first pair of neighbours that brackets the
    distance. *)
Lemma rounded_bracket_scan_spec (dist : Q) (offs : list Q) :
  forall (a0 : Q) (i : Z),
    strictly_increasing (a0 :: offs) ->
    a0 <= dist -> dist < last (a0 :: offs) a0 ->
    exists (k : nat) (a b : Q),
      nth_error (a0 :: offs) k = Some a
      /\ nth_error (a0 :: offs) (S k) = Some b
      /\ a <= dist /\ dist <= b /\ a < b
      /\ @Master.bracket_scan Q (Rounded_JsNumber rnd) dist (a0 :: offs) i
         = rnd (inject_Z (i + Z.of_nat k)
                + rnd (rnd (dist - a) / rnd (b - a))).
Proof.
  induction offs as [| b0 offs IH]; intros a0 i Hinc Hlo Hhi.
  - simpl in Hhi. lra.
  - destruct Hinc as [Hab Hinc].
    rewrite rounded_bracket_scan_cons.
    destruct (Qle_bool_spec a0 dist) as [_ | Hn]; [| contradiction].
    destruct (Qle_bool_spec dist b0) as [Hle | Hgt]; cbn [andb].
    + exists 0%nat, a0, b0. repeat split; try assumption.
      rewrite Z.add_0_r. reflexivity.
    + assert (Hlo' : b0 <= dist) by lra.
      assert (Hhi' : dist < last (b0 :: offs) b0).
      { rewrite (last_cons_default b0 b0 a0). exact Hhi. }
      destruct (IH b0 (i + 1)%Z Hinc Hlo' Hhi')
        as (k & a & b & Ha & Hb & H1 & H2 & H3 & Hscan).
      exists (S k), a, b. repeat split; try assumption.
      rewrite Hscan.
      replace (i + 1 + Z.of_nat k)%Z with (i + Z.of_nat (S k))%Z by lia.
      reflexivity.
Qed.

End RoundTrip.

(** The round trip of one position under rounding. *)
Lemma rounded_roundtrip (rnd : Q -> Q) (u o0 : Q) (rest : list Q) (p : Q) :
  let offs := o0 :: rest in
  monotone_rounding rnd -> relative_error rnd u ->
  0 <= u -> u <= 1 # 4 ->
  (forall z : Z, (0 <= z <= Z.of_nat (length offs))%Z ->
                 exact_at rnd (inject_Z z)) ->
  strictly_increasing offs ->
  o0 < Qabs p -> Qabs p < last offs o0 ->
  exists y,
    @fractionToPosition Q (Rounded_JsNumber rnd) offs
      (@Master.fractionalIndexForPosY Q (Rounded_JsNumber rnd) offs p)
    = Some y
    /\ Qabs (y - - Qabs p) <= roundtrip_tolerance u offs.
Proof.
  intros offs Hm Herr Hu0 Hu1 Hint Hinc Hlo Hhi.
  set (dist := Qabs p) in *.
  assert (Hne : offs <> []) by (subst offs; discriminate).
  assert (Hmonole := @strictly_increasing_nth_le offs Hinc).
  assert (Hlast : last offs o0 = nth (length offs - 1) offs 0).
  { rewrite (@last_is_nth offs o0 Hne). apply nth_indep.
    subst offs. simpl. lia. }
  set (L := last offs o0) in *.
  set (M := Qabs o0 + L).
  assert (HL0 : 0 < L) by (pose proof (Qabs_nonneg p); subst dist; lra).
  assert (Ho0 : - Qabs o0 <= o0 /\ o0 <= Qabs o0).
  { split; [| apply Qle_Qabs].
    pose proof (Qle_Qabs (- o0)) as H. rewrite Qabs_opp in H. lra. }
  unfold Master.fractionalIndexForPosY. subst offs. cbv beta iota zeta.
  r_ops. fold dist. fold L.
  destruct (Qle_bool_spec dist o0) as [Hle | _]; [lra |].
  destruct (Qle_bool_spec L dist) as [Hle | _]; [lra |].
  destruct (@rounded_bracket_scan_spec rnd dist rest o0 0%Z Hinc)
    as (k & a & b & Ha & Hb & H1 & H2 & H3 & Hscan); [lra | exact Hhi |].
  rewrite Hscan, Z.add_0_l. clear Hscan.
  set (offs := o0 :: rest) in *.
  assert (Hklen : (S k < length offs)%nat).
  { apply nth_error_Some. rewrite Hb. discriminate. }
  assert (Hna : nth k offs 0 = a) by (apply nth_error_nth; exact Ha).
  assert (Hnb : nth (S k) offs 0 = b) by (apply nth_error_nth; exact Hb).
  assert (Hoa : o0 <= a).
  { rewrite <- Hna. change o0 with (nth 0 offs 0). apply Hmonole; lia. }
  assert (HbL : b <= L).
  { rewrite <- Hnb. subst L. rewrite Hlast. apply Hmonole; lia. }
  set (D := dist - a). set (G := b - a).
  set (J := inject_Z (Z.of_nat k)).
  assert (HD0 : 0 <= D) by (subst D; lra).
  assert (HDG : D <= G) by (subst D G; lra).
  assert (HG : 0 < G) by (subst G; lra).
  assert (HGM : G <= M) by (subst G M; lra).
  assert (HaM : Qabs a <= M).
  { apply Qabs_Qle_condition. subst M. split; lra. }
  assert (HbM : Qabs b <= M).
  { apply Qabs_Qle_condition. subst M. split; lra. }
  assert (HJ : 0 <= J).
  { subst J. change 0 with (inject_Z 0). rewrite <- Zle_Qle. lia. }
  assert (HJn : J + 2 <= inject_Z (Z.of_nat (length offs))).
  { subst J. change 2 with (inject_Z 2).
    rewrite <- inject_Z_plus, <- Zle_Qle. lia. }
  assert (E0 := @rounded_zero rnd u Herr).
  assert (E1 : rnd 1 == 1).
  { apply (Hint 1%Z). lia. }
  assert (EJ : rnd J == J).
  { apply (Hint (Z.of_nat k)). lia. }
  assert (EJ1 : rnd (J + 1) == J + 1).
  { assert (He : J + 1 == inject_Z (Z.of_nat k + 1)).
    { subst J. rewrite inject_Z_plus. reflexivity. }
    rewrite (@monotone_rounding_proper rnd Hm _ _ He), He.
    apply (Hint (Z.of_nat k + 1)%Z). lia. }
  set (d1 := rnd D). set (d2 := rnd G).
  destruct (@rounded_bounds rnd u Herr D HD0) as [Hd1a Hd1b].
  fold d1 in Hd1a, Hd1b.
  assert (HG0 : 0 <= G) by lra.
  destruct (@rounded_bounds rnd u Herr G HG0) as [Hd2a Hd2b].
  fold d2 in Hd2a, Hd2b.
  assert (Hd2pos : 0 < d2) by nra.
  assert (Hd10 : 0 <= d1).
  { subst d1. apply (@rounded_nonneg rnd u Hm Herr). exact HD0. }
  assert (Hd12 : d1 <= d2) by (subst d1 d2; apply Hm; exact HDG).
  set (r := d1 / d2).
  assert (Hr0 : 0 <= r) by (subst r; apply Qle_shift_div_l; lra).
  assert (Hr1 : r <= 1) by (subst r; apply Qle_shift_div_r; lra).
  assert (Hrd : r * d2 == d1) by (subst r; field; lra).
  set (q := rnd r).
  destruct (@rounded_bounds rnd u Herr r Hr0) as [Hqa' Hqb'].
  fold q in Hqa', Hqb'.
  assert (Hq0 : 0 <= q).
  { subst q. apply (@rounded_nonneg rnd u Hm Herr). exact Hr0. }
  assert (Hq1 : q <= 1).
  { subst q. pose proof (Hm _ _ Hr1). lra. }
  assert (Hqa : d1 * (1 - u) <= q * d2) by nra.
  assert (Hqb : q * d2 <= d1 * (1 + u)) by nra.
  set (frac := rnd (J + q)).
  assert (HJq : 0 <= J + q) by lra.
  destruct (@rounded_bounds rnd u Herr (J + q) HJq) as [Hfa Hfb].
  fold frac in Hfa, Hfb.
  assert (HfJ : J <= frac).
  { subst frac. assert (Hle : J <= J + q) by lra.
    pose proof (Hm _ _ Hle). lra. }
  assert (HfJ1 : frac <= J + 1).
  { subst frac. assert (Hle : J + q <= J + 1) by lra.
    pose proof (Hm _ _ Hle). lra. }
  assert (HuM : 0 <= u * M) by (subst M; nra).
  assert (Htol : (2 * J + 12) * u * M <= roundtrip_tolerance u offs).
  { assert (HL' : last offs 0 = L)
      by (subst L offs; apply last_cons_default).
    unfold roundtrip_tolerance. rewrite HL'.
    change (hd 0 offs) with o0. fold M.
    set (n := inject_Z (Z.of_nat (length offs))) in *. nra. }
  unfold fractionToPosition, interpolate. r_ops. cbv beta iota zeta.
  destruct (Qlt_le_dec frac (J + 1)) as [Hlt | Hge].
  - (* the rounded index stays below the next whole number *)
    assert (Hfloor : Qfloor frac = Z.of_nat k).
    { apply Qfloor_unique; [exact HfJ |]. rewrite inject_Z_plus. exact Hlt. }
    rewrite Hfloor.
    replace (Z.min (Z.of_nat (length offs) - 1) (Z.of_nat k + 1))
      with (Z.of_nat (S k)) by lia.
    unfold array_get.
    destruct (Z.ltb_spec (Z.of_nat k) 0) as [Hneg | _]; [lia |].
    destruct (Z.ltb_spec (Z.of_nat (S k)) 0) as [Hneg | _]; [lia |].
    rewrite !Nat2Z.id, Ha, Hb.
    eexists. split; [reflexivity |].
    fold G. fold d2. fold J.
    set (t := rnd (frac - J)).
    set (m := rnd (d2 * t)).
    set (interp := rnd (a + m)).
    assert (Hw0 : 0 <= frac - J) by lra.
    destruct (@rounded_bounds rnd u Herr (frac - J) Hw0) as [Hta Htb].
    fold t in Hta, Htb.
    assert (Ht1 : t <= 1).
    { subst t. assert (Hle : frac - J <= 1) by lra.
      pose proof (Hm _ _ Hle). lra. }
    assert (Ht0 : 0 <= t).
    { subst t. apply (@rounded_nonneg rnd u Hm Herr). exact Hw0. }
    assert (Hv0 : 0 <= d2 * t) by nra.
    destruct (@rounded_bounds rnd u Herr (d2 * t) Hv0) as [Hma Hmb].
    fold m in Hma, Hmb.
    pose proof (Herr (a + m)) as Hi. fold interp in Hi.
    pose proof (@roundtrip_core_inside u M a D G J d1 d2 q frac t m interp
                  Hu0 Hu1 HD0 HDG HG HGM HaM HJ Hd1a Hd1b Hd2a Hd2b Hqa Hqb
                  Hq0 Hq1 Hfa Hfb HfJ HfJ1 Hta Htb Ht1 Hma Hmb Hi) as Hcore.
    apply Qabs_Qle_condition in Hcore. destruct Hcore as [Hc1 Hc2].
    apply Qabs_Qle_condition. subst D. split; lra.
  - (* the rounded index is the next whole number *)
    assert (Hfe : frac == J + 1) by lra.
    assert (Hfloor : Qfloor frac = Z.of_nat (S k)).
    { rewrite (Qfloor_comp _ _ Hfe).
      apply Qfloor_unique.
      - subst J. rewrite Nat2Z.inj_succ. unfold Z.succ.
        rewrite inject_Z_plus. change (inject_Z 1) with 1. lra.
      - subst J. rewrite Nat2Z.inj_succ. unfold Z.succ.
        rewrite !inject_Z_plus. change (inject_Z 1) with 1. lra. }
    rewrite Hfloor.
    set (iU := Z.min (Z.of_nat (length offs) - 1) (Z.of_nat (S k) + 1)).
    unfold array_get.
    destruct (Z.ltb_spec (Z.of_nat (S k)) 0) as [Hneg | _]; [lia |].
    destruct (Z.ltb_spec iU 0) as [Hneg | _]; [subst iU; lia |].
    rewrite Nat2Z.id, Hb.
    destruct (nth_error offs (Z.to_nat iU)) as [oU |] eqn:HoU;
      [| apply nth_error_None in HoU; subst iU; lia].
    eexists. split; [reflexivity |].
    set (t := rnd (frac - inject_Z (Z.of_nat (S k)))).
    assert (Htz : t == 0).
    { subst t.
      assert (He : frac - inject_Z (Z.of_nat (S k)) == 0).
      { rewrite Hfe. subst J. rewrite Nat2Z.inj_succ. unfold Z.succ.
        rewrite inject_Z_plus. change (inject_Z 1) with 1. ring. }
      rewrite (@monotone_rounding_proper rnd Hm _ _ He). exact E0. }
    set (m := rnd (rnd (oU - b) * t)).
    assert (Hmz : m == 0).
    { subst m.
      assert (He : rnd (oU - b) * t == 0) by (rewrite Htz; ring).
      rewrite (@monotone_rounding_proper rnd Hm _ _ He). exact E0. }
    set (interp := rnd (b + m)).
    assert (Hib : interp == rnd b).
    { subst interp. apply (@monotone_rounding_proper rnd Hm).
      rewrite Hmz. ring. }
    assert (Hi : Qabs (interp - b) <= u * Qabs b).
    { rewrite Hib. apply Herr. }
    assert (Hf1 : J + 1 <= (J + q) * (1 + u)) by lra.
    pose proof (@roundtrip_core_boundary u M b D G J d1 d2 q interp
                  Hu0 Hu1 HD0 HDG HG HGM HbM HJ Hd1a Hd1b Hd2a Hd2b Hqa Hqb
                  Hq0 Hq1 Hf1 Hi) as Hcore.
    apply Qabs_Qle_condition in Hcore. destruct Hcore as [Hc1 Hc2].
    apply Qabs_Qle_condition. subst D G. split; lra.
Qed.

Lemma round_to_quarter_near (x : Q) :
  x - (1 # 8) <= round_to_quarter x /\ round_to_quarter x <= x + (1 # 8).
Proof.
  unfold round_to_quarter.
  pose proof (Qfloor_le (x * 4 + (1 # 2))) as H1.
  pose proof (Qlt_floor (x * 4 + (1 # 2))) as H2.
  rewrite inject_Z_plus in H2. change (inject_Z 1) with 1 in H2.
  set (f := inject_Z (Qfloor (x * 4 + (1 # 2)))) in *.
  assert (He : f / 4 == f * (1 # 4)) by (field).
  rewrite He. split; lra.
Qed.

Lemma round_to_quarter_integer (z : Z) :
  round_to_quarter (inject_Z z) == inject_Z z.
Proof.
  assert (He : inject_Z z == inject_Z (4 * z) / 4).
  { rewrite inject_Z_mult. change (inject_Z 4) with 4. field. }
  unfold round_to_quarter.
  assert (Ha : inject_Z z * 4 + (1 # 2) == inject_Z (4 * z) + (1 # 2)).
  { rewrite inject_Z_mult. change (inject_Z 4) with 4. ring. }
  rewrite (Qfloor_comp _ _ Ha).
  assert (Hz : Qfloor (inject_Z (4 * z) + (1 # 2)) = (4 * z)%Z).
  { apply Qfloor_unique; [lra |]. rewrite inject_Z_plus.
    change (inject_Z 1) with 1. lra. }
  rewrite Hz. symmetry. exact He.
Qed.

Lemma round_above_one_monotone : monotone_rounding round_above_one.
Proof.
  intros x y Hxy. unfold round_above_one.
  pose proof (round_to_quarter_integer 1) as R1.
  pose proof (round_to_quarter_integer (-1)) as Rm1.
  change (inject_Z 1) with 1 in R1.
  destruct (Qle_bool_spec 1 (Qabs x)) as [Hx | Hx];
    destruct (Qle_bool_spec 1 (Qabs y)) as [Hy | Hy].
  - apply round_to_quarter_monotone. exact Hxy.
  - assert (Hy' : Qabs y < 1) by lra.
    apply Qabs_Qlt_condition in Hy'. destruct Hy' as [Hy1 Hy2].
    assert (Hx' : x <= inject_Z (-1)).
    { destruct (Qlt_le_dec (inject_Z (-1)) x) as [Hgt | Hle]; [| exact Hle].
      exfalso. assert (Hax : Qabs x < 1).
      { apply Qabs_Qlt_condition. change (inject_Z (-1)) with (- (1)) in Hgt.
        split; lra. }
      lra. }
    pose proof (@round_to_quarter_monotone _ _ Hx') as Hmono.
    rewrite Rm1 in Hmono. change (inject_Z (-1)) with (- (1)) in Hmono. lra.
  - assert (Hx' : Qabs x < 1) by lra.
    apply Qabs_Qlt_condition in Hx'. destruct Hx' as [Hx1 Hx2].
    assert (Hy' : 1 <= y).
    { destruct (Qlt_le_dec y 1) as [Hlt | Hge]; [| exact Hge].
      exfalso. assert (Hay : Qabs y < 1)
        by (apply Qabs_Qlt_condition; split; lra). lra. }
    pose proof (@round_to_quarter_monotone _ _ Hy'). lra.
  - exact Hxy.
Qed.

Lemma round_above_one_error : relative_error round_above_one (1 # 8).
Proof.
  intros x. unfold round_above_one.
  destruct (Qle_bool_spec 1 (Qabs x)) as [Hx | Hx].
  - destruct (round_to_quarter_near x) as [H1 H2].
    apply Qabs_Qle_condition. split; lra.
  - assert (He : x - x == 0) by ring. rewrite He.
    change (Qabs 0) with 0. pose proof (Qabs_nonneg x). lra.
Qed.

Lemma round_above_one_integer (z : Z) :
  exact_at round_above_one (inject_Z z).
Proof.
  unfold exact_at, round_above_one.
  destruct (Qle_bool 1 (Qabs (inject_Z z)));
    [apply round_to_quarter_integer | reflexivity].
Qed.

(** C7, as the code has it.  For strictly increasing offsets and a position
    [p] whose magnitude lies strictly between the first and the last
    offset, the fractional index of [p] mapped back by the slider
    interpolation is minus the magnitude of [p] within a floating-point
    tolerance: [p] itself for every [p <= 0], which is where the engine
    keeps the position, and [-p] for a position above zero.  The tolerance
    is [roundtrip_tolerance]: for every arithmetic that rounds each
    operation monotonically with a relative error of at most [u] and
    represents the whole numbers up to the number of offsets (binary64 with
    [u] = 2^-53), the result differs from [-|p|] by at most
    (2 n + 8) u (|offsets[0]| + offsets[last]); in exact arithmetic
    ([u] = 0) it is [-|p|] itself. *)
Theorem fraction_roundtrip :
  forall (rnd : Q -> Q) (u o0 : Q) (rest : list Q) (p : Q),
    let offs := o0 :: rest in
    monotone_rounding rnd -> relative_error rnd u ->
    0 <= u -> u <= 1 # 4 ->
    (forall z : Z, (0 <= z <= Z.of_nat (length offs))%Z ->
                   exact_at rnd (inject_Z z)) ->
    strictly_increasing offs ->
    o0 < Qabs p -> Qabs p < last offs o0 ->
    exists y,
      @fractionToPosition Q (Rounded_JsNumber rnd) offs
        (@Master.fractionalIndexForPosY Q (Rounded_JsNumber rnd) offs p)
      = Some y
      /\ Qabs (y - - Qabs p) <= roundtrip_tolerance u offs
      /\ (p <= 0 -> Qabs (y - p) <= roundtrip_tolerance u offs)
      /\ (u == 0 -> y == - Qabs p).
Proof.
  intros rnd u o0 rest p offs Hm Herr Hu0 Hu1 Hint Hinc Hlo Hhi.
  destruct (@rounded_roundtrip rnd u o0 rest p Hm Herr Hu0 Hu1 Hint Hinc
              Hlo Hhi) as (y & Hy & Htol).
  exists y. split; [exact Hy |]. split; [exact Htol |]. split.
  - intros Hp.
    assert (He : y - p == y - - Qabs p)
      by (rewrite (Qabs_neg p Hp); ring).
    rewrite He. exact Htol.
  - intros Hu.
    assert (Hz : roundtrip_tolerance u (o0 :: rest) == 0)
      by (unfold roundtrip_tolerance; rewrite Hu; ring).
    apply Qabs_Qle_condition in Htol. destruct Htol as [Ht1 Ht2].
    apply Qle_antisym; lra.
Qed.

Lemma fraction_roundtrip_witness :
  exists y,
    @fractionToPosition Q (Rounded_JsNumber round_above_one)
      [0; 100; 250; 420]
      (@Master.fractionalIndexForPosY Q (Rounded_JsNumber round_above_one)
         [0; 100; 250; 420] (- (1453 # 10)))
    = Some y
    /\ Qabs (y - - Qabs (- (1453 # 10)))
       <= roundtrip_tolerance (1 # 8) [0; 100; 250; 420].
Proof.
  destruct (@fraction_roundtrip round_above_one (1 # 8) 0 [100; 250; 420]
              (- (1453 # 10)) round_above_one_monotone
              round_above_one_error)
    as (y & Hy & Htol & _).
  - vm_compute. discriminate.
  - vm_compute. discriminate.
  - intros z _. apply round_above_one_integer.
  - simpl. repeat split; reflexivity.
  - vm_compute. reflexivity.
  - vm_compute. reflexivity.
  - exists y. split; [exact Hy | exact Htol].
Defined.

(** C7 as stated fails for a position above zero: with the offsets 0, 50
    and the position 25 (magnitude strictly between 0 and 50) the round
    trip yields -25, 50 px away from 25, on exact numbers and on binary64
    alike. *)
Lemma fraction_roundtrip_positive_position :
  strictly_increasing [0; 50]
  /\ 0 < Qabs 25 /\ Qabs 25 < last [0; 50] 0
  /\ (exists y,
         fractionToPosition [0; 50]
           (Master.fractionalIndexForPosY [0; 50] 25) = Some y
         /\ y == - (25) /\ ~ y == 25 /\ Qabs (y - 25) == 50)
  /\ fractionToPosition [0%float; 50%float]
       (Master.fractionalIndexForPosY [0%float; 50%float] 25%float)
     = Some (-25)%float.
Proof.
  split; [simpl; split; [reflexivity | exact I] |].
  split; [reflexivity |]. split; [reflexivity |].
  split.
  - eexists. split; [vm_compute; reflexivity |].
    split; [reflexivity |]. split; [| reflexivity].
    intros H. vm_compute in H. discriminate H.
  - vm_compute. reflexivity.
Qed.
